(** * Prospector: the game server's session engine

    A shallow embedding of [src/prospector/server/server.py] (class
    [GameServer]) and of [src/newest prospector/server/game.py] (class
    [Game]), and the properties of the session state machine: fences and
    enclosure, turn rotation, scoring, end of game, the player directory and
    the server lock.

    Python dictionaries keyed by identifiers are finite maps, Python lists
    are lists read with [!!] and updated in place with [alter]; an access
    that Python would refuse with an exception is an explicit [Raised]
    outcome, and a wait for a lock that is never released is [Blocked]. *)

From Stdlib Require Import ZArith Lia.
From stdpp Require Import gmap strings list fin_maps.

(** ** Data model *)

(** [land_type]: the three strings drawn by [random.choices] in
    [initialize_grid]. *)
Inductive land_type := regular | copper | gold.

(** The four keys accepted by [place_fence] for [orientation]. *)
Inductive orientation := o_north | o_east | o_south | o_west.

(** A cell dictionary of [initialize_grid]. *)
Record cell := Cell {
  north : bool;
  east : bool;
  south : bool;
  west : bool;
  owner : option string;
  land : land_type;
  value : Z
}.

#[global] Instance land_type_eq_dec : EqDecision land_type.
Proof. solve_decision. Defined.

#[global] Instance orientation_eq_dec : EqDecision orientation.
Proof. solve_decision. Defined.

#[global] Instance cell_eq_dec : EqDecision cell.
Proof. solve_decision. Defined.

(** An entry of [game["players"]]. *)
Record player := Player {
  p_id : string;
  p_name : string;
  p_score : Z
}.

(** The [game_state] dictionary built by [create_game]. Clock readings
    ([time.time()], [datetime.now()]) are integers handed to the handlers. *)
Record game := Game {
  game_id : string;
  grid_size : Z;
  num_players : Z;
  players : list player;
  current_player_index : nat;
  grid : list (list cell);
  game_over : bool;
  winner : option string;
  created_at : Z;
  last_activity : Z;
  turn_start_time : Z;
  turn_time_limit : Z
}.

(** An entry of [self.players], the directory of tallies. *)
Record stats := Stats {
  st_name : string;
  wins : Z;
  losses : Z;
  draws : Z
}.

(** An entry of [self.recordings[game_id]]. *)
Record move := Move {
  mv_timestamp : Z;
  mv_player_id : string;
  mv_player_name : string;
  mv_x : Z;
  mv_y : Z;
  mv_orientation : orientation;
  mv_land_claimed : bool
}.

(** The fields of [GameServer] that the session handlers read and write.
    [sv_lock] is [self.lock], a [threading.Lock]: [true] while it is held. *)
Record server := Server {
  sv_games : gmap string game;
  sv_players : gmap string stats;
  sv_recordings : gmap string (list move);
  sv_lock : bool
}.

(** [GameServer.__init__]. *)
Definition init_server : server :=
  {| sv_games := ∅; sv_players := ∅; sv_recordings := ∅; sv_lock := false |}.

(** *** Requests and responses *)

Record create_msg := CreateMsg {
  cm_player_name : option string;
  cm_grid_size : option Z;
  cm_num_players : option Z
}.

Record join_msg := JoinMsg {
  jm_game_id : option string;
  jm_player_name : option string
}.

(** [position] defaults to the empty dictionary, so [x] and [y] may each be
    missing; [orientation] is any string, or missing. *)
Record place_msg := PlaceMsg {
  pm_game_id : option string;
  pm_x : option Z;
  pm_y : option Z;
  pm_orientation : option string
}.

Record leave_msg := LeaveMsg {
  lm_game_id : option string
}.

(** A response dictionary: [status] and [message] always, the other keys
    when the handler puts them. [game_state] is the game as the handler
    leaves it. *)
Record response := Response {
  status : string;
  message : string;
  r_game_id : option string;
  r_game_state : option game;
  r_land_claimed : option bool
}.

Definition error (m : string) : response :=
  {| status := "error"; message := m; r_game_id := None;
     r_game_state := None; r_land_claimed := None |}.

Definition success (m : string) (gid : option string) (g : option game)
    (claimed : option bool) : response :=
  {| status := "success"; message := m; r_game_id := gid;
     r_game_state := g; r_land_claimed := claimed |}.

(** *** Outcomes of a handler *)

Inductive pyexn := IndexError | ValueError.

(** A handler returns a value and leaves a server state, or an exception
    escapes it, or it waits for ever on [self.lock]. The state left behind
    by an escaping exception is not tracked: no handler raises from a state
    the server can reach (see [reachable_no_raise]). *)
Inductive outcome (A : Type) :=
| Returned (a : A) (s : server)
| Raised (e : pyexn)
| Blocked.
Arguments Returned {A} a s.
Arguments Raised {A} e.
Arguments Blocked {A}.

Definition set_lock (b : bool) (s : server) : server :=
  {| sv_games := sv_games s; sv_players := sv_players s;
     sv_recordings := sv_recordings s; sv_lock := b |}.

(** [with self.lock: body]. [threading.Lock] is not reentrant: acquiring it
    while it is held waits until another thread releases it, and the threads
    of this server release it only at the end of their own [with] block. *)
Definition with_lock {A} (body : server → outcome A) (s : server) : outcome A :=
  if sv_lock s then Blocked
  else match body (set_lock true s) with
       | Returned a s' => Returned a (set_lock false s')
       | Raised e => Raised e
       | Blocked => Blocked
       end.

(** ** The grid *)

(** [land_value] as [initialize_grid] assigns it from the land type. *)
Definition land_value (t : land_type) : Z :=
  match t with
  | copper => 2
  | gold => 3
  | regular => 1
  end.

Definition new_cell (t : land_type) : cell :=
  {| north := false; east := false; south := false; west := false;
     owner := None; land := t; value := land_value t |}.

(** [initialize_grid(size)]: [size] rows of [size] fresh cells. The draw of
    [random.choices] for the cell at column [x] of row [y] is [draw x y]. *)
Definition initialize_grid (draw : nat → nat → land_type) (size : Z)
    : list (list cell) :=
  (λ y, (λ x, new_cell (draw x y)) <$> seq 0 (Z.to_nat size))
    <$> seq 0 (Z.to_nat size).

(** [orientation not in ["north", "east", "south", "west"]] is [None]. *)
Definition parse_orientation (o : option string) : option orientation :=
  match o with
  | Some s =>
      if String.eqb s "north" then Some o_north
      else if String.eqb s "east" then Some o_east
      else if String.eqb s "south" then Some o_south
      else if String.eqb s "west" then Some o_west
      else None
  | None => None
  end.

(** [cell[orientation]]. *)
Definition fence (o : orientation) (c : cell) : bool :=
  match o with
  | o_north => north c
  | o_east => east c
  | o_south => south c
  | o_west => west c
  end.

(** [cell[orientation] = True]. *)
Definition set_fence (o : orientation) (c : cell) : cell :=
  match o with
  | o_north => {| north := true; east := east c; south := south c; west := west c;
                  owner := owner c; land := land c; value := value c |}
  | o_east => {| north := north c; east := true; south := south c; west := west c;
                 owner := owner c; land := land c; value := value c |}
  | o_south => {| north := north c; east := east c; south := true; west := west c;
                  owner := owner c; land := land c; value := value c |}
  | o_west => {| north := north c; east := east c; south := south c; west := true;
                 owner := owner c; land := land c; value := value c |}
  end.

(** [cell["owner"] = player_id]. *)
Definition set_owner (who : string) (c : cell) : cell :=
  {| north := north c; east := east c; south := south c; west := west c;
     owner := Some who; land := land c; value := value c |}.

(** [grid[y][x]], for indices already known to be non-negative. *)
Definition grid_at (g : list (list cell)) (x y : Z) : option cell :=
  row ← g !! Z.to_nat y; row !! Z.to_nat x.

(** An in-place update of the dictionary [grid[y][x]]. *)
Definition grid_alter (f : cell → cell) (x y : Z) (g : list (list cell))
    : list (list cell) :=
  alter (alter f (Z.to_nat x)) (Z.to_nat y) g.

(** The cell on the other side of the fence and the key it carries there:
    the four branches of "Update adjacent cell's fence". [None] on the
    border of the grid. *)
Definition adjacent (size : Z) (o : orientation) (x y : Z)
    : option (Z * Z * orientation) :=
  match o with
  | o_north => if (y >? 0)%Z then Some (x, (y - 1)%Z, o_south) else None
  | o_east => if (x <? size - 1)%Z then Some ((x + 1)%Z, y, o_west) else None
  | o_south => if (y <? size - 1)%Z then Some (x, (y + 1)%Z, o_north) else None
  | o_west => if (x >? 0)%Z then Some ((x - 1)%Z, y, o_east) else None
  end.

(** [all_fences c]: [cell["north"] and cell["east"] and cell["south"] and
    cell["west"]]. *)
Definition all_fences (c : cell) : bool :=
  north c && east c && south c && west c.

(** [check_land_enclosed(grid, x, y)]; [None] when [grid[y][x]] raises. *)
Definition check_land_enclosed (g : list (list cell)) (x y : Z) : option bool :=
  c ← grid_at g x y;
  Some (all_fences c && bool_decide (owner c = None)).

(** [check_game_over(game)]: no cell of any row lacks a fence. *)
Definition check_game_over (g : game) : bool :=
  forallb (forallb all_fences) (grid g).

(** ** In-place updates of a game and of the server *)

Definition with_players (ps : list player) (g : game) : game :=
  {| game_id := game_id g; grid_size := grid_size g; num_players := num_players g;
     players := ps; current_player_index := current_player_index g;
     grid := grid g; game_over := game_over g; winner := winner g;
     created_at := created_at g; last_activity := last_activity g;
     turn_start_time := turn_start_time g; turn_time_limit := turn_time_limit g |}.

Definition with_index (i : nat) (g : game) : game :=
  {| game_id := game_id g; grid_size := grid_size g; num_players := num_players g;
     players := players g; current_player_index := i;
     grid := grid g; game_over := game_over g; winner := winner g;
     created_at := created_at g; last_activity := last_activity g;
     turn_start_time := turn_start_time g; turn_time_limit := turn_time_limit g |}.

Definition with_grid (gr : list (list cell)) (g : game) : game :=
  {| game_id := game_id g; grid_size := grid_size g; num_players := num_players g;
     players := players g; current_player_index := current_player_index g;
     grid := gr; game_over := game_over g; winner := winner g;
     created_at := created_at g; last_activity := last_activity g;
     turn_start_time := turn_start_time g; turn_time_limit := turn_time_limit g |}.

(** [game["game_over"] = True; game["winner"] = w]. *)
Definition with_result (w : option string) (g : game) : game :=
  {| game_id := game_id g; grid_size := grid_size g; num_players := num_players g;
     players := players g; current_player_index := current_player_index g;
     grid := grid g; game_over := true; winner := w;
     created_at := created_at g; last_activity := last_activity g;
     turn_start_time := turn_start_time g; turn_time_limit := turn_time_limit g |}.

Definition with_last_activity (t : Z) (g : game) : game :=
  {| game_id := game_id g; grid_size := grid_size g; num_players := num_players g;
     players := players g; current_player_index := current_player_index g;
     grid := grid g; game_over := game_over g; winner := winner g;
     created_at := created_at g; last_activity := t;
     turn_start_time := turn_start_time g; turn_time_limit := turn_time_limit g |}.

Definition with_turn_start (t : Z) (g : game) : game :=
  {| game_id := game_id g; grid_size := grid_size g; num_players := num_players g;
     players := players g; current_player_index := current_player_index g;
     grid := grid g; game_over := game_over g; winner := winner g;
     created_at := created_at g; last_activity := last_activity g;
     turn_start_time := t; turn_time_limit := turn_time_limit g |}.

Definition with_games (gs : gmap string game) (s : server) : server :=
  {| sv_games := gs; sv_players := sv_players s;
     sv_recordings := sv_recordings s; sv_lock := sv_lock s |}.

Definition with_directory (d : gmap string stats) (s : server) : server :=
  {| sv_games := sv_games s; sv_players := d;
     sv_recordings := sv_recordings s; sv_lock := sv_lock s |}.

Definition with_recordings (r : gmap string (list move)) (s : server) : server :=
  {| sv_games := sv_games s; sv_players := sv_players s;
     sv_recordings := r; sv_lock := sv_lock s |}.

(** [current_player["score"] += land_value]. *)
Definition add_score (v : Z) (p : player) : player :=
  {| p_id := p_id p; p_name := p_name p; p_score := (p_score p + v)%Z |}.

Definition new_player (pid name : string) : player :=
  {| p_id := pid; p_name := name; p_score := 0 |}.

Definition new_stats (name : string) : stats :=
  {| st_name := name; wins := 0; losses := 0; draws := 0 |}.

Definition bump_wins (t : stats) : stats :=
  {| st_name := st_name t; wins := (wins t + 1)%Z; losses := losses t; draws := draws t |}.

Definition bump_losses (t : stats) : stats :=
  {| st_name := st_name t; wins := wins t; losses := (losses t + 1)%Z; draws := draws t |}.

Definition bump_draws (t : stats) : stats :=
  {| st_name := st_name t; wins := wins t; losses := losses t; draws := (draws t + 1)%Z |}.

(** [f"Player_{player_id[:8]}"]. *)
Definition default_name (pid : string) : string :=
  String.append "Player_" (String.substring 0 8 pid).

(** "Initialize player stats": the entry is made only when [player_id] has
    none. *)
Definition init_stats (pid name : string) (d : gmap string stats) : gmap string stats :=
  match d !! pid with
  | Some _ => d
  | None => <[pid := new_stats name]> d
  end.

(** [not game_id or game_id not in self.games] is [None]; otherwise the key
    and [self.games[game_id]]. The empty string is falsy. *)
Definition find_game (gid : option string) (s : server) : option (string * game) :=
  match gid with
  | Some k => if String.eqb k "" then None else (λ g, (k, g)) <$> sv_games s !! k
  | None => None
  end.

(** ** The handlers of [GameServer] *)

(** [create_game(message, player_id)]. [fresh] is the identifier drawn by
    [uuid.uuid4()], [draw] the land types drawn for the grid, [now] the clock. *)
Definition create_game (msg : create_msg) (player_id : string)
    (fresh : string) (draw : nat → nat → land_type) (now : Z)
    : server → outcome response :=
  with_lock (λ s,
    let player_name := default (default_name player_id) (cm_player_name msg) in
    let size := default 5%Z (cm_grid_size msg) in
    let n := default 2%Z (cm_num_players msg) in
    if ((size <? 2) || (size >? 10))%Z then
      Returned (error "Invalid grid size (2-10)") s
    else if ((n <? 2) || (n >? 4))%Z then
      Returned (error "Invalid number of players (2-4)") s
    else
      let game_state :=
        {| game_id := fresh; grid_size := size; num_players := n;
           players := [new_player player_id player_name];
           current_player_index := 0;
           grid := initialize_grid draw size;
           game_over := false; winner := None;
           created_at := now; last_activity := now;
           turn_start_time := now; turn_time_limit := 60 |} in
      Returned (success "Game created successfully" (Some fresh) (Some game_state) None)
        {| sv_games := <[fresh := game_state]> (sv_games s);
           sv_players := init_stats player_id player_name (sv_players s);
           sv_recordings := <[fresh := []]> (sv_recordings s);
           sv_lock := sv_lock s |}).

(** [join_game(message, player_id)]. *)
Definition join_game (msg : join_msg) (player_id : string) (now : Z)
    : server → outcome response :=
  with_lock (λ s,
    let player_name := default (default_name player_id) (jm_player_name msg) in
    match find_game (jm_game_id msg) s with
    | None => Returned (error "Invalid game ID") s
    | Some (gid, game) =>
        if (Z.of_nat (length (players game)) >=? num_players game)%Z then
          Returned (error "Game is full") s
        else if existsb (λ p, String.eqb (p_id p) player_id) (players game) then
          Returned (error "Player already in game") s
        else
          let game' :=
            with_last_activity now
              (with_players (players game ++ [new_player player_id player_name]) game) in
          Returned (success "Game joined successfully" (Some gid) (Some game') None)
            (with_directory (init_stats player_id player_name (sv_players s))
               (with_games (<[gid := game']> (sv_games s)) s))
    end).

(** "Place the fence" and "Update adjacent cell's fence" (lines 300-311):
    the flag on [grid[y][x]], then the mirrored flag across the fence.
    [None] when the adjacent cell cannot be read. *)
Definition put_fence (size : Z) (o : orientation) (x y : Z)
    (g : list (list cell)) : option (list (list cell)) :=
  let g1 := grid_alter (set_fence o) x y g in
  match adjacent size o x y with
  | Some (x', y', o') =>
      match grid_at g1 x' y' with
      | Some _ => Some (grid_alter (set_fence o') x' y' g1)
      | None => None
      end
  | None => Some g1
  end.

(** "Check if land is claimed" (lines 313-321): only [grid[y][x]] is
    examined. Gives the grid, the roster and [land_claimed]. *)
Definition claim_land (who : string) (idx : nat) (x y : Z)
    (g : list (list cell)) (ps : list player)
    : option (list (list cell) * list player * bool) :=
  enclosed ← check_land_enclosed g x y;
  if (enclosed : bool) then
    c ← grid_at g x y;
    Some (grid_alter (set_owner who) x y g, alter (add_score (value c)) idx ps, true)
  else Some (g, ps, false).

(** [max(p["score"] for p in players)]; [None] is the [ValueError] of an
    empty roster. *)
Definition max_score (ps : list player) : option Z :=
  match ps with
  | [] => None
  | p :: ps' => Some (foldl (λ m q, Z.max m (p_score q)) (p_score p) ps')
  end.

(** [[p["id"] for p in players if p["score"] == max_score]]. *)
Definition winners (m : Z) (ps : list player) : list string :=
  p_id <$> filter (λ p, p_score p = m) ps.

(** The two loops of [end_game] over the directory; an identity without an
    entry is skipped. *)
Definition record_win_loss (winner_id : string) (ps : list player)
    (d : gmap string stats) : gmap string stats :=
  foldl (λ d p, if String.eqb (p_id p) winner_id
                then alter bump_wins (p_id p) d
                else alter bump_losses (p_id p) d) d ps.

Definition record_draws (ps : list player) (d : gmap string stats)
    : gmap string stats :=
  foldl (λ d p, alter bump_draws (p_id p) d) d ps.

(** [end_game(game)]. *)
Definition end_game (g : game) (d : gmap string stats)
    : option (game * gmap string stats) :=
  m ← max_score (players g);
  match winners m (players g) with
  | [winner_id] =>
      Some (with_result (Some winner_id) g, record_win_loss winner_id (players g) d)
  | _ => Some (with_result (Some "draw") g, record_draws (players g) d)
  end.

(** "Record the move": the list of the game is created when missing. *)
Definition record_move (gid : string) (m : move) (r : gmap string (list move))
    : gmap string (list move) :=
  <[gid := default [] (r !! gid) ++ [m]]> r.

(** The changes [place_fence] makes to the game once every check has passed
    (lines 300-331): fence, claim, activity, turn, timer. Gives the game and
    [land_claimed]; [None] when a read of the grid raises. *)
Definition move_game (g : game) (current_player : player)
    (o : orientation) (x y : Z) (now : Z) : option (game * bool) :=
  g1 ← put_fence (grid_size g) o x y (grid g);
  '(g2, ps, land_claimed) ←
    claim_land (p_id current_player) (current_player_index g) x y g1 (players g);
  let game1 := with_last_activity now (with_players ps (with_grid g2 g)) in
  let game2 :=
    if (land_claimed : bool) then game1
    else with_index ((current_player_index game1 + 1) `mod` length (players game1)) game1 in
  Some (with_turn_start now game2, land_claimed).

(** The rest of [place_fence] (lines 300-355): the move, its record, and the
    end of the game when the grid is full. *)
Definition apply_fence (gid : string) (game : game) (current_player : player)
    (player_id : string) (o : orientation) (x y : Z) (now : Z) (s : server)
    : outcome response :=
  match move_game game current_player o x y now with
  | None => Raised IndexError
  | Some (game3, land_claimed) =>
      let rec :=
        record_move gid
          {| mv_timestamp := now; mv_player_id := player_id;
             mv_player_name := p_name current_player;
             mv_x := x; mv_y := y; mv_orientation := o;
             mv_land_claimed := land_claimed |} (sv_recordings s) in
      if check_game_over game3 then
        match end_game game3 (sv_players s) with
        | None => Raised ValueError
        | Some (game4, d) =>
            Returned (success "Fence placed successfully" None (Some game4)
                        (Some land_claimed))
              (with_recordings rec
                 (with_directory d (with_games (<[gid := game4]> (sv_games s)) s)))
        end
      else
        Returned (success "Fence placed successfully" None (Some game3)
                    (Some land_claimed))
          (with_recordings rec (with_games (<[gid := game3]> (sv_games s)) s))
  end.

(** [place_fence(message, player_id)]. *)
Definition place_fence (msg : place_msg) (player_id : string) (now : Z)
    : server → outcome response :=
  with_lock (λ s,
    match find_game (pm_game_id msg) s with
    | None => Returned (error "Invalid game ID") s
    | Some (gid, game) =>
    match players game !! current_player_index game with
    | None => Raised IndexError
    | Some current_player =>
        if negb (String.eqb (p_id current_player) player_id) then
          Returned (error "Not your turn") s
        else if game_over game then
          Returned (error "Game is over") s
        else
          match pm_x msg, pm_y msg with
          | Some x, Some y =>
              if ((x <? 0) || (x >=? grid_size game) ||
                  (y <? 0) || (y >=? grid_size game))%Z then
                Returned (error "Position out of bounds") s
              else
                match parse_orientation (pm_orientation msg) with
                | None => Returned (error "Invalid orientation") s
                | Some o =>
                    match grid_at (grid game) x y with
                    | None => Raised IndexError
                    | Some c =>
                        if fence o c then
                          Returned (error "Fence already exists") s
                        else apply_fence gid game current_player player_id o x y now s
                    end
                end
          | _, _ => Returned (error "Invalid position") s
          end
    end
    end).

(** The search loop of [handle_player_disconnect]: the first index whose
    player has this identity. *)
Definition find_player_index (player_id : string) (ps : list player) : option nat :=
  fst <$> list_find (λ p, p_id p = player_id) ps.

(** "Update remaining players' stats (they win)". *)
Definition record_leave_wins (player_id : string) (ps : list player)
    (d : gmap string stats) : gmap string stats :=
  foldl (λ d p, if String.eqb (p_id p) player_id then d
                else alter bump_wins (p_id p) d) d ps.

(** [handle_player_disconnect(player_id, game_id)]; it takes [self.lock]
    itself. *)
Definition handle_player_disconnect (player_id game_id : string)
    : server → outcome response :=
  with_lock (λ s,
    match sv_games s !! game_id with
    | None => Returned (error "Game not found") s
    | Some game =>
    match find_player_index player_id (players game) with
    | None => Returned (error "Player not in game") s
    | Some player_index =>
        if (length (players game) <=? 1)%nat then
          Returned (success "Game removed" None None None)
            (with_games (delete game_id (sv_games s)) s)
        else
          let d :=
            alter bump_losses player_id
              (record_leave_wins player_id (players game) (sv_players s)) in
          let ps := delete player_index (players game) in
          let game1 := with_players ps game in
          let game2 :=
            if (length ps <=? current_player_index game1)%nat
            then with_index 0 game1 else game1 in
          let game3 :=
            match ps with
            | [last] => with_result (Some (p_id last)) game2
            | _ => game2
            end in
          Returned (success "Player left game" None (Some game3) None)
            (with_directory d (with_games (<[game_id := game3]> (sv_games s)) s))
    end
    end).

(** [leave_game(message, player_id)]: the call to
    [handle_player_disconnect] is made inside [with self.lock]. *)
Definition leave_game (msg : leave_msg) (player_id : string)
    : server → outcome response :=
  with_lock (λ s,
    match find_game (lm_game_id msg) s with
    | None => Returned (error "Invalid game ID") s
    | Some (gid, _) => handle_player_disconnect player_id gid s
    end).

(** The body of the loop of [check_inactivity] for one game; [None] when
    reading the current player raises. *)
Definition timeout_game (current_time : Z) (g : game) : option game :=
  if game_over g then Some g
  else if (current_time - turn_start_time g >? 60)%Z then
    match players g !! current_player_index g with
    | None => None
    | Some _ =>
        Some (with_last_activity current_time
                (with_turn_start current_time
                   (with_index ((current_player_index g + 1) `mod` length (players g)) g)))
    end
  else Some g.

(** One round of [check_inactivity] after its sleep: every game of
    [self.games] under the lock. *)
Definition check_inactivity (current_time : Z) : server → outcome unit :=
  with_lock (λ s,
    if decide (map_Forall (λ _ g, is_Some (timeout_game current_time g)) (sv_games s))
    then Returned () (with_games (omap (timeout_game current_time) (sv_games s)) s)
    else Raised IndexError).

(** ** Runs of the server

    Every handler holds [self.lock] from its first read to its last write,
    so the server's history is a sequence of whole handler executions. The
    runs are those of the game handlers. The account handlers are not among
    them: [login_user] stores one dictionary of [self.players] under a
    second identifier, and [sv_players], a map to values, cannot say that
    two keys share an entry. What is proved of [reachable] states is proved
    of servers on which every identifier has an entry of its own. *)
Inductive op :=
| CreateGame (player_id : string) (msg : create_msg) (fresh : string)
    (draw : nat → nat → land_type) (now : Z)
| JoinGame (player_id : string) (msg : join_msg) (now : Z)
| PlaceFence (player_id : string) (msg : place_msg) (now : Z)
| LeaveGame (player_id : string) (msg : leave_msg)
| Disconnect (player_id : string) (game_id : string)
| Timeout (current_time : Z).

(** [Disconnect] is the cleanup of [handle_client]: it calls
    [handle_player_disconnect] outside any [with] block. *)
Definition step (o : op) (s : server) : outcome unit :=
  let forget (r : outcome response) : outcome unit :=
    match r with
    | Returned _ s' => Returned () s'
    | Raised e => Raised e
    | Blocked => Blocked
    end in
  match o with
  | CreateGame pid msg fresh draw now => forget (create_game msg pid fresh draw now s)
  | JoinGame pid msg now => forget (join_game msg pid now s)
  | PlaceFence pid msg now => forget (place_fence msg pid now s)
  | LeaveGame pid msg => forget (leave_game msg pid s)
  | Disconnect pid gid => forget (handle_player_disconnect pid gid s)
  | Timeout now => check_inactivity now s
  end.

(** The state after a sequence of handler executions, [None] as soon as one
    of them does not return. *)
Fixpoint run (ops : list op) (s : server) : option server :=
  match ops with
  | [] => Some s
  | o :: ops' =>
      match step o s with
      | Returned _ s' => run ops' s'
      | _ => None
      end
  end.

(** The states the server can be in between two handler executions. *)
Definition reachable (s : server) : Prop :=
  ∃ ops, run ops init_server = Some s.

(** ** Measures and invariants used in the statements *)

(** The sum of a weight over a list. *)
Definition total {A} (w : A → Z) (l : list A) : Z :=
  foldr (λ a acc, (w a + acc)%Z) 0%Z l.

(** The sum of [p["score"]] over the roster. *)
Definition score_sum (ps : list player) : Z := total p_score ps.

(** The point value a cell contributes once it has an owner. *)
Definition owned_value (c : cell) : Z :=
  match owner c with
  | Some _ => value c
  | None => 0%Z
  end.

(** The sum of the point values of the owned cells of a grid. *)
Definition owned_sum (g : list (list cell)) : Z := total (total owned_value) g.

(** [in_grid size x y]: the bounds check of [place_fence] passes. *)
Definition in_grid (size x y : Z) : Prop :=
  (0 ≤ x < size)%Z ∧ (0 ≤ y < size)%Z.

(** The positions that can be read are those inside the bounds. *)
Definition grid_shape (size : Z) (gr : list (list cell)) : Prop :=
  ∀ x y, (0 ≤ x)%Z → (0 ≤ y)%Z → is_Some (grid_at gr x y) ↔ in_grid size x y.

(** The two flags of a shared fence agree. *)
Definition mirrored (gr : list (list cell)) : Prop :=
  ∀ x y c c', (0 ≤ x)%Z → (0 ≤ y)%Z → grid_at gr x y = Some c →
    (grid_at gr (x + 1) y = Some c' → east c = west c') ∧
    (grid_at gr x (y + 1) = Some c' → south c = north c').

(** What holds of every game the server stores. *)
Record game_ok (g : game) : Prop := GameOk {
  ok_index : current_player_index g < length (players g);
  ok_shape : grid_shape (grid_size g) (grid g);
  ok_mirrored : mirrored (grid g);
  ok_values : Forall (Forall (λ c, (0 ≤ value c)%Z)) (grid g);
  ok_scores : Forall (λ p, (0 ≤ p_score p)%Z) (players g);
  ok_sum : (score_sum (players g) ≤ owned_sum (grid g))%Z
}.

(** What holds of the server between two handler executions. *)
Record server_ok (s : server) : Prop := ServerOk {
  ok_lock : sv_lock s = false;
  ok_games : ∀ gid g, sv_games s !! gid = Some g → game_ok g
}.

(** The scores of the seated players add up to the value of the owned
    cells, in every game. *)
Definition conserved (s : server) : Prop :=
  ∀ gid g, sv_games s !! gid = Some g → score_sum (players g) = owned_sum (grid g).

(** The executions of [handle_player_disconnect] that the server completes. *)
Definition is_departure (o : op) : bool :=
  match o with
  | Disconnect _ _ => true
  | _ => false
  end.

(** ** The class [Game] of [src/newest prospector/server/game.py]

    The object's fields are those of the record [game]; [land_types] (the
    constant ["regular"]) and the timer thread are left out. Its cells have
    no ["value"] key: the field [value] is never read here. *)
Module GameClass.

(** What [place_fence] returns: an error dictionary with its message, or
    the success dictionary with [land_claimed]. *)
Inductive result :=
| Error (message : string)
| Success (land_claimed : bool).

(** [_initialize_grid(size)]: every cell is ["regular"]. *)
Definition initialize_grid (size : Z) : list (list cell) :=
  (λ y, (λ x, new_cell regular) <$> seq 0 (Z.to_nat size)) <$> seq 0 (Z.to_nat size).

(** [Game(grid_size, num_players)], with the identifier and the clock
    reading it draws. *)
Definition init (fresh : string) (size n : Z) (now : Z) : game :=
  {| game_id := fresh; grid_size := size; num_players := n;
     players := []; current_player_index := 0;
     grid := initialize_grid size; game_over := false; winner := None;
     created_at := now; last_activity := now;
     turn_start_time := now; turn_time_limit := 60 |}.

(** [add_player(player_id, player_name)]. *)
Definition add_player (self : game) (player_id player_name : string) (now : Z)
    : bool * game :=
  if (Z.of_nat (length (players self)) >=? num_players self)%Z then (false, self)
  else if existsb (λ p, String.eqb (p_id p) player_id) (players self) then (false, self)
  else (true, with_last_activity now
                (with_players (players self ++ [new_player player_id player_name]) self)).

(** [points = 1 if cell["type"] == "regular" else 2]. *)
Definition points (c : cell) : Z :=
  match land c with
  | regular => 1
  | _ => 2
  end.

(** [_check_game_over()]: a cell with its four fences and no owner, or a
    cell that lacks a fence, answers [False]. *)
Definition check_game_over (self : game) : bool :=
  forallb (forallb (λ c,
    if all_fences c && bool_decide (owner c = None) then false
    else if negb (all_fences c) then false
    else true)) (grid self).

(** [_end_game()]. *)
Definition end_game (self : game) : option game :=
  m ← max_score (players self);
  match winners m (players self) with
  | [winner_id] => Some (with_result (Some winner_id) self)
  | _ => Some (with_result (Some "draw") self)
  end.

(** Lines 106-117 of [place_fence]: the claim of [grid[y][x]]. *)
Definition claim_land (idx : nat) (x y : Z) (g : list (list cell)) (ps : list player)
    : option (list (list cell) * list player * bool) :=
  enclosed ← check_land_enclosed g x y;
  if (enclosed : bool) then
    current_player ← ps !! idx;
    c ← grid_at g x y;
    Some (grid_alter (set_owner (p_id current_player)) x y g,
          alter (add_score (points c)) idx ps, true)
  else Some (g, ps, false).

(** [place_fence(player_id, x, y, orientation)]; [None] when a read of the
    roster or of the grid raises. *)
Definition place_fence (self : game) (player_id : string) (x y : Z)
    (orientation : string) (now : Z) : option (result * game) :=
  current ← players self !! current_player_index self;
  if negb (String.eqb (p_id current) player_id) then
    Some (Error "Not your turn", self)
  else if game_over self then Some (Error "Game is over", self)
  else if ((x <? 0) || (x >=? grid_size self) ||
           (y <? 0) || (y >=? grid_size self))%Z then
    Some (Error "Position out of bounds", self)
  else
    match parse_orientation (Some orientation) with
    | None => Some (Error "Invalid orientation", self)
    | Some o =>
        c ← grid_at (grid self) x y;
        if fence o c then Some (Error "Fence already exists", self)
        else
          g1 ← put_fence (grid_size self) o x y (grid self);
          '(g2, ps, land_claimed) ←
            claim_land (current_player_index self) x y g1 (players self);
          let self1 := with_last_activity now (with_players ps (with_grid g2 self)) in
          let self2 :=
            if (land_claimed : bool) then self1
            else with_index
                   ((current_player_index self1 + 1) `mod` length (players self1)) self1 in
          if check_game_over self2 then
            self3 ← end_game self2; Some (Success land_claimed, self3)
          else Some (Success land_claimed, self2)
    end.

(** What [remove_player] returns: [False], ["remove_game"] or [True]. *)
Inductive removal := NotSeated | RemoveGame | Removed.

(** [remove_player(player_id)]. *)
Definition remove_player (self : game) (player_id : string) : removal * game :=
  match find_player_index player_id (players self) with
  | None => (NotSeated, self)
  | Some player_index =>
      if (length (players self) <=? 1)%nat then (RemoveGame, self)
      else
        let ps := delete player_index (players self) in
        let self1 := with_players ps self in
        let self2 :=
          if (length ps <=? current_player_index self1)%nat
          then with_index 0 self1 else self1 in
        let self3 :=
          match ps with
          | [last] => with_result (Some (p_id last)) self2
          | _ => self2
          end in
        (Removed, self3)
  end.

End GameClass.

(** ** Sample data for the examples *)

Definition all_regular : nat → nat → land_type := λ _ _, regular.

Definition create2x2 (n : Z) : create_msg :=
  {| cm_player_name := None; cm_grid_size := Some 2%Z; cm_num_players := Some n |}.

Definition join_g : join_msg :=
  {| jm_game_id := Some "g"; jm_player_name := None |}.

Definition fence_at (x y : Z) (o : string) : place_msg :=
  {| pm_game_id := Some "g"; pm_x := Some x; pm_y := Some y; pm_orientation := Some o |}.

Definition leave_g : leave_msg := {| lm_game_id := Some "g" |}.

(** The state a run from the initial server ends in. *)
Definition state_after (ops : list op) : server :=
  default init_server (run ops init_server).

(** The state and the value a handler returns. *)
Definition state_of {A} (o : outcome A) : server :=
  match o with
  | Returned _ s => s
  | _ => init_server
  end.

Definition response_of (o : outcome response) : response :=
  match o with
  | Returned r _ => r
  | _ => error ""
  end.

(** The game stored under ["g"]. *)
Definition game_g (s : server) : game :=
  default (GameClass.init "" 0 0 0) (sv_games s !! "g").

(** "A" opens a 2x2 game for [n] players. *)
Definition opened (n : Z) : list op :=
  [CreateGame "A" (create2x2 n) "g" all_regular 0%Z].

(** "A" opens a 2x2 game for two and "B" joins. *)
Definition two_seated : list op :=
  opened 2 ++ [JoinGame "B" join_g 1%Z].

(** A whole 2x2 game between "A" and "B". The fourth fence, east of (0,0),
    is also the west fence of (1,0), the last one that cell lacked. *)
Definition enclosure_trace : list op :=
  two_seated ++
  [PlaceFence "A" (fence_at 1 0 "north") 2%Z;
   PlaceFence "B" (fence_at 1 0 "east") 3%Z;
   PlaceFence "A" (fence_at 1 0 "south") 4%Z;
   PlaceFence "B" (fence_at 0 0 "east") 5%Z;
   PlaceFence "A" (fence_at 0 0 "north") 6%Z;
   PlaceFence "B" (fence_at 0 0 "west") 7%Z;
   PlaceFence "A" (fence_at 0 0 "south") 8%Z;
   PlaceFence "A" (fence_at 0 1 "west") 9%Z;
   PlaceFence "B" (fence_at 0 1 "south") 10%Z;
   PlaceFence "A" (fence_at 0 1 "east") 11%Z;
   PlaceFence "A" (fence_at 1 1 "east") 12%Z;
   PlaceFence "B" (fence_at 1 1 "south") 13%Z].

(** Three players sit down, then "A" and "B" disconnect in turn. *)
Definition departures_trace : list op :=
  opened 3 ++
  [JoinGame "B" join_g 1%Z; JoinGame "C" join_g 2%Z;
   Disconnect "A" "g"; Disconnect "B" "g"].




(** "A" and "B" seated in a game for three, still waiting for the third. *)
Definition two_of_three : list op :=
  opened 3 ++ [JoinGame "B" join_g 1%Z].

(** The sample game one move before its end. *)
Definition before_last_move : list op := take 13 enclosure_trace.

(** ** Further handlers of [GameServer] *)

(** [get_stats(message, player_id)]: the response and, on success, the entry
    under its ["stats"] key. The message is not read. *)
Definition get_stats (player_id : string) : server → outcome (response * option stats) :=
  with_lock (λ s,
    match sv_players s !! player_id with
    | None => Returned (error "Player not found", None) s
    | Some entry => Returned (success "Player statistics" None None None, Some entry) s
    end).

(** [get_game_recording(message, player_id)]: the response and, on success,
    the list under its ["recording"] key. It takes no lock. *)
Definition get_game_recording (gid : option string) (s : server)
    : response * option (list move) :=
  match gid with
  | Some k =>
      if String.eqb k "" then (error "Recording not found", None)
      else match sv_recordings s !! k with
           | Some log => (success "Game recording retrieved" None None None, Some log)
           | None => (error "Recording not found", None)
           end
  | None => (error "Recording not found", None)
  end.

(** ** Further invariants *)

(** What the handlers keep of every stored game besides [game_ok]: the sizes
    [create_game] accepted, a square grid, a roster within the capacity and
    without repeated identities, owners only on enclosed cells, values as
    [initialize_grid] gave them, a winner exactly when the game is over. *)
Record game_sound (g : game) : Prop := GameSound {
  sound_size : (2 ≤ grid_size g ≤ 10)%Z;
  sound_capacity : (2 ≤ num_players g ≤ 4)%Z;
  sound_rows : length (grid g) = Z.to_nat (grid_size g) ∧
               Forall (λ row, length row = Z.to_nat (grid_size g)) (grid g);
  sound_roster : (Z.of_nat (length (players g)) ≤ num_players g)%Z;
  sound_ids : NoDup (p_id <$> players g);
  sound_owned : Forall (Forall (λ c, is_Some (owner c) → all_fences c = true)) (grid g);
  sound_values : Forall (Forall (λ c, value c = land_value (land c))) (grid g);
  sound_result : game_over g = true ↔ is_Some (winner g)
}.

(** What the handlers keep of the server besides [server_ok]: a game is
    stored under its own identifier, its seated players have a directory
    entry, and it has a move log. *)
Record server_sound (s : server) : Prop := ServerSound {
  sound_games : ∀ gid g, sv_games s !! gid = Some g → game_sound g ∧ game_id g = gid;
  sound_directory : ∀ gid g p, sv_games s !! gid = Some g → p ∈ players g →
                      is_Some (sv_players s !! p_id p);
  sound_recordings : ∀ gid, is_Some (sv_games s !! gid) → is_Some (sv_recordings s !! gid)
}.

(** The fences and the owner a cell has are still there in a later cell. *)
Definition cell_kept (c c' : cell) : Prop :=
  (∀ o, fence o c = true → fence o c' = true) ∧
  (∀ w, owner c = Some w → owner c' = Some w) ∧
  land c' = land c ∧ value c' = value c.

(** The operations that store a new game under [gid]. *)
Definition creates (gid : string) (o : op) : Prop :=
  match o with
  | CreateGame _ _ fresh _ _ => fresh = gid
  | _ => False
  end.

(** The cell of the game stored under ["g"] at column [x] of row [y]. *)
Definition cell_g (s : server) (x y : Z) : cell :=
  default (new_cell regular) (grid_at (grid (game_g s)) x y).

(** The sample game up to the fence that encloses (1,0). *)
Definition enclosure_start : list op := take 6 enclosure_trace.

(** Objects of the class [Game] for the examples: players "A" and "B"
    seated, then a list of calls of [place_fence]. *)
Definition game_seated (size : Z) : game :=
  let g0 := GameClass.init "g" size 2 0 in
  let g1 := snd (GameClass.add_player g0 "A" "Ann" 0) in
  snd (GameClass.add_player g1 "B" "Bob" 0).

Definition game_moves (moves : list (string * Z * Z * string)) (self : game) : game :=
  foldl (λ g '(pid, x, y, o),
           match GameClass.place_fence g pid x y o 0 with
           | Some (_, g') => g'
           | None => g
           end) self moves.

(** A 1x1 game with three of its four fences placed. *)
Definition game_three_fences : game :=
  game_moves [("A", 0, 0, "north"); ("B", 0, 0, "east"); ("A", 0, 0, "south")]%Z
    (game_seated 1).

(** A 2x2 game in which (1,0) was enclosed by the fence east of (0,0). *)
Definition game_enclosed_neighbour : game :=
  game_moves [("A", 1, 0, "north"); ("B", 1, 0, "east"); ("A", 1, 0, "south");
              ("B", 0, 0, "east")]%Z
    (game_seated 2).

Lemma set_lock_restore s : sv_lock s = false → set_lock false (set_lock true s) = s.
Proof. destruct s; simpl; intros ->; reflexivity. Qed.

Lemma with_lock_returned {A} (body : server → outcome A) s a s' :
  with_lock body s = Returned a s' →
  sv_lock s = false ∧ ∃ s1, body (set_lock true s) = Returned a s1 ∧ s' = set_lock false s1.
Proof.
  unfold with_lock. destruct (sv_lock s) eqn:Hl; [discriminate|].
  destruct (body (set_lock true s)) eqn:Hb; try discriminate.
  intros [= <- <-]. eauto.
Qed.

Lemma grid_at_alter f x y x' y' g :
  (0 ≤ x)%Z → (0 ≤ y)%Z → (0 ≤ x')%Z → (0 ≤ y')%Z →
  grid_at (grid_alter f x y g) x' y' =
    if decide (x = x' ∧ y = y') then f <$> grid_at g x' y' else grid_at g x' y'.
Proof.
  intros Hx Hy Hx' Hy'. unfold grid_at, grid_alter.
  rewrite list_lookup_alter.
  destruct (decide (Z.to_nat y = Z.to_nat y')) as [Hyy|Hyy].
  - rewrite Hyy. destruct (g !! Z.to_nat y') as [row|]; simpl.
    + rewrite list_lookup_alter.
      destruct (decide (Z.to_nat x = Z.to_nat x')) as [Hxx|Hxx].
      * rewrite decide_True by lia. by rewrite ?Hxx.
      * rewrite decide_False by lia. done.
    + by case_decide.
  - rewrite decide_False by lia. done.
Qed.

(** ** Sums *)

Lemma total_alter {A} (w : A → Z) f i (l : list A) :
  total w (alter f i l) =
    (total w l + match l !! i with Some a => w (f a) - w a | None => 0 end)%Z.
Proof.
  revert i. induction l as [|a l IH]; intros [|i]; cbn; try lia.
  specialize (IH i). unfold total in IH. destruct (l !! i); lia.
Qed.

Lemma total_delete {A} (w : A → Z) i (l : list A) :
  total w (delete i l) =
    (total w l - match l !! i with Some a => w a | None => 0 end)%Z.
Proof.
  revert i. induction l as [|a l IH]; intros [|i]; try (cbn; lia).
  change (delete (S i) (a :: l)) with (a :: delete i l).
  change ((a :: l) !! S i) with (l !! i).
  change (total w (a :: delete i l)) with (w a + total w (delete i l))%Z.
  change (total w (a :: l)) with (w a + total w l)%Z.
  rewrite IH. lia.
Qed.

Lemma total_app {A} (w : A → Z) (l k : list A) :
  total w (l ++ k) = (total w l + total w k)%Z.
Proof. unfold total. induction l as [|a l IH]; simpl; lia. Qed.

Lemma total_nonneg {A} (w : A → Z) (l : list A) :
  Forall (λ a, (0 ≤ w a)%Z) l → (0 ≤ total w l)%Z.
Proof. unfold total. induction 1; simpl; lia. Qed.

Lemma total_zero {A} (w : A → Z) (l : list A) :
  Forall (λ a, w a = 0%Z) l → total w l = 0%Z.
Proof. unfold total. induction 1; simpl; lia. Qed.

Lemma owned_sum_alter f x y gr :
  owned_sum (grid_alter f x y gr) =
    (owned_sum gr + match grid_at gr x y with
                    | Some c => owned_value (f c) - owned_value c
                    | None => 0
                    end)%Z.
Proof.
  unfold owned_sum, grid_alter, grid_at. rewrite total_alter.
  destruct (gr !! Z.to_nat y) as [row|]; simpl; [|done].
  rewrite total_alter. destruct (row !! Z.to_nat x); lia.
Qed.

(** ** Fences on the grid *)

Lemma adjacent_spec size o x y ax ay ao :
  in_grid size x y → adjacent size o x y = Some (ax, ay, ao) →
  in_grid size ax ay ∧
  match o with
  | o_north => ax = x ∧ ay = (y - 1)%Z ∧ ao = o_south
  | o_east => ax = (x + 1)%Z ∧ ay = y ∧ ao = o_west
  | o_south => ax = x ∧ ay = (y + 1)%Z ∧ ao = o_north
  | o_west => ax = (x - 1)%Z ∧ ay = y ∧ ao = o_east
  end.
Proof.
  unfold in_grid, adjacent. intros Hin Ha.
  destruct o; case_match; simplify_eq; repeat split; try reflexivity; lia.
Qed.

Lemma adjacent_none size o x y :
  in_grid size x y → adjacent size o x y = None →
  match o with
  | o_north => y = 0%Z
  | o_east => x = (size - 1)%Z
  | o_south => y = (size - 1)%Z
  | o_west => x = 0%Z
  end.
Proof.
  unfold in_grid, adjacent. intros Hin Ha.
  destruct o; case_match; simplify_eq; lia.
Qed.

Lemma grid_at_alter_is_Some f x y gr x' y' :
  is_Some (grid_at (grid_alter f x y gr) x' y') ↔ is_Some (grid_at gr x' y').
Proof.
  unfold grid_at, grid_alter. rewrite list_lookup_alter.
  destruct (decide (Z.to_nat y = Z.to_nat y')) as [e|]; [rewrite <-e|done].
  destruct (gr !! Z.to_nat y) as [row|]; simpl; [|done].
  rewrite list_lookup_alter.
  destruct (decide (Z.to_nat x = Z.to_nat x')) as [e'|]; [rewrite <-e'|done].
  apply fmap_is_Some.
Qed.

Lemma grid_shape_alter size f x y gr :
  grid_shape size gr → grid_shape size (grid_alter f x y gr).
Proof.
  intros Hs x' y' Hx' Hy'. rewrite grid_at_alter_is_Some. by apply Hs.
Qed.

Lemma put_fence_at size o x y gr g1 x' y' :
  in_grid size x y → (0 ≤ x')%Z → (0 ≤ y')%Z →
  put_fence size o x y gr = Some g1 →
  grid_at g1 x' y' =
    if decide (x = x' ∧ y = y') then set_fence o <$> grid_at gr x' y'
    else match adjacent size o x y with
         | Some (ax, ay, ao) =>
             if decide (ax = x' ∧ ay = y') then set_fence ao <$> grid_at gr x' y'
             else grid_at gr x' y'
         | None => grid_at gr x' y'
         end.
Proof.
  intros Hin Hx' Hy'. unfold put_fence.
  destruct (adjacent size o x y) as [[[ax ay] ao]|] eqn:Ha.
  - destruct (adjacent_spec _ _ _ _ _ _ _ Hin Ha) as [Hain Hrel].
    destruct (grid_at _ ax ay); [|discriminate]. intros [= <-].
    unfold in_grid in *.
    rewrite !grid_at_alter by lia.
    repeat case_decide; try done; destruct o; lia.
  - intros [= <-]. unfold in_grid in *. rewrite grid_at_alter by lia. done.
Qed.

Lemma put_fence_total size o x y gr :
  grid_shape size gr → in_grid size x y → is_Some (put_fence size o x y gr).
Proof.
  intros Hs Hin. unfold put_fence.
  destruct (adjacent size o x y) as [[[ax ay] ao]|] eqn:Ha; [|done].
  destruct (adjacent_spec _ _ _ _ _ _ _ Hin Ha) as [Hain _].
  pose proof (grid_shape_alter size (set_fence o) x y gr Hs) as Hs1.
  destruct (proj2 (Hs1 ax ay ltac:(unfold in_grid in *; lia) ltac:(unfold in_grid in *; lia)) Hain)
    as [c ->]. done.
Qed.

Lemma put_fence_shape size o x y gr g1 :
  grid_shape size gr → put_fence size o x y gr = Some g1 → grid_shape size g1.
Proof.
  intros Hs. unfold put_fence.
  destruct (adjacent size o x y) as [[[ax ay] ao]|].
  - case_match; [|discriminate]. intros [= <-]. by do 2 apply grid_shape_alter.
  - intros [= <-]. by apply grid_shape_alter.
Qed.

Lemma owned_value_set_fence o c : owned_value (set_fence o c) = owned_value c.
Proof. by destruct o. Qed.

Lemma put_fence_owned_sum size o x y gr g1 :
  put_fence size o x y gr = Some g1 → owned_sum g1 = owned_sum gr.
Proof.
  unfold put_fence.
  destruct (adjacent size o x y) as [[[ax ay] ao]|].
  - case_match; [|discriminate]. intros [= <-].
    rewrite !owned_sum_alter. repeat case_match; rewrite ?owned_value_set_fence; lia.
  - intros [= <-]. rewrite owned_sum_alter. case_match; rewrite ?owned_value_set_fence; lia.
Qed.

Lemma fence_set_fence o o' c :
  fence o (set_fence o' c) = if decide (o = o') then true else fence o c.
Proof. destruct o, o'; reflexivity. Qed.

Lemma put_fence_mirrored size o x y gr g1 :
  grid_shape size gr → mirrored gr → in_grid size x y →
  put_fence size o x y gr = Some g1 → mirrored g1.
Proof.
  intros Hs Hm Hin Hp x0 y0 c c' Hx0 Hy0 Hc.
  pose proof (put_fence_at _ _ _ _ _ _ x0 y0 Hin Hx0 Hy0 Hp) as E0.
  rewrite Hc in E0.
  destruct (grid_at gr x0 y0) as [c0|] eqn:Hc0;
    [|by repeat case_match].
  pose proof (proj1 (Hs x0 y0 Hx0 Hy0) (mk_is_Some _ _ Hc0)) as Hin0.
  split; intros Hc'.
  - pose proof (put_fence_at _ _ _ _ _ _ (x0 + 1)%Z y0 Hin ltac:(lia) Hy0 Hp) as E1.
    rewrite Hc' in E1.
    destruct (grid_at gr (x0 + 1) y0) as [c1|] eqn:Hc1; [|by repeat case_match].
    pose proof (proj1 (Hs (x0 + 1)%Z y0 ltac:(lia) Hy0) (mk_is_Some _ _ Hc1)) as Hin1.
    destruct (Hm x0 y0 c0 c1 Hx0 Hy0 Hc0) as [Hm1 _]. specialize (Hm1 Hc1).
    unfold in_grid in *.
    destruct (adjacent size o x y) as [[[ax ay] ao]|] eqn:Ha.
    + destruct (adjacent_spec _ _ _ _ _ _ _ Hin Ha) as [Hain Hrel].
      unfold in_grid in *.
      repeat case_decide; simplify_eq/=; destruct o; simpl in *;
        destruct_and?; simplify_eq/=; try lia; try done.
    + pose proof (adjacent_none _ _ _ _ Hin Ha) as Hnone.
      repeat case_decide; simplify_eq/=; destruct o; simpl in *;
        destruct_and?; simplify_eq/=; try lia; try done.
  - pose proof (put_fence_at _ _ _ _ _ _ x0 (y0 + 1)%Z Hin Hx0 ltac:(lia) Hp) as E1.
    rewrite Hc' in E1.
    destruct (grid_at gr x0 (y0 + 1)) as [c1|] eqn:Hc1; [|by repeat case_match].
    pose proof (proj1 (Hs x0 (y0 + 1)%Z Hx0 ltac:(lia)) (mk_is_Some _ _ Hc1)) as Hin1.
    destruct (Hm x0 y0 c0 c1 Hx0 Hy0 Hc0) as [_ Hm1]. specialize (Hm1 Hc1).
    unfold in_grid in *.
    destruct (adjacent size o x y) as [[[ax ay] ao]|] eqn:Ha.
    + destruct (adjacent_spec _ _ _ _ _ _ _ Hin Ha) as [Hain Hrel].
      unfold in_grid in *.
      repeat case_decide; simplify_eq/=; destruct o; simpl in *;
        destruct_and?; simplify_eq/=; try lia; try done.
    + pose proof (adjacent_none _ _ _ _ Hin Ha) as Hnone.
      repeat case_decide; simplify_eq/=; destruct o; simpl in *;
        destruct_and?; simplify_eq/=; try lia; try done.
Qed.

Lemma grid_at_elem gr x y c :
  grid_at gr x y = Some c → ∃ row, gr !! Z.to_nat y = Some row ∧ row !! Z.to_nat x = Some c.
Proof.
  unfold grid_at. destruct (gr !! Z.to_nat y) as [row|]; simpl; [|done]. eauto.
Qed.

Lemma grid_Forall_at (P : cell → Prop) gr x y c :
  Forall (Forall P) gr → grid_at gr x y = Some c → P c.
Proof.
  intros HF (row & Hrow & Hc)%grid_at_elem.
  eapply Forall_lookup_1; [|exact Hc]. eapply Forall_lookup_1; [exact HF|exact Hrow].
Qed.

Lemma grid_Forall_alter (P : cell → Prop) f x y gr :
  (∀ c, P c → P (f c)) → Forall (Forall P) gr → Forall (Forall P) (grid_alter f x y gr).
Proof.
  intros Hf HF. unfold grid_alter.
  apply Forall_alter; [done|]. intros row _ Hrow.
  apply Forall_alter; [done|]. intros c _. apply Hf.
Qed.

Lemma put_fence_Forall (P : cell → Prop) size o x y gr g1 :
  (∀ o c, P c → P (set_fence o c)) →
  Forall (Forall P) gr → put_fence size o x y gr = Some g1 → Forall (Forall P) g1.
Proof.
  intros Hf HF. unfold put_fence.
  destruct (adjacent size o x y) as [[[ax ay] ao]|].
  - case_match; [|discriminate]. intros [= <-].
    apply grid_Forall_alter; [apply Hf|]. apply grid_Forall_alter; [apply Hf|done].
  - intros [= <-]. apply grid_Forall_alter; [apply Hf|done].
Qed.

Lemma mirrored_set_owner who x y gr :
  (0 ≤ x)%Z → (0 ≤ y)%Z → mirrored gr → mirrored (grid_alter (set_owner who) x y gr).
Proof.
  intros Hx Hy Hm x0 y0 c c' Hx0 Hy0.
  rewrite !grid_at_alter by lia.
  intros Hc.
  assert (∃ c0, grid_at gr x0 y0 = Some c0 ∧ north c = north c0 ∧ east c = east c0
                ∧ south c = south c0 ∧ west c = west c0) as (c0 & Hc0 & Hn & He & Hso & Hw).
  { case_decide; [|by exists c].
    destruct (grid_at gr x0 y0) as [c0|]; simplify_eq/=. by exists c0. }
  destruct (Hm x0 y0 c0 c' Hx0 Hy0 Hc0) as [H1 H2].
  split; intros Hc'.
  - case_decide.
    + destruct (grid_at gr (x0 + 1) y0) as [c1|] eqn:Hc1; simplify_eq/=.
      destruct (Hm x0 y0 c0 c1 Hx0 Hy0 Hc0) as [H3 _]. rewrite He. by apply H3.
    + rewrite He. by apply H1.
  - case_decide.
    + destruct (grid_at gr x0 (y0 + 1)) as [c1|] eqn:Hc1; simplify_eq/=.
      destruct (Hm x0 y0 c0 c1 Hx0 Hy0 Hc0) as [_ H3]. rewrite Hso. by apply H3.
    + rewrite Hso. by apply H2.
Qed.

Lemma claim_land_spec who idx x y g1 ps c1 :
  grid_at g1 x y = Some c1 →
  claim_land who idx x y g1 ps =
    Some (if all_fences c1 && bool_decide (owner c1 = None)
          then (grid_alter (set_owner who) x y g1, alter (add_score (value c1)) idx ps, true)
          else (g1, ps, false)).
Proof.
  unfold claim_land, check_land_enclosed. intros ->. simpl. by case_match.
Qed.

Lemma put_fence_target size o x y gr g1 c :
  in_grid size x y → grid_at gr x y = Some c →
  put_fence size o x y gr = Some g1 → grid_at g1 x y = Some (set_fence o c).
Proof.
  intros Hin Hc Hp. unfold in_grid in Hin.
  rewrite (put_fence_at _ _ _ _ _ _ x y Hin ltac:(lia) ltac:(lia) Hp).
  rewrite decide_True by done. by rewrite Hc.
Qed.

Lemma owner_set_fence o c : owner (set_fence o c) = owner c.
Proof. by destruct o. Qed.

Lemma value_set_fence o c : value (set_fence o c) = value c.
Proof. by destruct o. Qed.

(** What a move does to the game, field by field. *)
Lemma move_game_spec g cur o x y now c :
  grid_shape (grid_size g) (grid g) → in_grid (grid_size g) x y →
  grid_at (grid g) x y = Some c →
  ∃ g1 g',
    let claimed := all_fences (set_fence o c) && bool_decide (owner c = None) in
    put_fence (grid_size g) o x y (grid g) = Some g1 ∧
    move_game g cur o x y now = Some (g', claimed) ∧
    grid g' = (if claimed then grid_alter (set_owner (p_id cur)) x y g1 else g1) ∧
    players g' = (if claimed
                  then alter (add_score (value c)) (current_player_index g) (players g)
                  else players g) ∧
    current_player_index g' =
      (if claimed then current_player_index g
       else (current_player_index g + 1) `mod` length (players g)) ∧
    game_over g' = game_over g ∧ winner g' = winner g ∧
    grid_size g' = grid_size g ∧ num_players g' = num_players g ∧
    game_id g' = game_id g.
Proof.
  intros Hs Hin Hc.
  destruct (put_fence_total _ o _ _ _ Hs Hin) as [g1 Hp].
  pose proof (put_fence_target _ _ _ _ _ _ _ Hin Hc Hp) as Ht.
  unfold move_game. rewrite Hp. simpl.
  rewrite (claim_land_spec _ _ _ _ _ _ _ Ht). simpl.
  rewrite owner_set_fence, value_set_fence.
  destruct (all_fences (set_fence o c) && bool_decide (owner c = None)) eqn:Hcl; simpl.
  - eexists _, _. repeat split; try reflexivity.
  - eexists _, _. repeat split; try reflexivity.
Qed.

Lemma mod_succ_lt i n : i < n → (i + 1) `mod` n < n.
Proof. intros. apply Nat.mod_upper_bound. lia. Qed.

Lemma move_game_ok g cur o x y now c g' cl :
  game_ok g → players g !! current_player_index g = Some cur →
  in_grid (grid_size g) x y → grid_at (grid g) x y = Some c →
  move_game g cur o x y now = Some (g', cl) →
  game_ok g' ∧
  (score_sum (players g') - score_sum (players g) =
   owned_sum (grid g') - owned_sum (grid g))%Z.
Proof.
  intros [Hi Hs Hm Hv Hsc Hsum] Hcur Hin Hc Hmove.
  destruct (move_game_spec g cur o x y now c Hs Hin Hc)
    as (g1 & g2 & Hp & Hmv & Hg & Hps & Hidx & Hgo & Hw & Hsz & Hn & Hid).
  simpl in *. rewrite Hmv in Hmove. injection Hmove as <- <-.
  pose proof (put_fence_target _ _ _ _ _ _ _ Hin Hc Hp) as Ht.
  pose proof (put_fence_owned_sum _ _ _ _ _ _ Hp) as Ho.
  pose proof (put_fence_shape _ _ _ _ _ _ Hs Hp) as Hs1.
  pose proof (put_fence_mirrored _ _ _ _ _ _ Hs Hm Hin Hp) as Hm1.
  assert (Forall (Forall (λ c, (0 ≤ value c)%Z)) g1) as Hv1.
  { eapply put_fence_Forall; [|exact Hv|exact Hp].
    intros o' c' ?. by rewrite value_set_fence. }
  assert (0 ≤ value c)%Z as Hvc by (eapply (grid_Forall_at _ _ _ _ _ Hv Hc)).
  destruct (all_fences (set_fence o c) && bool_decide (owner c = None)) eqn:Hcl.
  - apply andb_true_iff in Hcl as [_ Hown%bool_decide_eq_true].
    assert (score_sum (players g2) - score_sum (players g) = value c)%Z as Hd1.
    { rewrite Hps. unfold score_sum. rewrite total_alter, Hcur. simpl. lia. }
    assert (owned_sum (grid g2) - owned_sum (grid g) = value c)%Z as Hd2.
    { rewrite Hg, owned_sum_alter, Ht, Ho. unfold owned_value. simpl.
      rewrite owner_set_fence, Hown, value_set_fence. lia. }
    split; [|lia]. split.
    + rewrite Hidx, Hps, length_alter. done.
    + rewrite Hsz, Hg. by apply grid_shape_alter.
    + rewrite Hg. unfold in_grid in Hin. apply mirrored_set_owner; [lia|lia|done].
    + rewrite Hg. apply grid_Forall_alter; [|done]. by intros [].
    + rewrite Hps. apply Forall_alter; [done|].
      intros p _ Hp0. simpl. lia.
    + lia.
  - split; [|rewrite Hps, Hg, Ho; lia]. split.
    + rewrite Hidx, Hps. by apply mod_succ_lt.
    + by rewrite Hsz, Hg.
    + by rewrite Hg.
    + by rewrite Hg.
    + by rewrite Hps.
    + rewrite Hps, Hg, Ho. done.
Qed.

(** ** The end of a game *)

Lemma foldl_max_spec (ps : list player) (a : Z) :
  let m := foldl (λ m q, Z.max m (p_score q)) a ps in
  (a ≤ m)%Z ∧ (∀ i q, ps !! i = Some q → (p_score q ≤ m)%Z) ∧
  (m = a ∨ ∃ i q, ps !! i = Some q ∧ p_score q = m).
Proof.
  revert a. induction ps as [|p ps IH]; intros a; simpl.
  - split; [lia|]. split; [by intros ??|by left].
  - destruct (IH (Z.max a (p_score p))) as (H1 & H2 & H3).
    split; [lia|]. split.
    + intros [|i] q Hq; simplify_eq/=; [lia|]. by eapply H2.
    + destruct H3 as [H3|(i & q & Hq & Hm)].
      * destruct (Z.max_spec a (p_score p)) as [[? Hmax]|[? Hmax]].
        -- right. exists 0, p. split; [done|]. lia.
        -- left. lia.
      * right. by exists (S i), q.
Qed.

Lemma max_score_spec ps m :
  max_score ps = Some m →
  (∀ i q, ps !! i = Some q → (p_score q ≤ m)%Z) ∧
  (∃ i q, ps !! i = Some q ∧ p_score q = m).
Proof.
  destruct ps as [|p ps]; [done|]. simpl. intros [= <-].
  destruct (foldl_max_spec ps (p_score p)) as (H1 & H2 & H3). simpl in *. split.
  - intros [|i] q Hq; simplify_eq/=; [lia|]. by eapply H2.
  - destruct H3 as [H3|(i & q & Hq & Hm)].
    + by exists 0, p.
    + by exists (S i), q.
Qed.

Lemma max_score_is_Some ps : ps ≠ [] → is_Some (max_score ps).
Proof. by destruct ps. Qed.

Lemma filter_none {A} (P : A → Prop) `{!∀ a, Decision (P a)} (l : list A) :
  (∀ j b, l !! j = Some b → ¬ P b) → filter P l = [].
Proof.
  induction l as [|b l IH]; intros Hn; [done|].
  rewrite filter_cons_False by (by apply (Hn 0 b)).
  apply IH. intros j c Hc. by apply (Hn (S j) c).
Qed.

Lemma filter_unique {A} (P : A → Prop) `{!∀ a, Decision (P a)} (l : list A) i a :
  l !! i = Some a → P a → (∀ j b, l !! j = Some b → j ≠ i → ¬ P b) →
  filter P l = [a].
Proof.
  revert i. induction l as [|b l IH]; intros [|i] Hi Ha Hothers; simplify_eq/=.
  - rewrite filter_cons_True by done. f_equal.
    apply filter_none. intros j b Hb.
    apply (Hothers (S j) b); [done|lia].
  - rewrite filter_cons_False by (apply (Hothers 0 b); [done|lia]).
    apply (IH i); [done..|]. intros j c Hc Hj. apply (Hothers (S j) c); [done|lia].
Qed.

Lemma filter_two {A} (P : A → Prop) `{!∀ a, Decision (P a)} (l : list A) i j a b :
  i < j → l !! i = Some a → l !! j = Some b → P a → P b →
  2 ≤ length (filter P l).
Proof.
  revert i j. induction l as [|c l IH]; intros i j Hij Hi Hj Ha Hb; [done|].
  destruct i as [|i]; simplify_eq/=.
  - destruct j as [|j]; [lia|]. simpl in Hj.
    rewrite filter_cons_True by done. simpl.
    assert (b ∈ filter P l) as Hin.
    { apply list_elem_of_filter. split; [done|]. by eapply list_elem_of_lookup_2. }
    destruct (filter P l); [by apply elem_of_nil in Hin|simpl; lia].
  - destruct j as [|j]; [lia|]. simpl in Hj.
    assert (2 ≤ length (filter P l)) by (apply (IH i j); [lia|done..]).
    destruct (decide (P c)); [rewrite filter_cons_True by done; simpl; lia|].
    by rewrite filter_cons_False.
Qed.

Lemma end_game_spec g d g' d' :
  end_game g d = Some (g', d') →
  ∃ w, g' = with_result (Some w) g ∧
    (∀ i p, players g !! i = Some p →
       (∀ j q, players g !! j = Some q → j ≠ i → (p_score q < p_score p)%Z) →
       w = p_id p) ∧
    (∀ i j p q, i ≠ j → players g !! i = Some p → players g !! j = Some q →
       p_score p = p_score q →
       (∀ k r, players g !! k = Some r → (p_score r ≤ p_score p)%Z) →
       w = "draw").
Proof.
  unfold end_game. destruct (max_score (players g)) as [m|] eqn:Hmax; [|done].
  simpl. destruct (max_score_spec _ _ Hmax) as (Hub & i0 & q0 & Hq0 & Hm0).
  intros Hend.
  assert (∃ w, g' = with_result (Some w) g ∧
               (∀ a, winners m (players g) = [a] → w = a) ∧
               (2 ≤ length (winners m (players g)) → w = "draw")) as (w & -> & Hone & Htwo).
  { destruct (winners m (players g)) as [|a [|b l]]; simplify_eq/=.
    - exists "draw". split; [done|]. split; [done|]. done.
    - exists a. split; [done|]. split; [by intros ? [= ->]|]. lia.
    - exists "draw". split; [done|]. split; [done|]. done. }
  exists w. split; [done|]. split.
  - intros i p Hp Hstrict. apply Hone.
    assert (p_score p = m) as Hpm.
    { destruct (decide (i0 = i)) as [->|Hne]; [by simplify_eq|].
      pose proof (Hstrict i0 q0 Hq0 Hne). pose proof (Hub i p Hp). lia. }
    unfold winners. erewrite (filter_unique _ _ i p); [done|done|done|].
    intros j b Hb Hj. pose proof (Hstrict j b Hb Hj). lia.
  - intros i j p q Hij Hp Hq Heq Hmaxp. apply Htwo.
    assert (p_score p = m) as Hpm.
    { pose proof (Hmaxp i0 q0 Hq0). pose proof (Hub i p Hp). lia. }
    unfold winners. rewrite length_fmap.
    destruct (decide (i < j)).
    + eapply (filter_two _ _ i j p q); [done..|lia].
    + eapply (filter_two _ _ j i q p); [lia|done..|lia|done].
Qed.

Lemma end_game_total g d : players g ≠ [] → is_Some (end_game g d).
Proof.
  intros [m Hm]%max_score_is_Some. unfold end_game. rewrite Hm. simpl.
  by repeat case_match.
Qed.

(** ** Inversion of the handlers *)

Lemma find_game_Some k s gid g :
  find_game k s = Some (gid, g) ↔ k = Some gid ∧ gid ≠ "" ∧ sv_games s !! gid = Some g.
Proof.
  unfold find_game. destruct k as [k|]; [|naive_solver].
  destruct (String.eqb_spec k "") as [->|Hne].
  - naive_solver.
  - destruct (sv_games s !! k) as [g0|] eqn:Hg; simpl; naive_solver.
Qed.

Lemma place_fence_returned msg pid now s r s' :
  place_fence msg pid now s = Returned r s' →
  sv_lock s = false ∧
  ((status r = "error" ∧ s' = s) ∨
   ∃ gid g cur x y o c g3 claimed gf,
     find_game (pm_game_id msg) s = Some (gid, g) ∧
     players g !! current_player_index g = Some cur ∧ p_id cur = pid ∧
     game_over g = false ∧
     pm_x msg = Some x ∧ pm_y msg = Some y ∧ in_grid (grid_size g) x y ∧
     parse_orientation (pm_orientation msg) = Some o ∧
     grid_at (grid g) x y = Some c ∧ fence o c = false ∧
     move_game g cur o x y now = Some (g3, claimed) ∧
     (if check_game_over g3
      then end_game g3 (sv_players s) = Some (gf, sv_players s')
      else gf = g3 ∧ sv_players s' = sv_players s) ∧
     r = success "Fence placed successfully" None (Some gf) (Some claimed) ∧
     sv_games s' = <[gid := gf]> (sv_games s) ∧ sv_lock s' = false).
Proof.
  intros (Hl & s1 & Hbody & ->)%with_lock_returned. split; [done|].
  pose proof (set_lock_restore s Hl) as Hrestore.
  destruct (find_game (pm_game_id msg) (set_lock true s)) as [[gid g]|] eqn:Hfind;
    [|simplify_eq; by left].
  destruct (players g !! current_player_index g) as [cur|] eqn:Hcur; [|done].
  destruct (String.eqb_spec (p_id cur) pid) as [Hid|Hid]; simpl in Hbody;
    [|simplify_eq; by left].
  destruct (game_over g) eqn:Hover; [simplify_eq; by left|].
  destruct (pm_x msg) as [x|] eqn:Hx; [|simplify_eq; by left].
  destruct (pm_y msg) as [y|] eqn:Hy; [|simplify_eq; by left].
  destruct ((x <? 0)%Z || (x >=? grid_size g)%Z || (y <? 0)%Z || (y >=? grid_size g)%Z)
    eqn:Hb; [simplify_eq; by left|].
  destruct (parse_orientation (pm_orientation msg)) as [o|] eqn:Ho; [|simplify_eq; by left].
  destruct (grid_at (grid g) x y) as [c|] eqn:Hc; [|done].
  destruct (fence o c) eqn:Hf; [simplify_eq; by left|].
  right. unfold apply_fence in Hbody.
  destruct (move_game g cur o x y now) as [[g3 claimed]|] eqn:Hmv; [|done].
  exists gid, g, cur, x, y, o, c, g3, claimed.
  assert (in_grid (grid_size g) x y) as Hin by (unfold in_grid; lia).
  destruct (check_game_over g3) eqn:Hcg.
  - destruct (end_game g3 (sv_players (set_lock true s))) as [[g4 d]|] eqn:He; [|done].
    injection Hbody as <- <-. exists g4. done.
  - injection Hbody as <- <-. exists g3. done.
Qed.

(** ** A fresh grid *)

Lemma init_grid_at draw size x y :
  (0 ≤ x)%Z → (0 ≤ y)%Z →
  grid_at (initialize_grid draw size) x y =
    if decide (in_grid size x y)
    then Some (new_cell (draw (Z.to_nat x) (Z.to_nat y))) else None.
Proof.
  intros Hx Hy. unfold grid_at, initialize_grid, in_grid.
  rewrite list_lookup_fmap.
  destruct (decide (Z.to_nat y < Z.to_nat size)) as [Hlt|Hge].
  - rewrite lookup_seq_lt by done. simpl. rewrite list_lookup_fmap.
    destruct (decide (Z.to_nat x < Z.to_nat size)) as [Hlt'|Hge'].
    + rewrite lookup_seq_lt by done. simpl. by rewrite decide_True by lia.
    + rewrite lookup_seq_ge by lia. simpl. by rewrite decide_False by lia.
  - rewrite lookup_seq_ge by lia. simpl. by rewrite decide_False by lia.
Qed.

Lemma init_grid_Forall (P : cell → Prop) draw size :
  (∀ t, P (new_cell t)) → Forall (Forall P) (initialize_grid draw size).
Proof.
  intros HP. unfold initialize_grid.
  apply Forall_fmap, Forall_forall. intros y _. simpl.
  apply Forall_fmap, Forall_forall. intros x _. apply HP.
Qed.

Lemma init_grid_owned_sum draw size : owned_sum (initialize_grid draw size) = 0%Z.
Proof.
  unfold owned_sum. apply total_zero.
  pose proof (init_grid_Forall (λ c, owned_value c = 0%Z) draw size (λ _, eq_refl)) as HF.
  eapply Forall_impl; [exact HF|]. intros row Hrow. by apply total_zero.
Qed.

Lemma new_game_ok pid name fresh draw size n now :
  game_ok {| game_id := fresh; grid_size := size; num_players := n;
             players := [new_player pid name]; current_player_index := 0;
             grid := initialize_grid draw size; game_over := false; winner := None;
             created_at := now; last_activity := now; turn_start_time := now;
             turn_time_limit := 60 |}.
Proof.
  split; simpl.
  - lia.
  - intros x y Hx Hy. rewrite init_grid_at by done. case_decide; [|split; [by intros []|done]].
    split; [done|]. by eexists.
  - intros x y c c' Hx Hy. rewrite !init_grid_at by lia.
    repeat case_decide; split; intros; simplify_eq/=; done.
  - apply init_grid_Forall. by intros [].
  - by repeat constructor.
  - rewrite init_grid_owned_sum. unfold score_sum. simpl. lia.
Qed.

(** ** The handlers keep the invariant *)

Lemma server_ok_insert s gid g d r :
  server_ok s → game_ok g →
  server_ok {| sv_games := <[gid := g]> (sv_games s); sv_players := d;
               sv_recordings := r; sv_lock := false |}.
Proof.
  intros [Hl Hg] Hok. split; [done|]. simpl. intros k g0.
  rewrite lookup_insert. case_decide; [by intros [= <-]|]. apply Hg.
Qed.

Lemma create_game_returned msg pid fresh draw now s r s' :
  create_game msg pid fresh draw now s = Returned r s' →
  sv_lock s = false ∧
  ((status r = "error" ∧ s' = s) ∨
   ∃ g, g = {| game_id := fresh; grid_size := default 5%Z (cm_grid_size msg);
               num_players := default 2%Z (cm_num_players msg);
               players := [new_player pid (default (default_name pid) (cm_player_name msg))];
               current_player_index := 0;
               grid := initialize_grid draw (default 5%Z (cm_grid_size msg));
               game_over := false; winner := None;
               created_at := now; last_activity := now; turn_start_time := now;
               turn_time_limit := 60 |} ∧
     (2 ≤ grid_size g ≤ 10)%Z ∧ (2 ≤ num_players g ≤ 4)%Z ∧
     r = success "Game created successfully" (Some fresh) (Some g) None ∧
     sv_games s' = <[fresh := g]> (sv_games s) ∧
     sv_players s' =
       init_stats pid (default (default_name pid) (cm_player_name msg)) (sv_players s) ∧
     sv_lock s' = false).
Proof.
  intros (Hl & s1 & Hbody & ->)%with_lock_returned. split; [done|].
  pose proof (set_lock_restore s Hl) as Hrestore. cbv beta zeta in Hbody.
  destruct ((default 5 (cm_grid_size msg) <? 2)%Z || (default 5 (cm_grid_size msg) >? 10)%Z)
    eqn:Hsz; [simplify_eq; by left|].
  destruct ((default 2 (cm_num_players msg) <? 2)%Z || (default 2 (cm_num_players msg) >? 4)%Z)
    eqn:Hn; [simplify_eq; by left|].
  right. injection Hbody as <- <-. eexists. split; [reflexivity|]. simpl.
  repeat split; lia.
Qed.

Lemma join_game_returned msg pid now s r s' :
  join_game msg pid now s = Returned r s' →
  sv_lock s = false ∧
  ((status r = "error" ∧ s' = s) ∨
   ∃ gid g g',
     find_game (jm_game_id msg) s = Some (gid, g) ∧
     (Z.of_nat (length (players g)) < num_players g)%Z ∧
     (∀ p, p ∈ players g → p_id p ≠ pid) ∧
     g' = with_last_activity now
            (with_players
               (players g ++ [new_player pid (default (default_name pid) (jm_player_name msg))])
               g) ∧
     r = success "Game joined successfully" (Some gid) (Some g') None ∧
     sv_games s' = <[gid := g']> (sv_games s) ∧
     sv_players s' =
       init_stats pid (default (default_name pid) (jm_player_name msg)) (sv_players s) ∧
     sv_lock s' = false).
Proof.
  intros (Hl & s1 & Hbody & ->)%with_lock_returned. split; [done|].
  pose proof (set_lock_restore s Hl) as Hrestore. cbv beta zeta in Hbody.
  destruct (find_game (jm_game_id msg) (set_lock true s)) as [[gid g]|] eqn:Hfind;
    [|simplify_eq; by left].
  destruct (Z.of_nat (length (players g)) >=? num_players g)%Z eqn:Hfull;
    [simplify_eq; by left|].
  destruct (existsb (λ p, String.eqb (p_id p) pid) (players g)) eqn:Hex;
    [simplify_eq; by left|].
  right. injection Hbody as <- <-. exists gid, g. eexists.
  split; [done|]. split; [lia|]. split; [|done].
  intros p Hp Heq. apply not_true_iff_false in Hex. apply Hex.
  apply existsb_exists. exists p. split; [by apply list_elem_of_In|].
  by apply String.eqb_eq.
Qed.

Lemma find_player_index_Some pid ps i :
  find_player_index pid ps = Some i →
  ∃ p, ps !! i = Some p ∧ p_id p = pid ∧ ∀ j q, ps !! j = Some q → j < i → p_id q ≠ pid.
Proof.
  unfold find_player_index. destruct (list_find _ ps) as [[j p]|] eqn:Hf; [|done].
  simpl. intros [= <-]. apply list_find_Some in Hf as (Hp & Hid & Hbefore).
  exists p. split; [done|]. split; [done|]. intros k q Hq Hk. by eapply Hbefore.
Qed.

Lemma find_player_index_None pid ps :
  find_player_index pid ps = None → ∀ p, p ∈ ps → p_id p ≠ pid.
Proof.
  unfold find_player_index. destruct (list_find _ ps) as [[j p]|] eqn:Hf; [done|].
  intros _. apply list_find_None in Hf. intros p Hp. by eapply Forall_forall in Hf.
Qed.

(** The game a leave leaves behind when at least two players were seated. *)
Lemma handle_player_disconnect_returned pid gid s r s' :
  handle_player_disconnect pid gid s = Returned r s' →
  sv_lock s = false ∧
  ((status r = "error" ∧ s' = s) ∨
   (∃ g i, sv_games s !! gid = Some g ∧ find_player_index pid (players g) = Some i ∧
      length (players g) ≤ 1 ∧ r = success "Game removed" None None None ∧
      s' = with_games (delete gid (sv_games s)) s) ∨
   (∃ g i g', sv_games s !! gid = Some g ∧ find_player_index pid (players g) = Some i ∧
      2 ≤ length (players g) ∧
      players g' = delete i (players g) ∧ grid g' = grid g ∧
      grid_size g' = grid_size g ∧ num_players g' = num_players g ∧
      current_player_index g' =
        (if (length (delete i (players g)) <=? current_player_index g)%nat
         then 0 else current_player_index g) ∧
      (game_over g' = true ∨ game_over g' = game_over g ∧ winner g' = winner g) ∧
      r = success "Player left game" None (Some g') None ∧
      sv_games s' = <[gid := g']> (sv_games s) ∧
      sv_players s' =
        alter bump_losses pid (record_leave_wins pid (players g) (sv_players s)) ∧
      sv_recordings s' = sv_recordings s ∧ sv_lock s' = false)).
Proof.
  intros (Hl & s1 & Hbody & ->)%with_lock_returned. split; [done|].
  pose proof (set_lock_restore s Hl) as Hrestore. cbv beta zeta in Hbody.
  change (sv_games (set_lock true s)) with (sv_games s) in Hbody.
  destruct (sv_games s !! gid) as [g|] eqn:Hg; [|simplify_eq; by left].
  destruct (find_player_index pid (players g)) as [i|] eqn:Hi; [|simplify_eq; by left].
  destruct (length (players g) <=? 1)%nat eqn:Hlen.
  - right; left. injection Hbody as <- <-. exists g, i.
    apply Nat.leb_le in Hlen. repeat split; try done.
    unfold with_games. simpl. by destruct s; simplify_eq/=.
  - right; right. apply Nat.leb_gt in Hlen. injection Hbody as <- <-.
    exists g, i.
    exists (let ps := delete i (players g) in
            let game1 := with_players ps g in
            let game2 := if (length ps <=? current_player_index game1)%nat
                         then with_index 0 game1 else game1 in
            match ps with
            | [last] => with_result (Some (p_id last)) game2
            | _ => game2
            end).
    split; [done|]. split; [done|]. split; [lia|].
    cbv zeta. simpl. destruct (delete i (players g)) as [|a [|b l]] eqn:Hd; simpl;
      repeat case_match; simpl; repeat split; auto.
Qed.

Lemma timeout_game_spec now g g' :
  timeout_game now g = Some g' →
  players g' = players g ∧ grid g' = grid g ∧ grid_size g' = grid_size g ∧
  num_players g' = num_players g ∧ game_over g' = game_over g ∧ winner g' = winner g ∧
  (current_player_index g' = current_player_index g ∨
   game_over g = false ∧ (now - turn_start_time g > 60)%Z ∧
   current_player_index g' = (current_player_index g + 1) `mod` length (players g)).
Proof.
  unfold timeout_game. destruct (game_over g) eqn:Hgo; [intros [= <-]; naive_solver|].
  destruct (now - turn_start_time g >? 60)%Z eqn:Ht; [|intros [= <-]; naive_solver].
  destruct (players g !! current_player_index g); [|done].
  intros [= <-]. simpl. repeat split; try done. right. repeat split; try done. lia.
Qed.

Lemma timeout_game_total now g :
  current_player_index g < length (players g) → is_Some (timeout_game now g).
Proof.
  intros [p Hp]%lookup_lt_is_Some_2. unfold timeout_game. rewrite Hp.
  by repeat case_match.
Qed.

Lemma check_inactivity_returned now s u s' :
  check_inactivity now s = Returned u s' →
  sv_lock s = false ∧ sv_lock s' = false ∧
  sv_players s' = sv_players s ∧ sv_recordings s' = sv_recordings s ∧
  (∀ gid g, sv_games s !! gid = Some g → is_Some (timeout_game now g)) ∧
  ∀ gid, sv_games s' !! gid = sv_games s !! gid ≫= timeout_game now.
Proof.
  intros (Hl & s1 & Hbody & ->)%with_lock_returned. split; [done|].
  case_decide as Hall; [|done]. injection Hbody as <- <-. simpl.
  repeat split; try done. intros gid. apply lookup_omap.
Qed.

Lemma game_ok_same g g' :
  players g' = players g → grid g' = grid g → grid_size g' = grid_size g →
  current_player_index g' < length (players g') →
  game_ok g → game_ok g'.
Proof.
  intros Hp Hg Hs Hi [? ? ? ? ? ?]. split; rewrite ?Hp, ?Hg, ?Hs; try done.
  by rewrite <-Hp.
Qed.

Lemma place_fence_ok msg pid now s r s' :
  server_ok s → place_fence msg pid now s = Returned r s' →
  server_ok s' ∧ (conserved s → conserved s').
Proof.
  intros Hok (Hl & [[_ ->]|H])%place_fence_returned; [done|].
  destruct H as (gid & g & cur & x & y & o & c & g3 & claimed & gf & Hfind & Hcur & Hid
                 & Hgo & Hx & Hy & Hin & Ho & Hc & Hf & Hmv & Hend & -> & Hgames & Hl').
  apply find_game_Some in Hfind as (Hk & Hne & Hg).
  pose proof (ok_games _ Hok gid g Hg) as Hgok.
  destruct (move_game_ok _ _ _ _ _ _ _ _ _ Hgok Hcur Hin Hc Hmv) as [Hok3 Hdiff].
  assert (players gf = players g3 ∧ grid gf = grid g3 ∧ grid_size gf = grid_size g3
          ∧ current_player_index gf = current_player_index g3) as (Hp & Hgr & Hsz & Hidx).
  { destruct (check_game_over g3).
    - apply end_game_spec in Hend as (w & -> & _). done.
    - by destruct Hend as [-> _]. }
  assert (game_ok gf) as Hokf.
  { apply (game_ok_same g3); try done. rewrite Hidx, Hp. apply Hok3. }
  split.
  - split; [done|]. intros k g0. rewrite Hgames, lookup_insert.
    case_decide; [by intros [= <-]|]. apply Hok.
  - intros Hcons k g0. rewrite Hgames, lookup_insert.
    case_decide; [|apply Hcons]. intros [= <-]. rewrite Hp, Hgr.
    pose proof (Hcons gid g Hg). lia.
Qed.

Lemma create_game_ok msg pid fresh draw now s r s' :
  server_ok s → create_game msg pid fresh draw now s = Returned r s' →
  server_ok s' ∧ (conserved s → conserved s').
Proof.
  intros Hok (Hl & [[_ ->]|H])%create_game_returned; [done|].
  destruct H as (g & -> & Hsz & Hn & -> & Hgames & Hd & Hl').
  split.
  - split; [done|]. intros k g0. rewrite Hgames, lookup_insert.
    case_decide; [|apply Hok]. intros [= <-]. apply new_game_ok.
  - intros Hcons k g0. rewrite Hgames, lookup_insert.
    case_decide; [|apply Hcons]. intros [= <-]. simpl.
    by rewrite init_grid_owned_sum.
Qed.

Lemma join_game_ok msg pid now s r s' :
  server_ok s → join_game msg pid now s = Returned r s' →
  server_ok s' ∧ (conserved s → conserved s').
Proof.
  intros Hok (Hl & [[_ ->]|H])%join_game_returned; [done|].
  destruct H as (gid & g & g' & Hfind & Hroom & Hnew & -> & -> & Hgames & Hd & Hl').
  apply find_game_Some in Hfind as (Hk & Hne & Hg).
  pose proof (ok_games _ Hok gid g Hg) as [Hi Hs Hm Hv Hsc Hsum].
  split.
  - split; [done|]. intros k g0. rewrite Hgames, lookup_insert.
    case_decide; [|apply Hok]. intros [= <-]. split; simpl; try done.
    + rewrite length_app. simpl. lia.
    + apply Forall_app. split; [done|]. by repeat constructor.
    + unfold score_sum in *. rewrite total_app. simpl. lia.
  - intros Hcons k g0. rewrite Hgames, lookup_insert.
    case_decide; [|apply Hcons]. intros [= <-]. simpl.
    pose proof (Hcons gid g Hg) as Hc. unfold score_sum in *.
    rewrite total_app. simpl. lia.
Qed.

Lemma disconnect_ok pid gid s r s' :
  server_ok s → handle_player_disconnect pid gid s = Returned r s' →
  server_ok s'.
Proof.
  intros Hok (Hl & [[_ ->]|[H|H]])%handle_player_disconnect_returned; [done|..].
  - destruct H as (g & i & Hg & Hi & Hlen & -> & ->). split; [apply Hok|].
    simpl. intros k g0 [_ Hk]%lookup_delete_Some. by eapply ok_games.
  - destruct H as (g & i & g' & Hg & Hi & Hlen & Hp & Hgr & Hsz & Hn & Hidx & _ & ->
                   & Hgames & Hd & Hr & Hl').
    pose proof (ok_games _ Hok gid g Hg) as [Hi0 Hs Hm Hv Hsc Hsum].
    apply find_player_index_Some in Hi as (p & Hpi & _).
    pose proof (lookup_lt_Some _ _ _ Hpi) as Hilt.
    assert (length (delete i (players g)) = length (players g) - 1) as Hdl.
    { rewrite length_delete by eauto. done. }
    split; [done|]. intros k g0. rewrite Hgames, lookup_insert.
    case_decide; [|apply Hok]. intros [= <-]. split; rewrite ?Hp, ?Hgr, ?Hsz; try done.
    + rewrite Hidx. case_match; [lia|]. apply Nat.leb_gt in H0. lia.
    + by apply Forall_delete.
    + unfold score_sum in *. rewrite total_delete, Hpi.
      pose proof (Forall_lookup_1 _ _ _ _ Hsc Hpi) as Hpos. simpl in Hpos. lia.
Qed.

Lemma check_inactivity_ok now s u s' :
  server_ok s → check_inactivity now s = Returned u s' →
  server_ok s' ∧ (conserved s → conserved s').
Proof.
  intros Hok (Hl & Hl' & Hd & Hr & _ & Hgames)%check_inactivity_returned.
  assert (∀ k g', sv_games s' !! k = Some g' →
            ∃ g, sv_games s !! k = Some g ∧ timeout_game now g = Some g') as Hinv.
  { intros k g'. rewrite Hgames. destruct (sv_games s !! k) as [g|]; [|done]. eauto. }
  split.
  - split; [done|]. intros k g' (g & Hg & Ht)%Hinv.
    pose proof (ok_games _ Hok k g Hg) as Hgok.
    destruct (timeout_game_spec _ _ _ Ht) as (Hp & Hgr & Hsz & _ & _ & _ & Hidx).
    apply (game_ok_same g); try done. rewrite Hp.
    destruct Hidx as [->|(_ & _ & ->)]; [apply Hgok|]. apply mod_succ_lt, Hgok.
  - intros Hcons k g' (g & Hg & Ht)%Hinv.
    destruct (timeout_game_spec _ _ _ Ht) as (Hp & Hgr & _). rewrite Hp, Hgr.
    by eapply Hcons.
Qed.

(** ** [leave_game] and the lock *)

Lemma leave_game_blocked msg pid s gid g :
  sv_lock s = false → find_game (lm_game_id msg) s = Some (gid, g) →
  leave_game msg pid s = Blocked.
Proof.
  intros Hl Hfind. unfold leave_game, with_lock at 1. rewrite Hl.
  change (find_game (lm_game_id msg) (set_lock true s))
    with (find_game (lm_game_id msg) s).
  rewrite Hfind. reflexivity.
Qed.

Lemma leave_game_returned msg pid s r s' :
  leave_game msg pid s = Returned r s' →
  find_game (lm_game_id msg) s = None ∧ r = error "Invalid game ID" ∧ s' = s.
Proof.
  intros (Hl & s1 & Hbody & ->)%with_lock_returned.
  change (find_game (lm_game_id msg) (set_lock true s))
    with (find_game (lm_game_id msg) s) in Hbody.
  destruct (find_game (lm_game_id msg) s) as [[gid g]|] eqn:Hfind.
  - discriminate Hbody.
  - injection Hbody as <- <-. by rewrite set_lock_restore.
Qed.

(** ** Invariants along a run *)

Lemma step_ok o s u s' :
  server_ok s → step o s = Returned u s' →
  server_ok s' ∧ (is_departure o = false → conserved s → conserved s').
Proof.
  intros Hok. destruct o as [pid msg fresh draw now|pid msg now|pid msg now|pid msg|pid gid|now];
    simpl.
  - destruct (create_game _ _ _ _ _ s) as [r s1| |] eqn:E; [|done..]. intros ?; simplify_eq.
    destruct (create_game_ok _ _ _ _ _ _ _ _ Hok E). split; eauto.
  - destruct (join_game _ _ _ s) as [r s1| |] eqn:E; [|done..]. intros ?; simplify_eq.
    destruct (join_game_ok _ _ _ _ _ _ Hok E). split; eauto.
  - destruct (place_fence _ _ _ s) as [r s1| |] eqn:E; [|done..]. intros ?; simplify_eq.
    destruct (place_fence_ok _ _ _ _ _ _ Hok E). split; eauto.
  - destruct (leave_game _ _ s) as [r s1| |] eqn:E; [|done..]. intros ?; simplify_eq.
    apply leave_game_returned in E as (_ & _ & ->). split; eauto.
  - destruct (handle_player_disconnect _ _ s) as [r s1| |] eqn:E; [|done..]. intros ?; simplify_eq.
    split; [by eapply disconnect_ok|done].
  - intros E. destruct (check_inactivity_ok _ _ _ _ Hok E). split; eauto.
Qed.

Lemma init_server_ok : server_ok init_server.
Proof. split; [done|]. intros gid g. simpl. by rewrite lookup_empty. Qed.

Lemma run_ok ops s s' :
  server_ok s → run ops s = Some s' →
  server_ok s' ∧ (forallb (λ o, negb (is_departure o)) ops = true → conserved s → conserved s').
Proof.
  revert s. induction ops as [|o ops IH]; intros s Hok; simpl.
  - intros [= <-]. split; eauto.
  - destruct (step o s) as [u s1| |] eqn:E; [|done..]. intros Hrun.
    destruct (step_ok _ _ _ _ Hok E) as [Hok1 Hc1].
    destruct (IH _ Hok1 Hrun) as [Hok' Hc']. split; [done|].
    intros [Ho Hops]%andb_true_iff Hcons. apply Hc'; [done|]. apply Hc1; [|done].
    by apply negb_true_iff.
Qed.

Lemma reachable_ok s : reachable s → server_ok s.
Proof. intros [ops Hrun]. by eapply run_ok, Hrun; apply init_server_ok. Qed.

(** ** The handlers return *)

Lemma create_game_total msg pid fresh draw now s :
  sv_lock s = false → ∃ r s', create_game msg pid fresh draw now s = Returned r s'.
Proof.
  intros Hl. unfold create_game, with_lock. rewrite Hl. cbv beta zeta.
  repeat case_match; eauto.
Qed.

Lemma join_game_total msg pid now s :
  sv_lock s = false → ∃ r s', join_game msg pid now s = Returned r s'.
Proof.
  intros Hl. unfold join_game, with_lock. rewrite Hl. cbv beta zeta.
  repeat case_match; eauto.
Qed.

Lemma handle_player_disconnect_total pid gid s :
  sv_lock s = false → ∃ r s', handle_player_disconnect pid gid s = Returned r s'.
Proof.
  intros Hl. unfold handle_player_disconnect, with_lock. rewrite Hl. cbv beta zeta.
  repeat case_match; eauto.
Qed.

Lemma place_fence_total msg pid now s :
  server_ok s → ∃ r s', place_fence msg pid now s = Returned r s'.
Proof.
  intros [Hl Hg]. unfold place_fence, with_lock. rewrite Hl.
  change (find_game (pm_game_id msg) (set_lock true s))
    with (find_game (pm_game_id msg) s).
  destruct (find_game (pm_game_id msg) s) as [[gid g]|] eqn:Hfind; [|eauto].
  apply find_game_Some in Hfind as (_ & _ & Hgm).
  pose proof (Hg gid g Hgm) as Hgok.
  destruct (lookup_lt_is_Some_2 _ _ (ok_index _ Hgok)) as [cur Hcur]. rewrite Hcur.
  destruct (negb _); [eauto|]. destruct (game_over g); [eauto|].
  destruct (pm_x msg) as [x|]; [|eauto]. destruct (pm_y msg) as [y|]; [|eauto].
  destruct (_ || _)%bool eqn:Hb; [eauto|].
  destruct (parse_orientation _) as [o|]; [|eauto].
  assert (in_grid (grid_size g) x y) as Hin by (unfold in_grid; lia).
  destruct (proj2 (ok_shape _ Hgok x y ltac:(unfold in_grid in Hin; lia)
                     ltac:(unfold in_grid in Hin; lia)) Hin) as [c Hc].
  rewrite Hc. destruct (fence o c); [eauto|].
  unfold apply_fence.
  destruct (move_game_spec g cur o x y now c (ok_shape _ Hgok) Hin Hc)
    as (g1 & g' & _ & Hmv & _ & Hps & _). simpl in Hmv. rewrite Hmv.
  destruct (check_game_over g'); [|eauto].
  destruct (end_game_total g' (sv_players (set_lock true s))) as [[g4 d] He].
  { rewrite Hps. intros Hnil. pose proof (ok_index _ Hgok) as Hi.
    case_match; [|rewrite Hnil in Hi; simpl in Hi; lia].
    apply (f_equal length) in Hnil. rewrite length_alter in Hnil.
    rewrite Hnil in Hi. simpl in Hi. lia. }
  rewrite He. eauto.
Qed.

Lemma check_inactivity_total now s :
  server_ok s → ∃ s', check_inactivity now s = Returned () s'.
Proof.
  intros [Hl Hg]. unfold check_inactivity, with_lock. rewrite Hl.
  rewrite decide_True; [eauto|].
  intros gid g Hgm. apply timeout_game_total, (ok_index _ (Hg gid g Hgm)).
Qed.

(** From a state that satisfies the invariant every handler returns, except
    [leave_game] on a game it finds, which waits on the lock it holds. *)
Lemma step_progress o s :
  server_ok s →
  (∃ u s', step o s = Returned u s') ∨
  (step o s = Blocked ∧
   ∃ pid msg gid g, o = LeaveGame pid msg ∧ find_game (lm_game_id msg) s = Some (gid, g)).
Proof.
  intros Hok. pose proof (ok_lock _ Hok) as Hl.
  destruct o as [pid msg fresh draw now|pid msg now|pid msg now|pid msg|pid gid|now]; simpl.
  - destruct (create_game_total msg pid fresh draw now s Hl) as (r & s' & ->). eauto.
  - destruct (join_game_total msg pid now s Hl) as (r & s' & ->). eauto.
  - destruct (place_fence_total msg pid now s Hok) as (r & s' & ->). eauto.
  - destruct (find_game (lm_game_id msg) s) as [[gid g]|] eqn:Hfind.
    + right. rewrite (leave_game_blocked _ _ _ _ _ Hl Hfind). split; [done|].
      by exists pid, msg, gid, g.
    + left. unfold leave_game, with_lock. rewrite Hl.
      change (find_game (lm_game_id msg) (set_lock true s))
        with (find_game (lm_game_id msg) s). rewrite Hfind. eauto.
  - destruct (handle_player_disconnect_total pid gid s Hl) as (r & s' & ->). eauto.
  - destruct (check_inactivity_total now s Hok) as (s' & ->). eauto.
Qed.

Lemma move_game_inv g cur o x y now c g' cl :
  in_grid (grid_size g) x y → grid_at (grid g) x y = Some c →
  move_game g cur o x y now = Some (g', cl) →
  ∃ g1,
    put_fence (grid_size g) o x y (grid g) = Some g1 ∧
    cl = all_fences (set_fence o c) && bool_decide (owner c = None) ∧
    grid g' = (if cl then grid_alter (set_owner (p_id cur)) x y g1 else g1) ∧
    players g' = (if cl
                  then alter (add_score (value c)) (current_player_index g) (players g)
                  else players g) ∧
    current_player_index g' =
      (if cl then current_player_index g
       else (current_player_index g + 1) `mod` length (players g)) ∧
    game_over g' = game_over g ∧ winner g' = winner g ∧
    grid_size g' = grid_size g ∧ num_players g' = num_players g ∧
    game_id g' = game_id g.
Proof.
  intros Hin Hc. unfold move_game.
  destruct (put_fence (grid_size g) o x y (grid g)) as [g1|] eqn:Hp; [|done]. simpl.
  pose proof (put_fence_target _ _ _ _ _ _ _ Hin Hc Hp) as Ht.
  rewrite (claim_land_spec _ _ _ _ _ _ _ Ht). simpl.
  rewrite owner_set_fence, value_set_fence.
  destruct (all_fences (set_fence o c) && bool_decide (owner c = None)) eqn:Hcl; simpl;
    intros [= <- <-]; exists g1; repeat split; reflexivity.
Qed.

(** C6. Turn rotation: a successful move that claims no cell passes the turn
    to the next seat, modulo the number of seated players; a successful move
    that claims a cell leaves the turn where it is. The move claims exactly
    when the target cell, unowned before, belongs to the mover afterwards. *)
Theorem turn_rotation msg pid now s r s' gid g x y :
  place_fence msg pid now s = Returned r s' →
  status r = "success" →
  pm_game_id msg = Some gid → pm_x msg = Some x → pm_y msg = Some y →
  sv_games s !! gid = Some g →
  ∃ g' claimed,
    sv_games s' !! gid = Some g' ∧ r_land_claimed r = Some claimed ∧
    length (players g') = length (players g) ∧
    (claimed = true ↔
       ∃ c c', grid_at (grid g) x y = Some c ∧ grid_at (grid g') x y = Some c' ∧
               owner c = None ∧ owner c' = Some pid) ∧
    current_player_index g' =
      (if claimed then current_player_index g
       else (current_player_index g + 1) `mod` length (players g)).
Proof.
  intros (Hl & [[Herr _]|H])%place_fence_returned Hst Hgid Hmx Hmy Hg;
    [rewrite Herr in Hst; discriminate|].
  destruct H as (gid0 & g0 & cur & x0 & y0 & o & c & g3 & claimed & gf & Hfind & Hcur & Hid
                 & Hgo & Hx & Hy & Hin & Ho & Hc & Hf & Hmv & Hend & -> & Hgames & Hl').
  apply find_game_Some in Hfind as (Hk & Hne & Hg0). simplify_eq.
  destruct (move_game_inv _ _ _ _ _ _ _ _ _ Hin Hc Hmv)
    as (g1 & Hp & Hcl & Hgr & Hps & Hidx & _).
  assert (players gf = players g3 ∧ grid gf = grid g3
          ∧ current_player_index gf = current_player_index g3) as (Hp' & Hgr' & Hidx').
  { destruct (check_game_over g3).
    - apply end_game_spec in Hend as (w & -> & _). done.
    - by destruct Hend as [-> _]. }
  pose proof (put_fence_target _ _ _ _ _ _ _ Hin Hc Hp) as Ht.
  exists gf, claimed. split; [by rewrite Hgames, lookup_insert_eq|]. split; [done|].
  rewrite Hp', Hgr', Hidx', Hps, Hgr, Hidx. unfold in_grid in Hin.
  destruct claimed.
  - split; [by rewrite length_alter|]. split; [|done]. split; [|done]. intros _.
    symmetry in Hcl. apply andb_true_iff in Hcl as [_ Hown%bool_decide_eq_true].
    exists c, (set_owner (p_id cur) (set_fence o c)).
    rewrite grid_at_alter, decide_True, Ht by (done || lia). done.
  - split; [done|]. split; [|done]. split; [done|].
    intros (c0 & c' & Hc0 & Hc' & Hown & Hown'). simplify_eq.
    rewrite owner_set_fence in Hown'. congruence.
Qed.

Lemma check_game_over_grid g g' : grid g' = grid g → check_game_over g' = check_game_over g.
Proof. unfold check_game_over. by intros ->. Qed.

(** C7. End-game resolution: when the game-over predicate holds of the game
    a successful move leaves behind, the game is over, its winner is the one
    player holding the maximum score when there is exactly one, and the
    sentinel "draw" when two or more players hold it. *)
Theorem end_game_resolution msg pid now s r s' gid g' :
  place_fence msg pid now s = Returned r s' →
  status r = "success" →
  pm_game_id msg = Some gid →
  sv_games s' !! gid = Some g' →
  check_game_over g' = true →
  game_over g' = true ∧
  (∀ i p, players g' !! i = Some p →
     (∀ j q, players g' !! j = Some q → j ≠ i → (p_score q < p_score p)%Z) →
     winner g' = Some (p_id p)) ∧
  (∀ i j p q, i ≠ j → players g' !! i = Some p → players g' !! j = Some q →
     p_score p = p_score q →
     (∀ k t, players g' !! k = Some t → (p_score t ≤ p_score p)%Z) →
     winner g' = Some "draw").
Proof.
  intros (Hl & [[Herr _]|H])%place_fence_returned Hst Hgid Hg' Hfull;
    [rewrite Herr in Hst; discriminate|].
  destruct H as (gid0 & g0 & cur & x0 & y0 & o & c & g3 & claimed & gf & Hfind & Hcur & Hid
                 & Hgo & Hx & Hy & Hin & Ho & Hc & Hf & Hmv & Hend & -> & Hgames & Hl').
  apply find_game_Some in Hfind as (Hk & Hne & Hg0). simplify_eq.
  rewrite Hgames, lookup_insert_eq in Hg'. simplify_eq.
  destruct (check_game_over g3) eqn:Hcg.
  - apply end_game_spec in Hend as (w & -> & Hone & Htwo). simpl.
    split; [done|]. split.
    + intros i p Hp Hstrict. f_equal. by eapply Hone.
    + intros i j p q Hij Hp Hq Heq Hmax. f_equal. by eapply Htwo.
  - destruct Hend as [-> _]. congruence.
Qed.

(** C8. Out-of-turn atomicity: a move submitted for an existing game by a
    player who is not the current turn holder is answered "Not your turn",
    and the server state after the call is the state before it. *)
Theorem out_of_turn_unchanged msg pid now s gid g cur :
  sv_lock s = false →
  pm_game_id msg = Some gid → gid ≠ "" → sv_games s !! gid = Some g →
  players g !! current_player_index g = Some cur → p_id cur ≠ pid →
  place_fence msg pid now s = Returned (error "Not your turn") s.
Proof.
  intros Hl Hgid Hne Hg Hcur Hid. unfold place_fence, with_lock. rewrite Hl.
  assert (find_game (pm_game_id msg) (set_lock true s) = Some (gid, g)) as ->.
  { by apply find_game_Some. }
  rewrite Hcur. destruct (String.eqb_spec (p_id cur) pid) as [?|_]; [done|]. simpl.
  by rewrite set_lock_restore.
Qed.

(** C10. In every state the server reaches, every stored game has a seated
    player and its [current_player_index] is below the number of seated
    players, so [players[current_player_index]] can always be read. *)
Theorem current_player_index_in_range s gid g :
  reachable s → sv_games s !! gid = Some g →
  current_player_index g < length (players g).
Proof. intros Hok%reachable_ok Hg. apply (ok_index _ (ok_games _ Hok gid g Hg)). Qed.

(** C1. The enclosure invariant fails on the code. In the sample game the
    fence "B" puts east of (0,0) completes the neighbouring cell (1,0), which
    [place_fence] does not examine: the cell keeps its four fences and no
    owner, and the game still ends with [check_game_over] true. *)
Theorem enclosed_cell_left_unowned :
  (∃ s c, run (take 6 enclosure_trace) init_server = Some s ∧
          grid_at (grid (game_g s)) 1 0 = Some c ∧
          all_fences c = true ∧ owner c = None) ∧
  (∃ s c, run enclosure_trace init_server = Some s ∧
          check_game_over (game_g s) = true ∧ game_over (game_g s) = true ∧
          grid_at (grid (game_g s)) 1 0 = Some c ∧
          all_fences c = true ∧ owner c = None).
Proof.
  split.
  - eexists _, _. split; [vm_compute; reflexivity|]. by vm_compute.
  - eexists _, _. split; [vm_compute; reflexivity|]. by vm_compute.
Qed.

(** C4. The directory is updated more than once for one game. With three
    players seated, the departure of "A" credits a win to "B" and "C" while
    the game goes on, and the departure of "B" credits "C" again: "C" holds
    two wins and "B" a win and a loss for a single game. After a game played
    to its end, the departure of the loser repeats the win and the loss that
    [end_game] recorded. *)
Theorem tallies_updated_twice :
  (∃ s, run departures_trace init_server = Some s ∧
        wins <$> sv_players s !! "C" = Some 2%Z ∧
        wins <$> sv_players s !! "B" = Some 1%Z ∧
        losses <$> sv_players s !! "B" = Some 1%Z) ∧
  (∃ s s', run enclosure_trace init_server = Some s ∧
           wins <$> sv_players s !! "A" = Some 1%Z ∧
           losses <$> sv_players s !! "B" = Some 1%Z ∧
           run [Disconnect "B" "g"] s = Some s' ∧
           wins <$> sv_players s' !! "A" = Some 2%Z ∧
           losses <$> sv_players s' !! "B" = Some 2%Z).
Proof.
  split.
  - eexists. split; [vm_compute; reflexivity|]. by vm_compute.
  - eexists _, _. split; [vm_compute; reflexivity|].
    split; [by vm_compute|]. split; [by vm_compute|].
    split; [vm_compute; reflexivity|]. by vm_compute.
Qed.

(** C5. [leave_game] does not return for a game it finds: it calls
    [handle_player_disconnect] while holding [self.lock], and that handler
    waits for the same lock. The cleanup path, which calls
    [handle_player_disconnect] directly, returns. *)
Theorem leave_game_never_returns :
  ∃ s, run two_seated init_server = Some s ∧
       leave_game leave_g "A" s = Blocked ∧
       ∃ r s', handle_player_disconnect "A" "g" s = Returned r s' ∧
               status r = "success".
Proof.
  eexists. split; [vm_compute; reflexivity|]. split; [by vm_compute|].
  eexists _, _. split; [vm_compute; reflexivity|]. by vm_compute.
Qed.




(** C3, as stated, fails: "A", alone in a game for two, places a fence; and
    a timeout moves the turn of a game for three with two players seated. *)
Lemma moves_accepted_while_joining :
  ¬ (∀ s msg pid now r s' gid g,
       reachable s → place_fence msg pid now s = Returned r s' →
       status r = "success" → pm_game_id msg = Some gid →
       sv_games s !! gid = Some g →
       Z.of_nat (length (players g)) = num_players g ∧ game_over g = false) ∧
  ¬ (∀ s now u s' gid g g',
       reachable s → check_inactivity now s = Returned u s' →
       sv_games s !! gid = Some g → sv_games s' !! gid = Some g' →
       current_player_index g' ≠ current_player_index g →
       Z.of_nat (length (players g)) = num_players g ∧ game_over g = false).
Proof.
  split.
  - intros H.
    pose (s := state_after (opened 2)).
    pose (o := place_fence (fence_at 0 0 "north") "A" 1%Z s).
    assert (reachable s) as Hr by (exists (opened 2); vm_compute; reflexivity).
    destruct (H s (fence_at 0 0 "north") "A" 1%Z (response_of o) (state_of o) "g" (game_g s)
                Hr ltac:(vm_compute; reflexivity) ltac:(vm_compute; reflexivity)
                eq_refl ltac:(vm_compute; reflexivity)) as [Hn _].
    vm_compute in Hn. discriminate Hn.
  - intros H.
    pose (s := state_after two_of_three).
    pose (o := check_inactivity 100%Z s).
    assert (reachable s) as Hr by (exists two_of_three; vm_compute; reflexivity).
    destruct (H s 100%Z () (state_of o) "g" (game_g s) (game_g (state_of o))
                Hr ltac:(vm_compute; reflexivity) ltac:(vm_compute; reflexivity)
                ltac:(vm_compute; reflexivity) ltac:(vm_compute; lia)) as [Hn _].
    vm_compute in Hn. discriminate Hn.
Qed.

(** C3, amended. A move is applied only to a game that is not over and only
    for its current turn holder, whatever the number of seated players:
    otherwise the answer is an error and the state is unchanged. A round of
    the inactivity check changes [current_player_index] only of a game that
    is not over and whose turn has lasted more than 60 seconds, and it
    changes neither the grid nor the roster, hence no score, of any game. *)
Theorem active_gating :
  (∀ msg pid now s r s',
     place_fence msg pid now s = Returned r s' →
     (status r = "error" ∧ s' = s) ∨
     (status r = "success" ∧
      ∃ gid g cur, pm_game_id msg = Some gid ∧ sv_games s !! gid = Some g ∧
                   game_over g = false ∧
                   players g !! current_player_index g = Some cur ∧ p_id cur = pid)) ∧
  (∀ now s u s' gid g,
     check_inactivity now s = Returned u s' → sv_games s !! gid = Some g →
     ∃ g', sv_games s' !! gid = Some g' ∧ grid g' = grid g ∧ players g' = players g ∧
           (current_player_index g' ≠ current_player_index g →
            game_over g = false ∧ (now - turn_start_time g > 60)%Z)).
Proof.
  split.
  - intros msg pid now s r s' (Hl & [?|H])%place_fence_returned; [by left|right].
    destruct H as (gid & g & cur & x & y & o & c & g3 & claimed & gf & Hfind & Hcur & Hid
                   & Hgo & _ & _ & _ & _ & _ & _ & _ & _ & -> & _).
    apply find_game_Some in Hfind as (Hk & _ & Hg). split; [done|].
    by exists gid, g, cur.
  - intros now s u s' gid g (_ & _ & _ & _ & Hall & Hgames)%check_inactivity_returned Hg.
    destruct (Hall gid g Hg) as [g' Ht]. exists g'.
    rewrite Hgames, Hg. simpl. split; [done|].
    destruct (timeout_game_spec _ _ _ Ht) as (Hp & Hgr & _ & _ & _ & _ & Hidx).
    split; [done|]. split; [done|]. intros Hne.
    destruct Hidx as [?|(? & ? & _)]; done.
Qed.

Lemma active_gating_witness :
  let s := state_after two_seated in
  let o := place_fence (fence_at 0 0 "north") "A" 2%Z s in
  let t := check_inactivity 100%Z s in
  (o = Returned (response_of o) (state_of o) ∧
   t = Returned () (state_of t) ∧ sv_games s !! "g" = Some (game_g s)) ∧
  ((status (response_of o) = "error" ∧ state_of o = s) ∨
   (status (response_of o) = "success" ∧
    ∃ gid g cur, pm_game_id (fence_at 0 0 "north") = Some gid ∧
                 sv_games s !! gid = Some g ∧ game_over g = false ∧
                 players g !! current_player_index g = Some cur ∧ p_id cur = "A")) ∧
  (∃ g', sv_games (state_of t) !! "g" = Some g' ∧ grid g' = grid (game_g s) ∧
         players g' = players (game_g s) ∧
         (current_player_index g' ≠ current_player_index (game_g s) →
          game_over (game_g s) = false ∧ (100 - turn_start_time (game_g s) > 60)%Z)).
Proof.
  intros s o t.
  assert (o = Returned (response_of o) (state_of o)) as Ho by (vm_compute; reflexivity).
  assert (t = Returned () (state_of t)) as Ht by (vm_compute; reflexivity).
  assert (sv_games s !! "g" = Some (game_g s)) as Hg by (vm_compute; reflexivity).
  split; [exact (conj Ho (conj Ht Hg))|]. split.
  - exact (proj1 active_gating _ _ _ _ _ _ Ho).
  - exact (proj2 active_gating _ _ _ _ _ _ Ht Hg).
Defined.

(** C9, as stated, fails: after the fence "A" places in a game for two the
    turn is with "B", and the same request from "A" is answered "Not your
    turn", not "Fence already exists". *)
Lemma second_placement_other_error :
  ¬ (∀ s msg pid now r s' pid2 now2,
       reachable s → place_fence msg pid now s = Returned r s' →
       status r = "success" →
       place_fence msg pid2 now2 s' = Returned (error "Fence already exists") s').
Proof.
  intros H.
  pose (s := state_after two_seated).
  pose (o := place_fence (fence_at 0 0 "north") "A" 2%Z s).
  assert (reachable s) as Hr by (exists two_seated; vm_compute; reflexivity).
  assert (place_fence (fence_at 0 0 "north") "A" 2%Z s
          = Returned (response_of o) (state_of o)) as Ho by (vm_compute; reflexivity).
  assert (status (response_of o) = "success") as Hs by (vm_compute; reflexivity).
  pose proof (H s _ _ _ _ _ "A" 3%Z Hr Ho Hs) as Hsecond.
  vm_compute in Hsecond. discriminate Hsecond.
Qed.

Lemma turn_rotation_witness :
  let s := state_after two_seated in
  let msg := fence_at 0 0 "north" in
  let o := place_fence msg "A" 2%Z s in
  (o = Returned (response_of o) (state_of o) ∧ status (response_of o) = "success" ∧
   pm_game_id msg = Some "g" ∧ pm_x msg = Some 0%Z ∧ pm_y msg = Some 0%Z ∧
   sv_games s !! "g" = Some (game_g s)) ∧
  ∃ g' claimed,
    sv_games (state_of o) !! "g" = Some g' ∧
    r_land_claimed (response_of o) = Some claimed ∧
    length (players g') = length (players (game_g s)) ∧
    (claimed = true ↔
       ∃ c c', grid_at (grid (game_g s)) 0 0 = Some c ∧ grid_at (grid g') 0 0 = Some c' ∧
               owner c = None ∧ owner c' = Some "A") ∧
    current_player_index g' =
      (if claimed then current_player_index (game_g s)
       else (current_player_index (game_g s) + 1) `mod` length (players (game_g s))).
Proof.
  intros s msg o.
  assert (o = Returned (response_of o) (state_of o)) as Ho by (vm_compute; reflexivity).
  assert (status (response_of o) = "success") as Hst by (vm_compute; reflexivity).
  assert (sv_games s !! "g" = Some (game_g s)) as Hg by (vm_compute; reflexivity).
  split; [exact (conj Ho (conj Hst (conj eq_refl (conj eq_refl (conj eq_refl Hg)))))|].
  exact (turn_rotation msg "A" 2%Z s _ _ "g" _ 0%Z 0%Z Ho Hst eq_refl eq_refl eq_refl Hg).
Defined.

Lemma end_game_resolution_witness :
  let s := state_after before_last_move in
  let msg := fence_at 1 1 "south" in
  let o := place_fence msg "B" 13%Z s in
  let g' := game_g (state_of o) in
  (o = Returned (response_of o) (state_of o) ∧ status (response_of o) = "success" ∧
   pm_game_id msg = Some "g" ∧ sv_games (state_of o) !! "g" = Some g' ∧
   check_game_over g' = true) ∧
  game_over g' = true ∧
  (∀ i p, players g' !! i = Some p →
     (∀ j q, players g' !! j = Some q → j ≠ i → (p_score q < p_score p)%Z) →
     winner g' = Some (p_id p)) ∧
  (∀ i j p q, i ≠ j → players g' !! i = Some p → players g' !! j = Some q →
     p_score p = p_score q →
     (∀ k t, players g' !! k = Some t → (p_score t ≤ p_score p)%Z) →
     winner g' = Some "draw").
Proof.
  intros s msg o g'.
  assert (o = Returned (response_of o) (state_of o)) as Ho by (vm_compute; reflexivity).
  assert (status (response_of o) = "success") as Hst by (vm_compute; reflexivity).
  assert (sv_games (state_of o) !! "g" = Some g') as Hg by (vm_compute; reflexivity).
  assert (check_game_over g' = true) as Hfull by (vm_compute; reflexivity).
  split; [exact (conj Ho (conj Hst (conj eq_refl (conj Hg Hfull))))|].
  exact (end_game_resolution msg "B" 13%Z s _ _ "g" g' Ho Hst eq_refl Hg Hfull).
Defined.

Lemma out_of_turn_unchanged_witness :
  let s := state_after two_seated in
  let msg := fence_at 0 0 "north" in
  let cur := new_player "A" "Player_A" in
  (sv_lock s = false ∧ pm_game_id msg = Some "g" ∧ "g" ≠ "" ∧
   sv_games s !! "g" = Some (game_g s) ∧
   players (game_g s) !! current_player_index (game_g s) = Some cur ∧
   p_id cur ≠ "B") ∧
  place_fence msg "B" 2%Z s = Returned (error "Not your turn") s.
Proof.
  intros s msg cur.
  assert (sv_lock s = false) as Hl by (vm_compute; reflexivity).
  assert ("g" ≠ "") as Hne by discriminate.
  assert (sv_games s !! "g" = Some (game_g s)) as Hg by (vm_compute; reflexivity).
  assert (players (game_g s) !! current_player_index (game_g s) = Some cur) as Hcur
    by (vm_compute; reflexivity).
  assert (p_id cur ≠ "B") as Hid by discriminate.
  split; [exact (conj Hl (conj eq_refl (conj Hne (conj Hg (conj Hcur Hid)))))|].
  exact (out_of_turn_unchanged msg "B" 2%Z s "g" _ cur Hl eq_refl Hne Hg Hcur Hid).
Defined.

Lemma current_player_index_in_range_witness :
  let s := state_after two_seated in
  (reachable s ∧ sv_games s !! "g" = Some (game_g s)) ∧
  current_player_index (game_g s) < length (players (game_g s)).
Proof.
  intros s.
  assert (reachable s) as Hr by (exists two_seated; vm_compute; reflexivity).
  assert (sv_games s !! "g" = Some (game_g s)) as Hg by (vm_compute; reflexivity).
  split; [exact (conj Hr Hg)|].
  exact (current_player_index_in_range s "g" _ Hr Hg).
Defined.

(** ** The further invariants along a run *)

Lemma grid_rows_alter n f x y (gr : list (list cell)) :
  length gr = n ∧ Forall (λ row, length row = n) gr →
  length (grid_alter f x y gr) = n ∧ Forall (λ row, length row = n) (grid_alter f x y gr).
Proof.
  intros [Hl HF]. unfold grid_alter. split; [by rewrite length_alter|].
  apply Forall_alter; [done|]. intros row _ Hrow. by rewrite length_alter.
Qed.

Lemma put_fence_rows n size o x y gr g1 :
  length gr = n ∧ Forall (λ row, length row = n) gr →
  put_fence size o x y gr = Some g1 →
  length g1 = n ∧ Forall (λ row, length row = n) g1.
Proof.
  intros Hrows. unfold put_fence.
  destruct (adjacent size o x y) as [[[ax ay] ao]|].
  - case_match; [|discriminate]. intros [= <-]. by do 2 apply grid_rows_alter.
  - intros [= <-]. by apply grid_rows_alter.
Qed.

Lemma grid_Forall_alter_at (P : cell → Prop) f x y gr c :
  Forall (Forall P) gr → grid_at gr x y = Some c → P (f c) →
  Forall (Forall P) (grid_alter f x y gr).
Proof.
  intros HF Hc HP. unfold grid_alter.
  apply grid_at_elem in Hc as (row & Hrow & Hc).
  apply Forall_alter; [done|]. intros row' Hrow' Hall.
  apply Forall_alter; [done|]. intros c' Hc' _. by simplify_eq.
Qed.

Lemma all_fences_set_fence o c : all_fences c = true → all_fences (set_fence o c) = true.
Proof.
  unfold all_fences. destruct o; simpl; intros H;
    repeat (apply andb_true_iff in H as [H ?]); by repeat (apply andb_true_iff; split).
Qed.

Lemma ids_alter_score v i (ps : list player) :
  p_id <$> alter (add_score v) i ps = p_id <$> ps.
Proof.
  apply list_eq. intros j. rewrite !list_lookup_fmap, list_lookup_alter.
  case_decide as H; [|done]. rewrite <-H. by destruct (ps !! i).
Qed.

Lemma move_game_sound g cur o x y now c g' cl :
  game_sound g → in_grid (grid_size g) x y → grid_at (grid g) x y = Some c →
  move_game g cur o x y now = Some (g', cl) → game_sound g'.
Proof.
  intros [Hsz Hcap Hrows Hros Hids Hown Hval Hres] Hin Hc Hmv.
  destruct (move_game_inv _ _ _ _ _ _ _ _ _ Hin Hc Hmv)
    as (g1 & Hp & Hcl & Hgr & Hps & Hidx & Hgo & Hw & Hsz' & Hn & Hid).
  pose proof (put_fence_target _ _ _ _ _ _ _ Hin Hc Hp) as Ht.
  assert (Forall (Forall (λ c, is_Some (owner c) → all_fences c = true)) g1) as Hown1.
  { eapply put_fence_Forall; [|exact Hown|exact Hp].
    intros o' c' HP. rewrite owner_set_fence. intros Ho. by apply all_fences_set_fence, HP. }
  assert (Forall (Forall (λ c, value c = land_value (land c))) g1) as Hval1.
  { eapply put_fence_Forall; [|exact Hval|exact Hp]. intros o' c' HP. by destruct o'. }
  pose proof (put_fence_rows _ _ _ _ _ _ _ Hrows Hp) as Hrows1.
  split; rewrite ?Hsz', ?Hn, ?Hgo, ?Hw; try done.
  - rewrite Hgr. destruct cl; [|done]. by apply grid_rows_alter.
  - rewrite Hps. destruct cl; [|done]. by rewrite length_alter.
  - rewrite Hps. destruct cl; [|done]. by rewrite ids_alter_score.
  - rewrite Hgr. destruct cl; [|done].
    eapply grid_Forall_alter_at; [done|exact Ht|]. simpl. intros _.
    symmetry in Hcl. by apply andb_true_iff in Hcl as [? _].
  - rewrite Hgr. destruct cl; [|done].
    eapply grid_Forall_alter_at; [done|exact Ht|]. simpl.
    eapply (grid_Forall_at _ _ _ _ _ Hval1 Ht).
Qed.

Lemma game_sound_with_result w g : game_sound g → game_sound (with_result (Some w) g).
Proof. intros [? ? ? ? ? ? ? ?]. by split. Qed.

Lemma init_grid_rows draw size :
  length (initialize_grid draw size) = Z.to_nat size ∧
  Forall (λ row, length row = Z.to_nat size) (initialize_grid draw size).
Proof.
  unfold initialize_grid. split; [by rewrite length_fmap, length_seq|].
  apply Forall_fmap, Forall_forall. intros y _. simpl. by rewrite length_fmap, length_seq.
Qed.

Lemma is_Some_fold_alter {A} (f : string → A → gmap string stats → gmap string stats)
    (l : list A) (d : gmap string stats) k :
  (∀ a d, is_Some (f k a d !! k) ↔ is_Some (d !! k)) →
  is_Some (foldl (λ d a, f k a d) d l !! k) ↔ is_Some (d !! k).
Proof.
  intros Hf. revert d. induction l as [|a l IH]; intros d; simpl; [done|].
  by rewrite IH, Hf.
Qed.

Lemma is_Some_alter (f : stats → stats) (d : gmap string stats) i k :
  is_Some (alter f i d !! k) ↔ is_Some (d !! k).
Proof.
  rewrite lookup_alter. case_decide; [subst|done]. apply fmap_is_Some.
Qed.

Lemma record_win_loss_dom w ps d k :
  is_Some (record_win_loss w ps d !! k) ↔ is_Some (d !! k).
Proof.
  unfold record_win_loss. revert d. induction ps as [|p ps IH]; intros d; simpl; [done|].
  rewrite IH. case_match; apply is_Some_alter.
Qed.

Lemma record_draws_dom ps d k :
  is_Some (record_draws ps d !! k) ↔ is_Some (d !! k).
Proof.
  unfold record_draws. revert d. induction ps as [|p ps IH]; intros d; simpl; [done|].
  rewrite IH. apply is_Some_alter.
Qed.

Lemma record_leave_wins_dom pid ps d k :
  is_Some (record_leave_wins pid ps d !! k) ↔ is_Some (d !! k).
Proof.
  unfold record_leave_wins. revert d. induction ps as [|p ps IH]; intros d; simpl; [done|].
  rewrite IH. case_match; [done|]. apply is_Some_alter.
Qed.

Lemma end_game_dom g d g' d' k :
  end_game g d = Some (g', d') → is_Some (d' !! k) ↔ is_Some (d !! k).
Proof.
  unfold end_game. destruct (max_score (players g)); [|done]. simpl.
  destruct (winners _ _) as [|a [|b l]]; intros [= <- <-];
    auto using record_draws_dom, record_win_loss_dom.
Qed.

Lemma init_stats_dom pid name d k :
  is_Some (init_stats pid name d !! k) ↔ k = pid ∨ is_Some (d !! k).
Proof.
  unfold init_stats. destruct (d !! pid) eqn:Hp.
  - split; [by right|]. intros [->|?]; [by rewrite Hp|done].
  - rewrite lookup_insert. case_decide; [subst|].
    + split; [by left|by eexists].
    + split; [by right|]. by intros [?|?].
Qed.

(** The move log after [place_fence]. *)
Lemma place_fence_log msg pid now s r s' :
  place_fence msg pid now s = Returned r s' →
  (status r = "error" ∧ sv_recordings s' = sv_recordings s) ∨
  (∃ gid g cur x y o claimed,
     status r = "success" ∧ pm_game_id msg = Some gid ∧
     pm_x msg = Some x ∧ pm_y msg = Some y ∧
     parse_orientation (pm_orientation msg) = Some o ∧
     r_land_claimed r = Some claimed ∧
     sv_games s !! gid = Some g ∧ players g !! current_player_index g = Some cur ∧
     sv_recordings s' =
       <[gid := default [] (sv_recordings s !! gid) ++
                [{| mv_timestamp := now; mv_player_id := pid;
                    mv_player_name := p_name cur; mv_x := x; mv_y := y;
                    mv_orientation := o; mv_land_claimed := claimed |}]]>
         (sv_recordings s)).
Proof.
  intros (Hl & s1 & Hbody & ->)%with_lock_returned.
  destruct (find_game (pm_game_id msg) (set_lock true s)) as [[gid g]|] eqn:Hfind;
    [|simplify_eq; by left].
  apply find_game_Some in Hfind as (Hk & _ & Hg). simpl in Hg.
  destruct (players g !! current_player_index g) as [cur|] eqn:Hcur; [|done].
  destruct (String.eqb_spec (p_id cur) pid) as [Hid|Hid]; simpl in Hbody;
    [|simplify_eq; by left].
  destruct (game_over g) eqn:Hover; [simplify_eq; by left|].
  destruct (pm_x msg) as [x|] eqn:Hx; [|simplify_eq; by left].
  destruct (pm_y msg) as [y|] eqn:Hy; [|simplify_eq; by left].
  destruct ((x <? 0)%Z || (x >=? grid_size g)%Z || (y <? 0)%Z || (y >=? grid_size g)%Z)
    eqn:Hb; [simplify_eq; by left|].
  destruct (parse_orientation (pm_orientation msg)) as [o|] eqn:Ho; [|simplify_eq; by left].
  destruct (grid_at (grid g) x y) as [c|] eqn:Hc; [|done].
  destruct (fence o c) eqn:Hf; [simplify_eq; by left|].
  right. unfold apply_fence in Hbody.
  destruct (move_game g cur o x y now) as [[g3 claimed]|] eqn:Hmv; [|done].
  exists gid, g, cur, x, y, o, claimed.
  destruct (check_game_over g3) eqn:Hcg.
  - destruct (end_game g3 (sv_players (set_lock true s))) as [[g4 d]|] eqn:He; [|done].
    injection Hbody as <- <-. done.
  - injection Hbody as <- <-. done.
Qed.

Lemma game_sound_same g g' :
  grid_size g' = grid_size g → num_players g' = num_players g →
  grid g' = grid g → players g' = players g →
  (game_over g' = true ↔ is_Some (winner g')) →
  game_sound g → game_sound g'.
Proof.
  intros Hsz Hn Hgr Hps Hres [? ? ? ? ? ? ? ?].
  split; rewrite ?Hsz, ?Hn, ?Hgr, ?Hps; done.
Qed.

Lemma place_fence_sound msg pid now s r s' :
  server_sound s → place_fence msg pid now s = Returned r s' → server_sound s'.
Proof.
  intros Hs Hplace. pose proof (place_fence_log _ _ _ _ _ _ Hplace) as Hlog.
  apply place_fence_returned in Hplace as (Hl & [[Herr ->]|H]); [done|].
  destruct H as (gid & g & cur & x & y & o & c & g3 & claimed & gf & Hfind & Hcur & Hid
                 & Hgo & Hx & Hy & Hin & Ho & Hc & Hf & Hmv & Hend & -> & Hgames & Hl').
  apply find_game_Some in Hfind as (Hk & Hne & Hg).
  destruct (sound_games _ Hs gid g Hg) as [Hgs Hgid].
  pose proof (move_game_sound _ _ _ _ _ _ _ _ _ Hgs Hin Hc Hmv) as Hs3.
  destruct (move_game_inv _ _ _ _ _ _ _ _ _ Hin Hc Hmv)
    as (g1 & Hp & Hcl & Hgr & Hps & _ & _ & _ & _ & _ & Hid3).
  assert (game_sound gf ∧ game_id gf = gid ∧ players gf = players g3 ∧
          ∀ k, is_Some (sv_players s' !! k) ↔ is_Some (sv_players s !! k))
    as (Hsf & Hidf & Hpf & Hdom).
  { destruct (check_game_over g3).
    - pose proof (λ k, end_game_dom _ _ _ _ k Hend) as Hdom.
      apply end_game_spec in Hend as (w & -> & _).
      split; [by apply game_sound_with_result|]. split; [simpl; congruence|]. by split.
    - destruct Hend as [-> ->]. split; [done|]. split; [congruence|]. by split. }
  assert (p_id <$> players gf = p_id <$> players g) as Hids.
  { rewrite Hpf, Hps. destruct claimed; [|done]. apply ids_alter_score. }
  split.
  - intros k g0. rewrite Hgames, lookup_insert. case_decide; [|apply Hs].
    intros [= <-]. by subst.
  - intros k g0 p. rewrite Hgames, lookup_insert. case_decide.
    + intros [= <-] Hp0. apply Hdom.
      assert (p_id p ∈ p_id <$> players g) as Hin0.
      { rewrite <-Hids. by apply list_elem_of_fmap_2. }
      apply list_elem_of_fmap in Hin0 as (q & -> & Hq).
      by eapply (sound_directory _ Hs gid g q).
    + intros Hg0 Hp0. apply Hdom. by eapply (sound_directory _ Hs k g0 p).
  - intros k. rewrite Hgames. intros Hk0.
    destruct Hlog as [[Herr _]|Hlog]; [discriminate Herr|].
    destruct Hlog as (gid' & g' & cur' & x' & y' & o' & cl' & _ & Hk' & _ & _ & _ & _ & _ & _ & ->).
    assert (gid' = gid) as -> by congruence.
    rewrite lookup_insert. case_decide; [by eexists|].
    apply (sound_recordings _ Hs). by rewrite lookup_insert_ne in Hk0.
Qed.

Lemma create_game_log msg pid fresh draw now s r s' :
  create_game msg pid fresh draw now s = Returned r s' →
  (status r = "error" ∧ sv_recordings s' = sv_recordings s) ∨
  (status r = "success" ∧ sv_recordings s' = <[fresh := []]> (sv_recordings s)).
Proof.
  intros (Hl & s1 & Hbody & ->)%with_lock_returned. cbv beta zeta in Hbody.
  repeat case_match; simplify_eq; auto.
Qed.

Lemma join_game_log msg pid now s r s' :
  join_game msg pid now s = Returned r s' → sv_recordings s' = sv_recordings s.
Proof.
  intros (Hl & s1 & Hbody & ->)%with_lock_returned. cbv beta zeta in Hbody.
  repeat case_match; simplify_eq; auto.
Qed.

Lemma new_game_sound pid name fresh draw size n now :
  (2 ≤ size ≤ 10)%Z → (2 ≤ n ≤ 4)%Z →
  game_sound {| game_id := fresh; grid_size := size; num_players := n;
                players := [new_player pid name]; current_player_index := 0;
                grid := initialize_grid draw size; game_over := false; winner := None;
                created_at := now; last_activity := now; turn_start_time := now;
                turn_time_limit := 60 |}.
Proof.
  intros Hsz Hn. split; simpl; try done.
  - apply init_grid_rows.
  - lia.
  - apply NoDup_singleton.
  - apply init_grid_Forall. intros t [w Hw]. discriminate Hw.
  - by apply init_grid_Forall.
Qed.

Lemma create_game_sound msg pid fresh draw now s r s' :
  server_sound s → create_game msg pid fresh draw now s = Returned r s' → server_sound s'.
Proof.
  intros Hs Hcreate. pose proof (create_game_log _ _ _ _ _ _ _ _ Hcreate) as Hlog.
  apply create_game_returned in Hcreate as (Hl & [[Herr ->]|H]); [done|].
  destruct H as (g & Hgdef & Hsz & Hn & -> & Hgames & Hd & Hl').
  destruct Hlog as [[Herr _]|[_ Hrec]]; [discriminate Herr|].
  split.
  - intros k g0. rewrite Hgames, lookup_insert. case_decide; [|apply Hs].
    intros [= <-]. subst g. split; [by apply new_game_sound|by subst].
  - intros k g0 p. rewrite Hgames, Hd, lookup_insert. case_decide.
    + intros [= <-]. subst g. simpl. intros ->%list_elem_of_singleton. simpl.
      apply init_stats_dom. by left.
    + intros Hg0 Hp. apply init_stats_dom. right.
      by eapply (sound_directory _ Hs k g0 p).
  - intros k. rewrite Hgames, Hrec, !lookup_insert. case_decide; [by eexists|].
    apply (sound_recordings _ Hs).
Qed.

Lemma join_game_sound msg pid now s r s' :
  server_sound s → join_game msg pid now s = Returned r s' → server_sound s'.
Proof.
  intros Hs Hjoin. pose proof (join_game_log _ _ _ _ _ _ Hjoin) as Hrec.
  apply join_game_returned in Hjoin as (Hl & [[Herr ->]|H]); [done|].
  destruct H as (gid & g & g' & Hfind & Hroom & Hnew & -> & -> & Hgames & Hd & Hl').
  apply find_game_Some in Hfind as (Hk & Hne & Hg).
  destruct (sound_games _ Hs gid g Hg) as [[? ? ? ? ? ? ? ?] Hgid].
  split.
  - intros k g0. rewrite Hgames, lookup_insert. case_decide; [|apply Hs].
    intros [= <-]. split; [|by subst]. split; simpl; try done.
    + rewrite length_app. simpl. lia.
    + rewrite fmap_app. simpl. apply NoDup_app. split; [done|]. split.
      * intros i (p & -> & Hp)%list_elem_of_fmap Hi%list_elem_of_singleton.
        by apply (Hnew p).
      * apply NoDup_singleton.
  - intros k g0 p. rewrite Hgames, Hd, lookup_insert. case_decide.
    + intros [= <-]. simpl. intros [Hp| ->%list_elem_of_singleton]%elem_of_app.
      * apply init_stats_dom. right. by eapply (sound_directory _ Hs gid g p).
      * apply init_stats_dom. by left.
    + intros Hg0 Hp. apply init_stats_dom. right.
      by eapply (sound_directory _ Hs k g0 p).
  - intros k. rewrite Hgames, Hrec, lookup_insert. case_decide; [subst|].
    + intros _. apply (sound_recordings _ Hs). by rewrite Hg.
    + apply (sound_recordings _ Hs).
Qed.

(** The game a departure leaves behind, field by field. *)
Lemma disconnect_game_fields pid gid s r s' g :
  handle_player_disconnect pid gid s = Returned r s' →
  sv_games s !! gid = Some g → 2 ≤ length (players g) →
  ∀ i, find_player_index pid (players g) = Some i →
  ∃ g', sv_games s' = <[gid := g']> (sv_games s) ∧
    r = success "Player left game" None (Some g') None ∧
    players g' = delete i (players g) ∧ grid g' = grid g ∧
    grid_size g' = grid_size g ∧ num_players g' = num_players g ∧
    game_id g' = game_id g ∧
    current_player_index g' =
      (if (length (delete i (players g)) <=? current_player_index g)%nat
       then 0 else current_player_index g) ∧
    ((∃ last, delete i (players g) = [last] ∧
              game_over g' = true ∧ winner g' = Some (p_id last)) ∨
     (length (delete i (players g)) ≠ 1 ∧
      game_over g' = game_over g ∧ winner g' = winner g)) ∧
    sv_players s' =
      alter bump_losses pid (record_leave_wins pid (players g) (sv_players s)) ∧
    sv_recordings s' = sv_recordings s ∧ sv_lock s' = false.
Proof.
  intros (Hl & s1 & Hbody & ->)%with_lock_returned Hg Hlen i Hi.
  cbv beta zeta in Hbody.
  change (sv_games (set_lock true s)) with (sv_games s) in Hbody.
  rewrite Hg, Hi in Hbody.
  destruct (length (players g) <=? 1)%nat eqn:Hle; [apply Nat.leb_le in Hle; lia|].
  injection Hbody as <- <-.
  eexists. split; [reflexivity|]. split; [reflexivity|].
  simpl. destruct (delete i (players g)) as [|a [|b l]] eqn:Hd; simpl;
    repeat case_match; simpl; repeat split; eauto; right; repeat split; eauto.
Qed.

Lemma disconnect_sound pid gid s r s' :
  server_sound s → handle_player_disconnect pid gid s = Returned r s' → server_sound s'.
Proof.
  intros Hs Hdis.
  pose proof Hdis as (Hl & [[_ ->]|[H|H]])%handle_player_disconnect_returned; [done|..].
  - destruct H as (g & i & Hg & Hi & Hlen & -> & ->). split; simpl.
    + intros k g0 [_ Hk]%lookup_delete_Some. by apply Hs.
    + intros k g0 p [_ Hk]%lookup_delete_Some. by apply (sound_directory _ Hs k g0 p).
    + intros k [g0 [_ Hk]%lookup_delete_Some]. apply (sound_recordings _ Hs). by eexists.
  - destruct H as (g & i & _ & Hg & Hi & Hlen & _).
    destruct (disconnect_game_fields _ _ _ _ _ _ Hdis Hg Hlen i Hi)
      as (g' & Hgames & -> & Hp & Hgr & Hsz & Hn & Hid & Hidx & Hres & Hd & Hr & Hl').
    destruct (sound_games _ Hs gid g Hg) as [[? ? ? ? ? ? ? Hresult] Hgid].
    assert (∀ k, is_Some (sv_players s' !! k) ↔ is_Some (sv_players s !! k)) as Hdom.
    { intros k. by rewrite Hd, is_Some_alter, record_leave_wins_dom. }
    split.
    + intros k g0. rewrite Hgames, lookup_insert. case_decide; [|apply Hs].
      intros [= <-]. split; [|congruence].
      split; rewrite ?Hsz, ?Hn, ?Hgr, ?Hp; try done.
      * apply find_player_index_Some in Hi as (p & Hpi & _).
        rewrite length_delete by eauto. lia.
      * rewrite list_fmap_delete. eapply sublist_NoDup; [done|apply sublist_delete].
      * destruct Hres as [(last & _ & -> & ->)|(_ & -> & ->)]; [|done].
        split; [by eexists|done].
    + intros k g0 p. rewrite Hgames, lookup_insert. case_decide.
      * intros [= <-]. rewrite Hp. intros Hin%list_elem_of_delete_inv. apply Hdom.
        by eapply (sound_directory _ Hs gid g p).
      * intros Hg0 Hp0. apply Hdom. by eapply (sound_directory _ Hs k g0 p).
    + intros k. rewrite Hgames, Hr, lookup_insert. case_decide; [subst|].
      * intros _. apply (sound_recordings _ Hs). by rewrite Hg.
      * apply (sound_recordings _ Hs).
Qed.

Lemma timeout_game_id now g g' : timeout_game now g = Some g' → game_id g' = game_id g.
Proof. unfold timeout_game. repeat case_match; by intros [= <-]. Qed.

Lemma check_inactivity_sound now s u s' :
  server_sound s → check_inactivity now s = Returned u s' → server_sound s'.
Proof.
  intros Hs (Hl & Hl' & Hd & Hr & _ & Hgames)%check_inactivity_returned.
  assert (∀ k g', sv_games s' !! k = Some g' →
            ∃ g, sv_games s !! k = Some g ∧ timeout_game now g = Some g') as Hinv.
  { intros k g'. rewrite Hgames. destruct (sv_games s !! k) as [g|]; [|done]. eauto. }
  split.
  - intros k g' (g & Hg & Ht)%Hinv. destruct (sound_games _ Hs k g Hg) as [Hgs Hid].
    destruct (timeout_game_spec _ _ _ Ht) as (Hp & Hgr & Hsz & Hn & Hgo & Hw & _).
    split; [|by rewrite (timeout_game_id _ _ _ Ht)].
    apply (game_sound_same g); try done. rewrite Hgo, Hw. apply Hgs.
  - intros k g' p (g & Hg & Ht)%Hinv.
    destruct (timeout_game_spec _ _ _ Ht) as (Hp & _). rewrite Hp, Hd.
    by apply (sound_directory _ Hs k g p).
  - intros k [g' (g & Hg & Ht)%Hinv]. rewrite Hr. apply (sound_recordings _ Hs). by eexists.
Qed.

Lemma step_sound o s u s' :
  server_sound s → step o s = Returned u s' → server_sound s'.
Proof.
  intros Hs. destruct o as [pid msg fresh draw now|pid msg now|pid msg now|pid msg|pid gid|now];
    simpl.
  - destruct (create_game _ _ _ _ _ s) as [r s1| |] eqn:E; [|done..]. intros ?; simplify_eq.
    by eapply create_game_sound.
  - destruct (join_game _ _ _ s) as [r s1| |] eqn:E; [|done..]. intros ?; simplify_eq.
    by eapply join_game_sound.
  - destruct (place_fence _ _ _ s) as [r s1| |] eqn:E; [|done..]. intros ?; simplify_eq.
    by eapply place_fence_sound.
  - destruct (leave_game _ _ s) as [r s1| |] eqn:E; [|done..]. intros ?; simplify_eq.
    by apply leave_game_returned in E as (_ & _ & ->).
  - destruct (handle_player_disconnect _ _ s) as [r s1| |] eqn:E; [|done..].
    intros ?; simplify_eq. by eapply disconnect_sound.
  - by apply check_inactivity_sound.
Qed.

Lemma init_server_sound : server_sound init_server.
Proof.
  split; simpl.
  - intros gid g. by rewrite lookup_empty.
  - intros gid g p. by rewrite lookup_empty.
  - intros gid [g Hg]. by rewrite lookup_empty in Hg.
Qed.

Lemma run_sound ops s s' : server_sound s → run ops s = Some s' → server_sound s'.
Proof.
  revert s. induction ops as [|o ops IH]; intros s Hs; simpl.
  - by intros [= <-].
  - destruct (step o s) as [u s1| |] eqn:E; [|done..]. intros Hrun.
    apply (IH s1); [|done]. by eapply step_sound.
Qed.

Lemma reachable_sound s : reachable s → server_sound s.
Proof. intros [ops Hrun]. by eapply run_sound, Hrun; apply init_server_sound. Qed.

(** ** Further properties of the server *)

(** X1. Shared fences: in every state the server reaches, the east flag of a
    cell equals the west flag of the cell to its right, and its south flag
    equals the north flag of the cell below. *)
Theorem shared_fences_agree s gid g x y c c' :
  reachable s → sv_games s !! gid = Some g →
  (0 ≤ x)%Z → (0 ≤ y)%Z → grid_at (grid g) x y = Some c →
  (grid_at (grid g) (x + 1) y = Some c' → east c = west c') ∧
  (grid_at (grid g) x (y + 1) = Some c' → south c = north c').
Proof.
  intros Hok%reachable_ok Hg Hx Hy Hc.
  by apply (ok_mirrored _ (ok_games _ Hok gid g Hg)).
Qed.



(** X4. From a state the server reaches no handler lets an exception escape:
    no index is out of range and [max] never meets an empty roster. *)
Theorem handlers_never_raise s o e :
  reachable s → step o s ≠ Raised e.
Proof.
  intros Hok%reachable_ok.
  destruct (step_progress o s Hok) as [(u & s' & ->)|[-> _]]; discriminate.
Qed.

(** X6. A cell has an owner only when its four fences are set. *)
Theorem owned_cells_are_enclosed s gid g x y c w :
  reachable s → sv_games s !! gid = Some g →
  grid_at (grid g) x y = Some c → owner c = Some w → all_fences c = true.
Proof.
  intros Hs%reachable_sound Hg Hc Hw. destruct (sound_games _ Hs gid g Hg) as [Hgs _].
  apply (grid_Forall_at _ _ _ _ _ (sound_owned _ Hgs) Hc). by eexists.
Qed.

Lemma cell_kept_refl c : cell_kept c c.
Proof. by repeat split. Qed.

Lemma cell_kept_trans c1 c2 c3 : cell_kept c1 c2 → cell_kept c2 c3 → cell_kept c1 c3.
Proof.
  intros (Hf & Ho & Hl & Hv) (Hf' & Ho' & Hl' & Hv').
  split; [|split; [|split; congruence]].
  - intros o ?. by apply Hf', Hf.
  - intros w ?. by apply Ho', Ho.
Qed.

Lemma cell_kept_set_fence o c : cell_kept c (set_fence o c).
Proof.
  split; [|split; [|split; by destruct o]].
  - intros o' Ho'. rewrite fence_set_fence. by case_decide.
  - intros w. by rewrite owner_set_fence.
Qed.

Lemma cell_kept_set_owner w c : owner c = None → cell_kept c (set_owner w c).
Proof.
  intros Hnone. split; [|split; [|done]].
  - intros o. by destruct o.
  - intros w'. by rewrite Hnone.
Qed.

Lemma move_game_cells_kept g cur o x y now c0 g' cl :
  in_grid (grid_size g) x y → grid_at (grid g) x y = Some c0 →
  move_game g cur o x y now = Some (g', cl) →
  ∀ x' y' c, (0 ≤ x')%Z → (0 ≤ y')%Z → grid_at (grid g) x' y' = Some c →
  ∃ c', grid_at (grid g') x' y' = Some c' ∧ cell_kept c c'.
Proof.
  intros Hin Hc0 Hmv x' y' c Hx' Hy' Hc.
  destruct (move_game_inv _ _ _ _ _ _ _ _ _ Hin Hc0 Hmv)
    as (g1 & Hp & Hcl & Hgr & _).
  pose proof (put_fence_at _ _ _ _ _ _ x' y' Hin Hx' Hy' Hp) as Hat. rewrite Hc in Hat.
  assert (∃ c1, grid_at g1 x' y' = Some c1 ∧ cell_kept c c1 ∧
                ((x = x' ∧ y = y') → c1 = set_fence o c0)) as (c1 & Hc1 & Hk1 & Htarget).
  { destruct (decide (x = x' ∧ y = y')) as [[-> ->]|Hne].
    - exists (set_fence o c). simplify_eq. split; [done|]. split; [|done].
      apply cell_kept_set_fence.
    - destruct (adjacent (grid_size g) o x y) as [[[ax ay] ao]|].
      + case_decide.
        * exists (set_fence ao c). split; [done|]. split; [|done]. apply cell_kept_set_fence.
        * exists c. split; [done|]. split; [|done]. apply cell_kept_refl.
      + exists c. split; [done|]. split; [|done]. apply cell_kept_refl. }
  rewrite Hgr. destruct cl; [|by exists c1].
  unfold in_grid in Hin. rewrite grid_at_alter by lia. case_decide as Hd.
  - rewrite Hc1. simpl. eexists. split; [done|].
    eapply cell_kept_trans; [exact Hk1|]. apply cell_kept_set_owner.
    rewrite (Htarget Hd), owner_set_fence.
    symmetry in Hcl. by apply andb_true_iff in Hcl as [_ ?%bool_decide_eq_true].
  - by exists c1.
Qed.

(** X5. Fences and owners persist: across any handler execution that does
    not store a new game under the same identifier, a cell of a stored game
    keeps every fence it has, keeps its owner once it has one, and keeps its
    land type and value. *)
Theorem cells_persist o s u s' gid g g' x y c :
  reachable s → step o s = Returned u s' → ¬ creates gid o →
  sv_games s !! gid = Some g → sv_games s' !! gid = Some g' →
  (0 ≤ x)%Z → (0 ≤ y)%Z → grid_at (grid g) x y = Some c →
  ∃ c', grid_at (grid g') x y = Some c' ∧ cell_kept c c'.
Proof.
  intros Hr Hstep Hnew Hg Hg' Hx Hy Hc.
  assert (grid g' = grid g → ∃ c', grid_at (grid g') x y = Some c' ∧ cell_kept c c') as Hsame.
  { intros ->. exists c. split; [done|]. apply cell_kept_refl. }
  destruct o as [pid msg fresh draw now|pid msg now|pid msg now|pid msg|pid gid0|now];
    simpl in Hstep, Hnew.
  - destruct (create_game _ _ _ _ _ s) as [r s1| |] eqn:E; [|done..]. simplify_eq.
    apply create_game_returned in E as (_ & [[_ ->]|(g0 & _ & _ & _ & _ & Hgames & _)]).
    + apply Hsame. congruence.
    + rewrite Hgames, lookup_insert_ne in Hg' by done. apply Hsame. congruence.
  - destruct (join_game _ _ _ s) as [r s1| |] eqn:E; [|done..]. simplify_eq.
    apply join_game_returned in E as (_ & [[_ ->]|H]); [apply Hsame; congruence|].
    destruct H as (gid0 & g0 & g1 & Hfind & _ & _ & -> & _ & Hgames & _).
    apply find_game_Some in Hfind as (_ & _ & Hg0).
    rewrite Hgames, lookup_insert in Hg'. case_decide; simplify_eq; by apply Hsame.
  - destruct (place_fence _ _ _ s) as [r s1| |] eqn:E; [|done..]. simplify_eq.
    apply place_fence_returned in E as (_ & [[_ ->]|H]); [apply Hsame; congruence|].
    destruct H as (gid0 & g0 & cur & x0 & y0 & o & c0 & g3 & claimed & gf & Hfind & _ & _
                   & _ & _ & _ & Hin & _ & Hc0 & _ & Hmv & Hend & _ & Hgames & _).
    apply find_game_Some in Hfind as (_ & _ & Hg0).
    rewrite Hgames, lookup_insert in Hg'. case_decide; simplify_eq; [|by apply Hsame].
    destruct (move_game_cells_kept _ _ _ _ _ _ _ _ _ Hin Hc0 Hmv x y c Hx Hy Hc)
      as (c' & Hc' & Hk).
    exists c'. split; [|done].
    destruct (check_game_over g3).
    + apply end_game_spec in Hend as (w & -> & _). done.
    + by destruct Hend as [-> _].
  - destruct (leave_game _ _ s) as [r s1| |] eqn:E; [|done..]. simplify_eq.
    apply leave_game_returned in E as (_ & _ & ->). apply Hsame. congruence.
  - destruct (handle_player_disconnect _ _ s) as [r s1| |] eqn:E; [|done..]. simplify_eq.
    apply handle_player_disconnect_returned in E as (_ & [[_ ->]|[H|H]]).
    + apply Hsame. congruence.
    + destruct H as (g0 & i & _ & _ & _ & _ & ->). simpl in Hg'.
      apply lookup_delete_Some in Hg' as [_ Hg']. apply Hsame. congruence.
    + destruct H as (g0 & i & g1 & Hg0 & _ & _ & _ & Hgr & _ & _ & _ & _ & _ & Hgames & _).
      rewrite Hgames, lookup_insert in Hg'. case_decide; simplify_eq; apply Hsame; congruence.
  - apply check_inactivity_returned in Hstep as (_ & _ & _ & _ & _ & Hgames).
    rewrite Hgames, Hg in Hg'. simpl in Hg'.
    apply timeout_game_spec in Hg' as (_ & Hgr & _). by apply Hsame.
Qed.

Section fold_alter.
Context (G : gmap string stats → player → gmap string stats).
Context (F : player → stats → stats).
Hypothesis G_alter : ∀ d p, G d p = alter (F p) (p_id p) d.

Lemma fold_alter_other ps d k :
  k ∉ p_id <$> ps → foldl G d ps !! k = d !! k.
Proof using G_alter.
  revert d. induction ps as [|p ps IH]; intros d Hk; [done|]. simpl.
  rewrite fmap_cons in Hk. apply not_elem_of_cons in Hk as [Hne Hk].
  rewrite IH by done. rewrite G_alter. by apply lookup_alter_ne.
Qed.

Lemma fold_alter_seated ps d p :
  NoDup (p_id <$> ps) → p ∈ ps → foldl G d ps !! p_id p = F p <$> d !! p_id p.
Proof using G_alter.
  revert d. induction ps as [|q ps IH]; intros d Hnd Hp; [by apply elem_of_nil in Hp|].
  rewrite fmap_cons in Hnd. apply NoDup_cons in Hnd as [Hq Hnd]. simpl.
  apply elem_of_cons in Hp as [->|Hp].
  - rewrite fold_alter_other by done. rewrite G_alter. apply lookup_alter_eq.
  - rewrite IH by done. rewrite G_alter, lookup_alter_ne; [done|].
    intros Heq. apply Hq. rewrite Heq. by apply list_elem_of_fmap_2.
Qed.
End fold_alter.

(** The entries a filter keeps, read back in the list it was taken from. *)
Lemma filter_singleton_inv {A} (P : A → Prop) `{!∀ a, Decision (P a)} (l : list A) a :
  filter P l = [a] →
  ∃ i, l !! i = Some a ∧ P a ∧ ∀ j b, l !! j = Some b → j ≠ i → ¬ P b.
Proof.
  induction l as [|c l IH]; [done|].
  destruct (decide (P c)) as [Hc|Hc].
  - rewrite filter_cons_True by done. intros [= -> Hnil].
    exists 0. split; [done|]. split; [done|].
    intros [|j] b Hb Hj Hpb; [done|]. simpl in Hb.
    assert (b ∈ filter P l) as Hin.
    { apply list_elem_of_filter. split; [done|]. by eapply list_elem_of_lookup_2. }
    rewrite Hnil in Hin. by apply elem_of_nil in Hin.
  - rewrite filter_cons_False by done. intros (i & Hi & Ha & Hoth)%IH.
    exists (S i). split; [done|]. split; [done|].
    intros [|j] b Hb Hj; simplify_eq/=; [done|]. apply (Hoth j b); [done|lia].
Qed.

Lemma filter_two_inv {A} (P : A → Prop) `{!∀ a, Decision (P a)} (l : list A) a b l' :
  filter P l = a :: b :: l' →
  ∃ i j, i < j ∧ l !! i = Some a ∧ l !! j = Some b ∧ P a ∧ P b.
Proof.
  induction l as [|c l IH]; [done|].
  destruct (decide (P c)) as [Hc|Hc].
  - rewrite filter_cons_True by done. intros [= -> Hrest].
    assert (b ∈ filter P l) as Hin by (rewrite Hrest; apply list_elem_of_here).
    apply list_elem_of_filter in Hin as [Hb Hin].
    apply list_elem_of_lookup in Hin as [j Hj].
    exists 0, (S j). split; [lia|]. done.
  - rewrite filter_cons_False by done. intros (i & j & Hij & Hi & Hj & Ha & Hb)%IH.
    exists (S i), (S j). split; [lia|]. done.
Qed.

(** What [end_game] does when no identity is seated twice: who is recorded
    as winner, read off the scores, and what becomes of the directory. *)
Lemma end_game_outcome g d g' d' :
  NoDup (p_id <$> players g) → end_game g d = Some (g', d') →
  (∀ k, k ∉ p_id <$> players g → d' !! k = d !! k) ∧
  ((∃ i pw, players g !! i = Some pw ∧
      (∀ j q, players g !! j = Some q → j ≠ i → (p_score q < p_score pw)%Z) ∧
      winner g' = Some (p_id pw) ∧
      ∀ p, p ∈ players g →
        d' !! p_id p =
          (if decide (p_id p = p_id pw) then bump_wins else bump_losses) <$> d !! p_id p) ∨
   (∃ i j p q, i ≠ j ∧ players g !! i = Some p ∧ players g !! j = Some q ∧
      p_score p = p_score q ∧
      (∀ k t, players g !! k = Some t → (p_score t ≤ p_score p)%Z) ∧
      winner g' = Some "draw" ∧
      ∀ p, p ∈ players g → d' !! p_id p = bump_draws <$> d !! p_id p)).
Proof.
  intros Hnd. unfold end_game.
  destruct (max_score (players g)) as [m|] eqn:Hmax; [|done]. simpl.
  destruct (max_score_spec _ _ Hmax) as (Hub & i0 & q0 & Hq0 & Hm0).
  assert (∀ w (d : gmap string stats) p,
            (if String.eqb (p_id p) w then alter bump_wins (p_id p) d
                    else alter bump_losses (p_id p) d)
                   = alter (if decide (p_id p = w) then bump_wins else bump_losses)
                       (p_id p) d) as Hwl.
  { intros w d0 p. destruct (String.eqb_spec (p_id p) w); by case_decide. }
  unfold winners.
  destruct (filter (λ p, p_score p = m) (players g)) as [|a [|b l]] eqn:Hw; simpl.
  - assert (q0 ∈ filter (λ p, p_score p = m) (players g)) as Hin.
    { apply list_elem_of_filter. split; [done|]. by eapply list_elem_of_lookup_2. }
    rewrite Hw in Hin. by apply elem_of_nil in Hin.
  - intros [= <- <-]. split.
    + intros k Hk.
      by apply (fold_alter_other _ (λ p, if decide (p_id p = p_id a)
                                         then bump_wins else bump_losses) (Hwl (p_id a))).
    + left. apply filter_singleton_inv in Hw as (i & Hi & Ha & Hoth).
      exists i, a. split; [done|]. split; [|split; [done|]].
      * intros j q Hq Hj. pose proof (Hub j q Hq). pose proof (Hoth j q Hq Hj). simpl in *. lia.
      * intros p Hp.
        by apply (fold_alter_seated _ (λ p, if decide (p_id p = p_id a)
                                            then bump_wins else bump_losses) (Hwl (p_id a))).
  - intros [= <- <-]. split.
    + intros k Hk. by apply (fold_alter_other _ (λ _, bump_draws) (λ _ _, eq_refl)).
    + right. apply filter_two_inv in Hw as (i & j & Hij & Hi & Hj & Ha & Hb).
      exists i, j, a, b. split; [lia|]. split; [done|]. split; [done|].
      split; [simpl in *; lia|]. split; [|split; [done|]].
      * intros k t Ht. pose proof (Hub k t Ht). simpl in *. lia.
      * intros p Hp. by apply (fold_alter_seated _ (λ _, bump_draws) (λ _ _, eq_refl)).
Qed.

(** X7. For the states the game handlers reach (create, join, move, leave,
    disconnect, inactivity check; every identity then has a directory entry
    of its own, which [login_user] alone would change): the move that
    completes the grid updates the directory once for every seated player.
    Either one seat holds a score strictly above every other seat, its
    identity is recorded as winner, its entry gains a win and every other
    seated entry a loss; or two seats share the highest score, the winner is
    "draw" and every seated entry gains a draw. The other fields of these
    entries and the entries of everybody else stay as they were. A move that
    does not complete the grid leaves the directory alone. *)
Theorem final_move_tallies msg pid now s r s' gid g' :
  reachable s →
  place_fence msg pid now s = Returned r s' → status r = "success" →
  pm_game_id msg = Some gid → sv_games s' !! gid = Some g' →
  (check_game_over g' = false → sv_players s' = sv_players s) ∧
  (check_game_over g' = true →
   (∀ p, p ∈ players g' → is_Some (sv_players s !! p_id p)) ∧
   (∀ k, k ∉ p_id <$> players g' → sv_players s' !! k = sv_players s !! k) ∧
   ((∃ i pw, players g' !! i = Some pw ∧
       (∀ j q, players g' !! j = Some q → j ≠ i → (p_score q < p_score pw)%Z) ∧
       winner g' = Some (p_id pw) ∧
       ∀ p, p ∈ players g' →
         sv_players s' !! p_id p =
           (if decide (p_id p = p_id pw) then bump_wins else bump_losses)
             <$> sv_players s !! p_id p) ∨
    (∃ i j p q, i ≠ j ∧ players g' !! i = Some p ∧ players g' !! j = Some q ∧
       p_score p = p_score q ∧
       (∀ k t, players g' !! k = Some t → (p_score t ≤ p_score p)%Z) ∧
       winner g' = Some "draw" ∧
       ∀ p, p ∈ players g' →
         sv_players s' !! p_id p = bump_draws <$> sv_players s !! p_id p))).
Proof.
  intros Hr Hplace Hst Hgid Hg'. pose proof (reachable_sound _ Hr) as Hs.
  pose proof (place_fence_sound _ _ _ _ _ _ Hs Hplace) as Hs'.
  apply place_fence_returned in Hplace as (Hl & [[Herr _]|H]);
    [rewrite Herr in Hst; discriminate|].
  destruct H as (gid0 & g0 & cur & x0 & y0 & o & c & g3 & claimed & gf & Hfind & Hcur & Hid
                 & Hgo & Hx & Hy & Hin & Ho & Hc & Hf & Hmv & Hend & -> & Hgames & Hl').
  apply find_game_Some in Hfind as (Hk & Hne & Hg0).
  assert (gid0 = gid) as -> by congruence.
  rewrite Hgames, lookup_insert_eq in Hg'. injection Hg' as ->.
  destruct (sound_games _ Hs gid g0 Hg0) as [Hgs0 _].
  pose proof (move_game_sound _ _ _ _ _ _ _ _ _ Hgs0 Hin Hc Hmv) as Hs3.
  destruct (check_game_over g3) eqn:Hcg.
  - pose proof (end_game_spec _ _ _ _ Hend) as (w & Hgw & _).
    assert (check_game_over g' = true) as Hcg' by (subst g'; exact Hcg).
    split; [congruence|]. intros _.
    assert (players g' = players g3) as Hps by (by subst g').
    destruct (end_game_outcome _ _ _ _ (sound_ids _ Hs3) Hend) as [Hother Hcases].
    rewrite Hps. split; [|by split].
    intros p Hp. apply (end_game_dom _ _ _ _ (p_id p) Hend).
    apply (sound_directory _ Hs' gid g' p); [by rewrite Hgames, lookup_insert_eq|].
    by rewrite Hps.
  - destruct Hend as [-> Hd]. split; [done|]. congruence.
Qed.

(** X8. Joining keeps the seats: whatever [join_game] answers for a stored
    game, the players already seated keep their seat and score, and the turn
    and the grid are untouched. A successful join puts the newcomer in the
    last seat with score 0, and needs a free seat; a game whose seats are
    all taken answers "Game is full" and nothing changes. *)
Theorem join_keeps_seats msg pid now s r s' gid g :
  join_game msg pid now s = Returned r s' →
  jm_game_id msg = Some gid → gid ≠ "" → sv_games s !! gid = Some g →
  ∃ g', sv_games s' !! gid = Some g' ∧
    (∀ i p, players g !! i = Some p → players g' !! i = Some p) ∧
    current_player_index g' = current_player_index g ∧ grid g' = grid g ∧
    (status r = "success" →
     (Z.of_nat (length (players g)) < num_players g)%Z ∧
     ∃ name, players g' = players g ++ [{| p_id := pid; p_name := name; p_score := 0 |}]) ∧
    ((num_players g ≤ Z.of_nat (length (players g)))%Z →
     r = error "Game is full" ∧ s' = s).
Proof.
  intros (Hl & s1 & Hbody & ->)%with_lock_returned Hgid Hne Hg.
  cbv beta zeta in Hbody.
  assert (find_game (jm_game_id msg) (set_lock true s) = Some (gid, g)) as Hfind
    by (by apply find_game_Some).
  rewrite Hfind in Hbody. pose proof (set_lock_restore s Hl) as Hrestore.
  destruct (Z.of_nat (length (players g)) >=? num_players g)%Z eqn:Hfull.
  - injection Hbody as <- <-. rewrite Hrestore. exists g.
    split; [done|]. split; [done|]. split; [done|]. split; [done|].
    split; [discriminate|done].
  - destruct (existsb _ (players g)) eqn:Hex.
    + injection Hbody as <- <-. rewrite Hrestore. exists g.
      split; [done|]. split; [done|]. split; [done|]. split; [done|].
      split; [discriminate|lia].
    + injection Hbody as <- <-. eexists. simpl.
      split; [by rewrite lookup_insert_eq|]. simpl.
      split; [intros i p Hp; by apply lookup_app_l_Some|]. split; [done|]. split; [done|].
      split; [intros _; split; [lia|by eexists]|lia].
Qed.


(** X10. Every player seated in a stored game has a directory entry, and
    [get_stats] returns it. *)
Theorem seated_players_have_stats s gid g p :
  reachable s → sv_games s !! gid = Some g → p ∈ players g →
  ∃ entry, sv_players s !! p_id p = Some entry ∧
    get_stats (p_id p) s = Returned (success "Player statistics" None None None, Some entry) s.
Proof.
  intros Hr Hg Hp. pose proof (ok_lock _ (reachable_ok _ Hr)) as Hl.
  destruct (sound_directory _ (reachable_sound _ Hr) gid g p Hg Hp) as [entry Hentry].
  exists entry. split; [done|].
  unfold get_stats, with_lock. rewrite Hl. simpl. rewrite Hentry.
  by rewrite set_lock_restore.
Qed.

(** X11. The move log is appended to by successful moves only: a successful
    [place_fence] adds exactly one record, with the mover, the position, the
    orientation and whether land was claimed, at the end of the log of its
    game, which [get_game_recording] then returns; the logs of the other
    games are untouched, and a refused move changes no log. *)
Theorem move_log_appended msg pid now s r s' :
  reachable s → place_fence msg pid now s = Returned r s' →
  (status r = "error" ∧ sv_recordings s' = sv_recordings s) ∨
  (∃ gid x y o claimed log m,
     status r = "success" ∧ pm_game_id msg = Some gid ∧
     pm_x msg = Some x ∧ pm_y msg = Some y ∧
     parse_orientation (pm_orientation msg) = Some o ∧
     r_land_claimed r = Some claimed ∧
     sv_recordings s !! gid = Some log ∧
     mv_player_id m = pid ∧ mv_x m = x ∧ mv_y m = y ∧ mv_orientation m = o ∧
     mv_land_claimed m = claimed ∧ mv_timestamp m = now ∧
     get_game_recording (Some gid) s' =
       (success "Game recording retrieved" None None None, Some (log ++ [m])) ∧
     ∀ k, k ≠ gid → sv_recordings s' !! k = sv_recordings s !! k).
Proof.
  intros Hr Hplace. pose proof (reachable_sound _ Hr) as Hs.
  pose proof Hplace as (_ & Hinv)%place_fence_returned.
  destruct (place_fence_log _ _ _ _ _ _ Hplace) as [?|Hlog]; [by left|right].
  destruct Hlog as (gid & g & cur & x & y & o & claimed & Hst & Hgid & Hx & Hy & Ho & Hcl
                    & Hg & Hcur & Hrec).
  destruct Hinv as [[Herr _]|Hinv]; [rewrite Herr in Hst; discriminate|].
  destruct Hinv as (gid0 & g0 & _ & _ & _ & _ & _ & _ & _ & _ & Hfind & _).
  apply find_game_Some in Hfind as (Hk & Hne & _).
  assert (gid0 = gid) as -> by congruence.
  destruct (sound_recordings _ Hs gid (mk_is_Some _ _ Hg)) as [log Hlog].
  exists gid, x, y, o, claimed, log,
    {| mv_timestamp := now; mv_player_id := pid; mv_player_name := p_name cur;
       mv_x := x; mv_y := y; mv_orientation := o; mv_land_claimed := claimed |}.
  split; [done|]. split; [done|]. split; [done|]. split; [done|]. split; [done|].
  split; [done|]. split; [done|].
  split; [reflexivity|]. split; [reflexivity|]. split; [reflexivity|].
  split; [reflexivity|]. split; [reflexivity|]. split; [reflexivity|]. split.
  - unfold get_game_recording. destruct (String.eqb_spec gid "") as [?|_]; [done|].
    by rewrite Hrec, lookup_insert_eq, Hlog.
  - intros k Hk'. by rewrite Hrec, lookup_insert_ne.
Qed.

(** X12. A finished game is frozen: once [game_over] is set, no handler
    execution clears it or touches the grid, a move or a timeout leaves the
    game exactly as it is, and every player seated afterwards either was
    seated before with the same score or has just joined with score 0. *)
Theorem finished_game_is_frozen o s u s' gid g g' :
  reachable s → step o s = Returned u s' → ¬ creates gid o →
  sv_games s !! gid = Some g → game_over g = true →
  sv_games s' !! gid = Some g' →
  game_over g' = true ∧ grid g' = grid g ∧
  (∀ p, p ∈ players g' → p ∈ players g ∨ p_score p = 0%Z) ∧
  match o with
  | PlaceFence _ _ _ | Timeout _ => g' = g
  | _ => True
  end.
Proof.
  intros Hr Hstep Hnew Hg Hover Hg'.
  assert (g' = g → game_over g' = true ∧ grid g' = grid g ∧
                   (∀ p, p ∈ players g' → p ∈ players g ∨ p_score p = 0%Z)) as Hsame.
  { intros ->. split; [done|]. split; [done|]. by left. }
  destruct o as [pid msg fresh draw now|pid msg now|pid msg now|pid msg|pid gid0|now];
    simpl in Hstep, Hnew.
  - destruct (create_game _ _ _ _ _ s) as [r s1| |] eqn:E; [|done..]. simplify_eq.
    apply create_game_returned in E as (_ & [[_ ->]|(g0 & _ & _ & _ & _ & Hgames & _)]).
    + destruct Hsame as (? & ? & ?); [congruence|done].
    + rewrite Hgames, lookup_insert_ne in Hg' by done.
      destruct Hsame as (? & ? & ?); [congruence|done].
  - destruct (join_game _ _ _ s) as [r s1| |] eqn:E; [|done..]. simplify_eq.
    apply join_game_returned in E as (_ & [[_ ->]|H]).
    { destruct Hsame as (? & ? & ?); [congruence|done]. }
    destruct H as (gid0 & g0 & g1 & Hfind & _ & _ & -> & _ & Hgames & _).
    apply find_game_Some in Hfind as (_ & _ & Hg0).
    rewrite Hgames, lookup_insert in Hg'. case_decide; simplify_eq.
    + simpl. split; [done|]. split; [done|]. split; [|done].
      intros p [Hp| ->%list_elem_of_singleton]%elem_of_app; [by left|by right].
    + destruct Hsame as (? & ? & ?); [congruence|done].
  - destruct (place_fence _ _ _ s) as [r s1| |] eqn:E; [|done..]. simplify_eq.
    assert (g' = g) as Heq.
    { apply place_fence_returned in E as (_ & [[_ ->]|H]); [congruence|].
      destruct H as (gid0 & g0 & cur & x0 & y0 & o & c0 & g3 & claimed & gf & Hfind & _ & _
                     & Hgo & _ & _ & _ & _ & _ & _ & _ & _ & _ & Hgames & _).
      apply find_game_Some in Hfind as (_ & _ & Hg0).
      rewrite Hgames, lookup_insert in Hg'. case_decide; simplify_eq; congruence. }
    destruct (Hsame Heq) as (? & ? & ?). done.
  - destruct (leave_game _ _ s) as [r s1| |] eqn:E; [|done..]. simplify_eq.
    apply leave_game_returned in E as (_ & _ & ->).
    destruct Hsame as (? & ? & ?); [congruence|done].
  - destruct (handle_player_disconnect _ _ s) as [r s1| |] eqn:E; [|done..]. simplify_eq.
    pose proof E as (_ & [[_ ->]|[H|H]])%handle_player_disconnect_returned.
    + destruct Hsame as (? & ? & ?); [congruence|done].
    + destruct H as (g0 & i & _ & _ & _ & _ & ->). simpl in Hg'.
      apply lookup_delete_Some in Hg' as [_ Hg'].
      destruct Hsame as (? & ? & ?); [congruence|done].
    + destruct H as (g0 & i & _ & Hg0 & Hi & Hlen & _).
      destruct (disconnect_game_fields _ _ _ _ _ _ E Hg0 Hlen i Hi)
        as (g1 & Hgames & _ & Hp & Hgr & _ & _ & _ & _ & Hres & _).
      rewrite Hgames, lookup_insert in Hg'. case_decide; simplify_eq.
      * split; [|split; [done|split; [|done]]].
        -- destruct Hres as [(last & _ & -> & _)|(_ & -> & _)]; done.
        -- intros p. rewrite Hp. intros Hin%list_elem_of_delete_inv. by left.
      * destruct Hsame as (? & ? & ?); [congruence|done].
  - assert (g' = g) as Heq.
    { apply check_inactivity_returned in Hstep as (_ & _ & _ & _ & _ & Hgames).
      rewrite Hgames, Hg in Hg'. simpl in Hg'. unfold timeout_game in Hg'.
      rewrite Hover in Hg'. congruence. }
    destruct (Hsame Heq) as (? & ? & ?). done.
Qed.

(** X13. A claim credits the value of the land: when a successful move
    claims its cell, the mover's score grows by the value of that cell,
    which is 1 for regular land, 2 for copper and 3 for gold, and no other
    score changes; a successful move that claims nothing changes no score. *)
Theorem claim_credits_land_value msg pid now s r s' gid g x y c :
  reachable s →
  place_fence msg pid now s = Returned r s' → status r = "success" →
  pm_game_id msg = Some gid → pm_x msg = Some x → pm_y msg = Some y →
  sv_games s !! gid = Some g → grid_at (grid g) x y = Some c →
  ∃ g' claimed,
    sv_games s' !! gid = Some g' ∧ r_land_claimed r = Some claimed ∧
    (claimed = true →
     value c = land_value (land c) ∧ (1 ≤ value c ≤ 3)%Z ∧
     players g' = alter (add_score (value c)) (current_player_index g) (players g) ∧
     score_sum (players g') = (score_sum (players g) + value c)%Z) ∧
    (claimed = false → players g' = players g).
Proof.
  intros Hr Hplace Hst Hgid Hmx Hmy Hg Hc. pose proof (reachable_sound _ Hr) as Hs.
  pose proof (reachable_ok _ Hr) as Hok.
  apply place_fence_returned in Hplace as (Hl & [[Herr _]|H]);
    [rewrite Herr in Hst; discriminate|].
  destruct H as (gid0 & g0 & cur & x0 & y0 & o & c0 & g3 & claimed & gf & Hfind & Hcur & Hid
                 & Hgo & Hx & Hy & Hin & Ho & Hc0 & Hf & Hmv & Hend & -> & Hgames & Hl').
  apply find_game_Some in Hfind as (Hk & Hne & Hg0).
  assert (gid0 = gid) as -> by congruence. assert (g0 = g) as -> by congruence.
  assert (x0 = x) as -> by congruence. assert (y0 = y) as -> by congruence.
  assert (c0 = c) as -> by congruence.
  destruct (move_game_inv _ _ _ _ _ _ _ _ _ Hin Hc Hmv) as (g1 & _ & _ & _ & Hps & _).
  assert (players gf = players g3) as Hpf.
  { destruct (check_game_over g3).
    - apply end_game_spec in Hend as (w & -> & _). done.
    - by destruct Hend as [-> _]. }
  destruct (sound_games _ Hs gid g Hg) as [Hgs _].
  pose proof (grid_Forall_at _ _ _ _ _ (sound_values _ Hgs) Hc) as Hval. simpl in Hval.
  exists gf, claimed. split; [by rewrite Hgames, lookup_insert_eq|]. split; [done|].
  rewrite Hpf, Hps. split.
  - intros ->. split; [done|]. split; [rewrite Hval; destruct (land c); simpl; lia|].
    split; [done|]. unfold score_sum. rewrite total_alter, Hcur. simpl. lia.
  - by intros ->.
Qed.

Lemma delete_forgets_identity pid i (ps : list player) p :
  NoDup (p_id <$> ps) → ps !! i = Some p → p_id p = pid →
  ∀ q, q ∈ delete i ps → p_id q ≠ pid.
Proof.
  intros Hnd Hp Hid q [j Hq]%list_elem_of_lookup Heq.
  assert (∃ j', j' ≠ i ∧ ps !! j' = Some q) as (j' & Hne & Hq').
  { destruct (decide (j < i)).
    - exists j. split; [lia|]. by rewrite list_lookup_delete_lt in Hq.
    - exists (S j). split; [lia|]. by rewrite list_lookup_delete_ge in Hq by lia. }
  apply Hne. eapply (NoDup_lookup _ j' i pid Hnd).
  - by rewrite list_lookup_fmap, Hq'; simpl; rewrite Heq.
  - by rewrite list_lookup_fmap, Hp; simpl; rewrite Hid.
Qed.

(** X14. A departure is not repeated: after [handle_player_disconnect] has
    removed a player, or the game, a second call for the same player and
    game is answered with an error, "Game not found" or "Player not in
    game", and changes nothing. *)
Theorem departure_not_repeated pid gid s r s' :
  reachable s →
  handle_player_disconnect pid gid s = Returned r s' → status r = "success" →
  ∃ r2, handle_player_disconnect pid gid s' = Returned r2 s' ∧ status r2 = "error" ∧
        (message r2 = "Game not found" ∨ message r2 = "Player not in game").
Proof.
  intros Hr Hdis Hst. pose proof (reachable_sound _ Hr) as Hs.
  pose proof Hdis as (Hl & [[Herr _]|[H|H]])%handle_player_disconnect_returned.
  - rewrite Herr in Hst. discriminate.
  - destruct H as (g & i & Hg & Hi & Hlen & -> & ->).
    eexists. unfold handle_player_disconnect, with_lock. simpl. rewrite Hl.
    rewrite lookup_delete_eq. split.
    { f_equal. by destruct s; simplify_eq/=. }
    split; [done|by left].
  - destruct H as (g & i & _ & Hg & Hi & Hlen & _).
    destruct (disconnect_game_fields _ _ _ _ _ _ Hdis Hg Hlen i Hi)
      as (g' & Hgames & -> & Hp & _ & _ & _ & _ & _ & _ & _ & _ & Hl').
    destruct (sound_games _ Hs gid g Hg) as [Hgs _].
    pose proof Hi as (p & Hpi & Hid & _)%find_player_index_Some.
    assert (find_player_index pid (players g') = None) as Hnone.
    { unfold find_player_index.
      destruct (list_find (λ q, p_id q = pid) (players g')) as [[j q]|] eqn:Hf; [|done].
      apply list_find_Some in Hf as (Hq & Hqid & _). exfalso.
      apply (delete_forgets_identity pid i (players g) p (sound_ids _ Hgs) Hpi Hid q);
        [|done]. rewrite <-Hp. by eapply list_elem_of_lookup_2. }
    eexists. unfold handle_player_disconnect, with_lock. rewrite Hl'. simpl.
    rewrite Hgames, lookup_insert_eq, Hnone. split.
    { f_equal. by destruct s'; simplify_eq/=. }
    split; [done|by right].
Qed.

Lemma timeout_game_again now g g' :
  timeout_game now g = Some g' → timeout_game now g' = Some g'.
Proof.
  unfold timeout_game. destruct (game_over g) eqn:Hgo.
  - intros [= <-]. by rewrite Hgo.
  - destruct (now - turn_start_time g >? 60)%Z eqn:Ht.
    + destruct (players g !! current_player_index g); [|done]. intros [= <-]. simpl.
      rewrite Hgo. by replace (now - now >? 60)%Z with false by lia.
    + intros [= <-]. by rewrite Hgo, Ht.
Qed.

(** X15. A round of the inactivity check is idempotent: a second round at
    the same clock reading returns and changes nothing, because the first
    one restarted the turn timer of every game it advanced. *)
Theorem inactivity_check_idempotent now s u s' :
  check_inactivity now s = Returned u s' →
  check_inactivity now s' = Returned () s'.
Proof.
  intros (Hl & Hl' & _ & _ & Hall & Hgames)%check_inactivity_returned.
  assert (∀ k g', sv_games s' !! k = Some g' → timeout_game now g' = Some g') as Hfix.
  { intros k g'. rewrite Hgames. destruct (sv_games s !! k) as [g|] eqn:Hg; [|done].
    simpl. apply timeout_game_again. }
  unfold check_inactivity, with_lock. rewrite Hl'. simpl.
  rewrite decide_True.
  - f_equal. assert (omap (timeout_game now) (sv_games s') = sv_games s') as ->.
    { apply map_eq. intros k. rewrite lookup_omap.
      destruct (sv_games s' !! k) as [g'|] eqn:Hg'; [|done]. simpl. by eapply Hfix. }
    by destruct s'; simplify_eq/=.
  - intros k g' Hg'. rewrite (Hfix k g' Hg'). by eexists.
Qed.

(** X16. The turn after a departure: when the leaver sits after the turn
    holder, the turn holder keeps the turn; when the turn holder leaves, the
    turn goes to the player who sat next, the first one if the leaver sat
    last. *)
Theorem turn_after_departure pid gid s r s' g i :
  reachable s → handle_player_disconnect pid gid s = Returned r s' →
  sv_games s !! gid = Some g → 2 ≤ length (players g) →
  find_player_index pid (players g) = Some i →
  current_player_index g ≤ i →
  ∃ g', sv_games s' !! gid = Some g' ∧
    players g' !! current_player_index g' =
      players g !! (if decide (i = current_player_index g)
                    then (current_player_index g + 1) `mod` length (players g)
                    else current_player_index g).
Proof.
  intros Hr Hdis Hg Hlen Hi Hle.
  destruct (disconnect_game_fields _ _ _ _ _ _ Hdis Hg Hlen i Hi)
    as (g' & Hgames & _ & Hp & _ & _ & _ & _ & Hidx & _).
  pose proof Hi as (p & Hpi & _)%find_player_index_Some.
  pose proof (lookup_lt_Some _ _ _ Hpi) as Hilt.
  assert (length (delete i (players g)) = length (players g) - 1) as Hdl
    by (rewrite length_delete by eauto; done).
  exists g'. split; [by rewrite Hgames, lookup_insert_eq|].
  rewrite Hidx, Hp, Hdl. case_decide as Hd.
  - subst i. destruct (decide (current_player_index g = length (players g) - 1)) as [He|He].
    + rewrite (proj2 (Nat.leb_le _ _)) by lia.
      replace (current_player_index g + 1) with (length (players g)) by lia.
      rewrite Nat.Div0.mod_same. rewrite list_lookup_delete_lt by lia. done.
    + rewrite (proj2 (Nat.leb_gt _ _)) by lia.
      rewrite Nat.mod_small by lia.
      rewrite list_lookup_delete_ge by lia. f_equal. lia.
  - rewrite (proj2 (Nat.leb_gt _ _)) by lia.
    by rewrite list_lookup_delete_lt by lia.
Qed.

(** ** The class [Game] *)

Lemma game_claim_land_spec idx x y g1 ps c1 cur :
  grid_at g1 x y = Some c1 → ps !! idx = Some cur →
  GameClass.claim_land idx x y g1 ps =
    Some (if all_fences c1 && bool_decide (owner c1 = None)
          then (grid_alter (set_owner (p_id cur)) x y g1,
                alter (add_score (GameClass.points c1)) idx ps, true)
          else (g1, ps, false)).
Proof.
  unfold GameClass.claim_land, check_land_enclosed. intros -> ->. simpl. by case_match.
Qed.

Lemma game_end_game_fields self self' :
  GameClass.end_game self = Some self' →
  ∃ w, self' = with_result (Some w) self.
Proof.
  unfold GameClass.end_game. destruct (max_score (players self)); [|done]. simpl.
  destruct (winners _ _) as [|a [|b l]]; intros [= <-]; by eexists.
Qed.

(** A successful [Game.place_fence], step by step. *)
Lemma game_place_fence_success self pid x y ori now cl self' :
  GameClass.place_fence self pid x y ori now = Some (GameClass.Success cl, self') →
  ∃ cur o c g1 self2,
    players self !! current_player_index self = Some cur ∧ p_id cur = pid ∧
    game_over self = false ∧ in_grid (grid_size self) x y ∧
    parse_orientation (Some ori) = Some o ∧
    grid_at (grid self) x y = Some c ∧ fence o c = false ∧
    put_fence (grid_size self) o x y (grid self) = Some g1 ∧
    cl = all_fences (set_fence o c) && bool_decide (owner c = None) ∧
    grid self2 = (if cl then grid_alter (set_owner pid) x y g1 else g1) ∧
    players self2 =
      (if cl then alter (add_score (GameClass.points c)) (current_player_index self)
                   (players self)
       else players self) ∧
    current_player_index self2 =
      (if cl then current_player_index self
       else (current_player_index self + 1) `mod` length (players self)) ∧
    game_over self2 = false ∧ winner self2 = winner self ∧
    grid_size self2 = grid_size self ∧ num_players self2 = num_players self ∧
    (if GameClass.check_game_over self2
     then GameClass.end_game self2 = Some self' else self' = self2).
Proof.
  intros Hres. unfold GameClass.place_fence in Hres.
  remember (parse_orientation (Some ori)) as po eqn:Ho. symmetry in Ho.
  destruct (players self !! current_player_index self) as [cur|] eqn:Hcur;
    [|discriminate Hres].
  simpl in Hres.
  destruct (String.eqb_spec (p_id cur) pid) as [Hid|Hid]; simpl in Hres;
    [|discriminate Hres].
  destruct (game_over self) eqn:Hgo; [discriminate Hres|].
  destruct ((x <? 0)%Z || (x >=? grid_size self)%Z || (y <? 0)%Z || (y >=? grid_size self)%Z)
    eqn:Hb; [discriminate Hres|].
  destruct po as [o|]; [|discriminate Hres].
  destruct (grid_at (grid self) x y) as [c|] eqn:Hc; [|discriminate Hres]. simpl in Hres.
  destruct (fence o c) eqn:Hf; [discriminate Hres|].
  destruct (put_fence (grid_size self) o x y (grid self)) as [g1|] eqn:Hp;
    [|discriminate Hres].
  simpl in Hres.
  assert (in_grid (grid_size self) x y) as Hin by (unfold in_grid; lia).
  pose proof (put_fence_target _ _ _ _ _ _ _ Hin Hc Hp) as Ht.
  rewrite (game_claim_land_spec _ _ _ _ _ _ cur Ht Hcur) in Hres.
  rewrite owner_set_fence in Hres.
  assert (GameClass.points (set_fence o c) = GameClass.points c) as Hpts by (by destruct o).
  rewrite Hpts in Hres. exists cur, o, c, g1.
  destruct (all_fences (set_fence o c) && bool_decide (owner c = None)) eqn:Hcl;
    simpl in Hres.
  - set (self2 := with_last_activity now
                    (with_players
                       (alter (add_score (GameClass.points c))
                          (current_player_index self) (players self))
                       (with_grid (grid_alter (set_owner (p_id cur)) x y g1) self))) in *.
    exists self2.
    assert (cl = true ∧
            if GameClass.check_game_over self2
            then GameClass.end_game self2 = Some self' else self' = self2) as [-> Hfin].
    { destruct (GameClass.check_game_over self2); [|by simplify_eq/=].
      destruct (GameClass.end_game self2); by simplify_eq/=. }
    rewrite <-Hid. repeat (split; [done|]). done.
  - set (self2 := with_index
                    ((current_player_index self + 1) `mod` length (players self))
                    (with_last_activity now
                       (with_players (players self) (with_grid g1 self)))) in *.
    exists self2.
    assert (cl = false ∧
            if GameClass.check_game_over self2
            then GameClass.end_game self2 = Some self' else self' = self2) as [-> Hfin].
    { destruct (GameClass.check_game_over self2); [|by simplify_eq/=].
      destruct (GameClass.end_game self2); by simplify_eq/=. }
    repeat (split; [done|]). done.
Qed.

Lemma game_place_fence_error self pid x y ori now m self' :
  GameClass.place_fence self pid x y ori now = Some (GameClass.Error m, self') →
  self' = self.
Proof.
  intros Hres. unfold GameClass.place_fence in Hres.
  remember (parse_orientation (Some ori)) as po eqn:Ho.
  destruct (players self !! current_player_index self) as [cur|]; [|discriminate Hres].
  simpl in Hres.
  destruct (negb _); [by simplify_eq|]. destruct (game_over self); [by simplify_eq|].
  destruct (_ || _)%bool; [by simplify_eq|]. destruct po as [o|]; [|by simplify_eq].
  destruct (grid_at (grid self) x y) as [c|]; [|discriminate Hres]. simpl in Hres.
  destruct (fence o c); [by simplify_eq|].
  destruct (put_fence _ _ _ _ _) as [g1|]; [|discriminate Hres]. simpl in Hres.
  destruct (GameClass.claim_land _ _ _ _ _) as [[[g2 ps] cl]|]; [|discriminate Hres].
  simpl in Hres. destruct (GameClass.check_game_over _); [|by simplify_eq].
  destruct (GameClass.end_game _); by simplify_eq/=.
Qed.

Lemma grid_forallb_at (f : cell → bool) gr x y c :
  forallb (forallb f) gr = true → grid_at gr x y = Some c → f c = true.
Proof.
  intros Hall (row & Hrow & Hc)%grid_at_elem.
  rewrite forallb_forall in Hall.
  assert (forallb f row = true) as Hr.
  { apply Hall. apply list_elem_of_In. by eapply list_elem_of_lookup_2. }
  rewrite forallb_forall in Hr. apply Hr, list_elem_of_In. by eapply list_elem_of_lookup_2.
Qed.

Lemma grid_forallb_false (f : cell → bool) gr x y c :
  grid_at gr x y = Some c → f c = false → forallb (forallb f) gr = false.
Proof.
  intros Hc Hf. apply not_true_iff_false. intros Hall.
  rewrite (grid_forallb_at f gr x y c Hall Hc) in Hf. discriminate.
Qed.

(** X17. In the class [Game] a game ends by play only when every cell is
    owned: if a call of [place_fence] turns [game_over] on, every cell of
    the grid has its four fences and an owner. *)
Theorem game_ends_when_all_owned self pid x y ori now res self' :
  GameClass.place_fence self pid x y ori now = Some (res, self') →
  game_over self = false → game_over self' = true →
  ∀ x' y' c, grid_at (grid self') x' y' = Some c →
    all_fences c = true ∧ is_Some (owner c).
Proof.
  intros Hres Hbefore Hafter x' y' c Hc. destruct res as [m|cl].
  { apply game_place_fence_error in Hres as ->. congruence. }
  apply game_place_fence_success in Hres
    as (cur & o & c0 & g1 & self2 & _ & _ & _ & _ & _ & _ & _ & _ & _ & _ & _ & _ & Hgo2
        & _ & _ & _ & Hfin).
  destruct (GameClass.check_game_over self2) eqn:Hcg; [|congruence].
  apply game_end_game_fields in Hfin as (w & ->). simpl in Hc.
  pose proof (grid_forallb_at _ _ _ _ _ Hcg Hc) as Hcell. simpl in Hcell.
  destruct (all_fences c); [|done]. split; [done|].
  destruct (owner c); [by eexists|]. done.
Qed.

(** X18. Turn rotation and scoring in the class [Game]: a successful
    [place_fence] keeps the seats; when it claims the cell the turn stays
    and the mover's score grows by 1 for regular land and by 2 otherwise,
    and when it does not the turn passes to the next seat, modulo the number
    of players, and no score changes. *)
Theorem game_turn_rotation self pid x y ori now cl self' :
  GameClass.place_fence self pid x y ori now = Some (GameClass.Success cl, self') →
  ∃ c, grid_at (grid self) x y = Some c ∧
    length (players self') = length (players self) ∧
    current_player_index self' =
      (if cl then current_player_index self
       else (current_player_index self + 1) `mod` length (players self)) ∧
    players self' =
      (if cl
       then alter (add_score (if decide (land c = regular) then 1 else 2)%Z)
              (current_player_index self) (players self)
       else players self).
Proof.
  intros (cur & o & c & g1 & self2 & _ & _ & _ & _ & _ & Hc & _ & _ & _ & _ & Hps & Hidx
          & _ & _ & _ & _ & Hfin)%game_place_fence_success.
  assert (players self' = players self2 ∧
          current_player_index self' = current_player_index self2) as [-> ->].
  { destruct (GameClass.check_game_over self2); [|by subst].
    by apply game_end_game_fields in Hfin as (w & ->). }
  exists c. split; [done|]. rewrite Hps, Hidx. split; [|split; [done|]].
  - destruct cl; [by rewrite length_alter|done].
  - destruct cl; [|done]. unfold GameClass.points. by destruct (land c).
Qed.

(** X19. In the class [Game] a cell that has its four fences and no owner
    stays that way, and the game then never ends by play: every later call
    of [place_fence] leaves the cell enclosed and unowned and [game_over] as
    it was. *)
Theorem game_unclaimed_enclosure_stays self pid x y ori now res self' x0 y0 c0 :
  (0 ≤ x0)%Z → (0 ≤ y0)%Z →
  grid_at (grid self) x0 y0 = Some c0 → all_fences c0 = true → owner c0 = None →
  GameClass.place_fence self pid x y ori now = Some (res, self') →
  (∃ c0', grid_at (grid self') x0 y0 = Some c0' ∧
          all_fences c0' = true ∧ owner c0' = None) ∧
  game_over self' = game_over self.
Proof.
  intros Hx0 Hy0 Hc0 Hall Hown Hres. destruct res as [m|cl].
  { apply game_place_fence_error in Hres as ->. split; [by exists c0|done]. }
  apply game_place_fence_success in Hres
    as (cur & o & c & g1 & self2 & _ & _ & Hgo & Hin & _ & Hc & Hf & Hp & _ & Hgr & _ & _
        & Hgo2 & _ & _ & _ & Hfin).
  assert (¬ (x = x0 ∧ y = y0)) as Hne.
  { intros [-> ->]. assert (c = c0) as -> by congruence.
    unfold all_fences in Hall. destruct o; simpl in Hf; rewrite Hf in Hall;
      simpl in Hall; try discriminate; rewrite ?andb_false_r in Hall; discriminate. }
  assert (∃ c1, grid_at g1 x0 y0 = Some c1 ∧ all_fences c1 = true ∧ owner c1 = None)
    as (c1 & Hc1 & Hall1 & Hown1).
  { rewrite (put_fence_at _ _ _ _ _ _ x0 y0 Hin Hx0 Hy0 Hp), Hc0.
    rewrite decide_False by done.
    destruct (adjacent _ _ _ _) as [[[ax ay] ao]|]; [|by exists c0].
    case_decide; [|by exists c0]. exists (set_fence ao c0). split; [done|].
    split; [by apply all_fences_set_fence|by rewrite owner_set_fence]. }
  assert (grid_at (grid self2) x0 y0 = Some c1) as Hc2.
  { rewrite Hgr. destruct cl; [|done]. unfold in_grid in Hin.
    rewrite grid_at_alter by lia. by rewrite decide_False. }
  assert (GameClass.check_game_over self2 = false) as Hcg.
  { unfold GameClass.check_game_over. eapply grid_forallb_false; [exact Hc2|].
    simpl. by rewrite Hall1, Hown1. }
  rewrite Hcg in Hfin. subst self'. split; [by exists c1|congruence].
Qed.

Lemma game_remove_player_fields self pid self' i :
  find_player_index pid (players self) = Some i → 2 ≤ length (players self) →
  GameClass.remove_player self pid = (GameClass.Removed, self') →
  players self' = delete i (players self) ∧ grid self' = grid self ∧
  current_player_index self' =
    (if (length (delete i (players self)) <=? current_player_index self)%nat
     then 0 else current_player_index self) ∧
  ((∃ last, delete i (players self) = [last] ∧
            game_over self' = true ∧ winner self' = Some (p_id last)) ∨
   (length (delete i (players self)) ≠ 1 ∧
    game_over self' = game_over self ∧ winner self' = winner self)).
Proof.
  intros Hi Hlen. unfold GameClass.remove_player. rewrite Hi.
  destruct (length (players self) <=? 1)%nat eqn:Hle; [apply Nat.leb_le in Hle; lia|].
  intros [= <-].
  destruct (delete i (players self)) as [|a [|b l]] eqn:Hd; simpl;
    repeat case_match; simpl; repeat split; eauto; right; repeat split; eauto.
Qed.

(** X20. [Game.remove_player] removes a seated player once: with at least
    two players seated and no identity seated twice, it answers [True],
    takes exactly that player's seat away, keeps the turn index inside the
    shorter roster, ends the game in favour of the last player when one is
    left, and a second call for the same player answers [False] and changes
    nothing. *)
Theorem game_remove_player_once self pid self' :
  NoDup (p_id <$> players self) →
  current_player_index self < length (players self) →
  GameClass.remove_player self pid = (GameClass.Removed, self') →
  length (players self') = length (players self) - 1 ∧
  (∀ q, q ∈ players self' → q ∈ players self ∧ p_id q ≠ pid) ∧
  current_player_index self' < length (players self') ∧
  (∀ last, players self' = [last] →
     game_over self' = true ∧ winner self' = Some (p_id last)) ∧
  GameClass.remove_player self' pid = (GameClass.NotSeated, self').
Proof.
  intros Hnd Hidx Hrem.
  assert (∃ i, find_player_index pid (players self) = Some i ∧
               2 ≤ length (players self)) as (i & Hi & Hlen).
  { unfold GameClass.remove_player in Hrem.
    destruct (find_player_index pid (players self)) as [i|]; [|discriminate Hrem].
    exists i. split; [done|].
    destruct (length (players self) <=? 1)%nat eqn:Hle; [discriminate Hrem|].
    apply Nat.leb_gt in Hle. lia. }
  destruct (game_remove_player_fields _ _ _ _ Hi Hlen Hrem) as (Hp & _ & Hcur & Hres).
  pose proof Hi as (p & Hpi & Hid & _)%find_player_index_Some.
  pose proof (lookup_lt_Some _ _ _ Hpi) as Hilt.
  assert (length (delete i (players self)) = length (players self) - 1) as Hdl
    by (rewrite length_delete by eauto; done).
  pose proof (delete_forgets_identity pid i (players self) p Hnd Hpi Hid) as Hgone.
  rewrite Hp, Hcur, Hdl. split; [done|]. split.
  { intros q Hq. split; [by eapply list_elem_of_delete_inv|by apply Hgone]. }
  split.
  { destruct (length (players self) - 1 <=? current_player_index self)%nat eqn:Hc;
      [lia|apply Nat.leb_gt in Hc; lia]. }
  split.
  { intros last Hlast. destruct Hres as [(last' & Hl' & ? & ?)|(Hl' & _)].
    - rewrite Hlast in Hl'. by injection Hl' as <-.
    - rewrite Hlast in Hl'. done. }
  unfold GameClass.remove_player.
  assert (find_player_index pid (players self') = None) as ->; [|done].
  unfold find_player_index.
  destruct (list_find (λ q, p_id q = pid) (players self')) as [[j q]|] eqn:Hf; [|done].
  apply list_find_Some in Hf as (Hq & Hqid & _). exfalso.
  apply (Hgone q); [|done]. rewrite <-Hp. by eapply list_elem_of_lookup_2.
Qed.

(** X21. [Game.add_player] seats a player exactly when a seat is free and
    the identity is not seated yet, in the last seat and with score 0;
    otherwise it answers [False] and changes nothing. It never lets the
    roster exceed [num_players] nor an identity sit twice. *)
Theorem game_add_player_capacity self pid name now ok self' :
  GameClass.add_player self pid name now = (ok, self') →
  (ok = true ↔
     (Z.of_nat (length (players self)) < num_players self)%Z ∧
     pid ∉ p_id <$> players self) ∧
  (ok = false → self' = self) ∧
  (ok = true →
   players self' = players self ++ [{| p_id := pid; p_name := name; p_score := 0 |}] ∧
   grid self' = grid self ∧ current_player_index self' = current_player_index self) ∧
  ((Z.of_nat (length (players self)) ≤ num_players self)%Z →
   (Z.of_nat (length (players self')) ≤ num_players self')%Z) ∧
  (NoDup (p_id <$> players self) → NoDup (p_id <$> players self')).
Proof.
  unfold GameClass.add_player.
  destruct (Z.of_nat (length (players self)) >=? num_players self)%Z eqn:Hfull.
  { intros [= <- <-]. split; [split; [done|lia]|]. by repeat split. }
  destruct (existsb _ (players self)) eqn:Hex.
  { intros [= <- <-]. split; [|by repeat split]. split; [done|]. intros [_ Hnew].
    exfalso. apply Hnew. apply existsb_exists in Hex as (p & Hp & Heq).
    apply String.eqb_eq in Heq as <-. apply list_elem_of_fmap_2. by apply list_elem_of_In. }
  assert (pid ∉ p_id <$> players self) as Hnew.
  { intros (p & -> & Hp)%list_elem_of_fmap. apply not_true_iff_false in Hex. apply Hex.
    apply existsb_exists. exists p. split; [by apply list_elem_of_In|].
    by apply String.eqb_eq. }
  intros [= <- <-]. simpl. split; [split; [intros _; split; [lia|done]|done]|].
  split; [done|]. split; [done|]. split.
  - rewrite length_app. simpl. lia.
  - intros Hnd. rewrite fmap_app. simpl. apply NoDup_app. split; [done|]. split.
    + intros k Hk ->%list_elem_of_singleton. by apply Hnew.
    + apply NoDup_singleton.
Qed.

(** ** The further properties at sample inputs *)

Lemma sample_two_seated :
  let s := state_after two_seated in
  reachable s ∧ sv_games s !! "g" = Some (game_g s).
Proof.
  intros s. split; [exists two_seated; vm_compute; reflexivity|vm_compute; reflexivity].
Qed.

Lemma shared_fences_agree_witness :
  let s := state_after enclosure_start in
  let c := cell_g s 0 0 in
  let c' := cell_g s 1 0 in
  (reachable s ∧ sv_games s !! "g" = Some (game_g s) ∧ (0 ≤ 0)%Z ∧ (0 ≤ 0)%Z ∧
   grid_at (grid (game_g s)) 0 0 = Some c) ∧
  (grid_at (grid (game_g s)) (0 + 1) 0 = Some c' → east c = west c') ∧
  (grid_at (grid (game_g s)) 0 (0 + 1) = Some c' → south c = north c').
Proof.
  intros s c c'.
  assert (reachable s) as Hr by (exists enclosure_start; vm_compute; reflexivity).
  assert (sv_games s !! "g" = Some (game_g s)) as Hg by (vm_compute; reflexivity).
  assert (0 ≤ 0)%Z as H0 by lia.
  assert (grid_at (grid (game_g s)) 0 0 = Some c) as Hc by (vm_compute; reflexivity).
  split; [exact (conj Hr (conj Hg (conj H0 (conj H0 Hc))))|].
  exact (shared_fences_agree s "g" (game_g s) 0 0 c c' Hr Hg H0 H0 Hc).
Defined.



Lemma handlers_never_raise_witness :
  let s := state_after two_seated in
  reachable s ∧ step (PlaceFence "A" (fence_at 0 0 "north") 2%Z) s ≠ Raised IndexError.
Proof.
  intros s. destruct sample_two_seated as [Hr _].
  split; [exact Hr|]. exact (handlers_never_raise s _ IndexError Hr).
Defined.

Lemma cells_persist_witness :
  let s := state_after enclosure_start in
  let o := PlaceFence "A" (fence_at 0 0 "north") 6%Z in
  let s' := state_of (step o s) in
  let c := cell_g s 1 0 in
  (reachable s ∧ step o s = Returned () s' ∧ ¬ creates "g" o ∧
   sv_games s !! "g" = Some (game_g s) ∧ sv_games s' !! "g" = Some (game_g s') ∧
   (0 ≤ 1)%Z ∧ (0 ≤ 0)%Z ∧ grid_at (grid (game_g s)) 1 0 = Some c) ∧
  ∃ c', grid_at (grid (game_g s')) 1 0 = Some c' ∧ cell_kept c c'.
Proof.
  intros s o s' c.
  assert (reachable s) as Hr by (exists enclosure_start; vm_compute; reflexivity).
  assert (step o s = Returned () s') as Hstep by (vm_compute; reflexivity).
  assert (¬ creates "g" o) as Hnew by (intros []).
  assert (sv_games s !! "g" = Some (game_g s)) as Hg by (vm_compute; reflexivity).
  assert (sv_games s' !! "g" = Some (game_g s')) as Hg' by (vm_compute; reflexivity).
  assert (0 ≤ 1)%Z as H1 by lia. assert (0 ≤ 0)%Z as H0 by lia.
  assert (grid_at (grid (game_g s)) 1 0 = Some c) as Hc by (vm_compute; reflexivity).
  split; [exact (conj Hr (conj Hstep (conj Hnew (conj Hg (conj Hg' (conj H1 (conj H0 Hc)))))))|].
  exact (cells_persist o s () s' "g" _ _ 1 0 c Hr Hstep Hnew Hg Hg' H1 H0 Hc).
Defined.

Lemma owned_cells_are_enclosed_witness :
  let s := state_after enclosure_trace in
  let c := cell_g s 0 0 in
  (reachable s ∧ sv_games s !! "g" = Some (game_g s) ∧
   grid_at (grid (game_g s)) 0 0 = Some c ∧ owner c = Some "A") ∧
  all_fences c = true.
Proof.
  intros s c.
  assert (reachable s) as Hr by (exists enclosure_trace; vm_compute; reflexivity).
  assert (sv_games s !! "g" = Some (game_g s)) as Hg by (vm_compute; reflexivity).
  assert (grid_at (grid (game_g s)) 0 0 = Some c) as Hc by (vm_compute; reflexivity).
  assert (owner c = Some "A") as Hw by (vm_compute; reflexivity).
  split; [exact (conj Hr (conj Hg (conj Hc Hw)))|].
  exact (owned_cells_are_enclosed s "g" _ 0 0 c "A" Hr Hg Hc Hw).
Defined.

Lemma final_move_tallies_witness :
  let s := state_after before_last_move in
  let msg := fence_at 1 1 "south" in
  let o := place_fence msg "B" 13%Z s in
  let s' := state_of o in
  let g' := game_g s' in
  (reachable s ∧ o = Returned (response_of o) s' ∧ status (response_of o) = "success" ∧
   pm_game_id msg = Some "g" ∧ sv_games s' !! "g" = Some g') ∧
  (check_game_over g' = false → sv_players s' = sv_players s) ∧
  (check_game_over g' = true →
   (∀ p, p ∈ players g' → is_Some (sv_players s !! p_id p)) ∧
   (∀ k, k ∉ p_id <$> players g' → sv_players s' !! k = sv_players s !! k) ∧
   ((∃ i pw, players g' !! i = Some pw ∧
       (∀ j q, players g' !! j = Some q → j ≠ i → (p_score q < p_score pw)%Z) ∧
       winner g' = Some (p_id pw) ∧
       ∀ p, p ∈ players g' →
         sv_players s' !! p_id p =
           (if decide (p_id p = p_id pw) then bump_wins else bump_losses)
             <$> sv_players s !! p_id p) ∨
    (∃ i j p q, i ≠ j ∧ players g' !! i = Some p ∧ players g' !! j = Some q ∧
       p_score p = p_score q ∧
       (∀ k t, players g' !! k = Some t → (p_score t ≤ p_score p)%Z) ∧
       winner g' = Some "draw" ∧
       ∀ p, p ∈ players g' →
         sv_players s' !! p_id p = bump_draws <$> sv_players s !! p_id p))).
Proof.
  intros s msg o s' g'.
  assert (reachable s) as Hr by (exists before_last_move; vm_compute; reflexivity).
  assert (o = Returned (response_of o) s') as Ho by (vm_compute; reflexivity).
  assert (status (response_of o) = "success") as Hst by (vm_compute; reflexivity).
  assert (sv_games s' !! "g" = Some g') as Hg by (vm_compute; reflexivity).
  split; [exact (conj Hr (conj Ho (conj Hst (conj eq_refl Hg))))|].
  exact (final_move_tallies msg "B" 13%Z s _ s' "g" g' Hr Ho Hst eq_refl Hg).
Defined.

Lemma join_keeps_seats_witness :
  let s := state_after (opened 2) in
  let o := join_game join_g "B" 1%Z s in
  let r := response_of o in
  let s' := state_of o in
  let g := game_g s in
  (o = Returned r s' ∧ jm_game_id join_g = Some "g" ∧ "g" ≠ "" ∧
   sv_games s !! "g" = Some g) ∧
  ∃ g', sv_games s' !! "g" = Some g' ∧
    (∀ i p, players g !! i = Some p → players g' !! i = Some p) ∧
    current_player_index g' = current_player_index g ∧ grid g' = grid g ∧
    (status r = "success" →
     (Z.of_nat (length (players g)) < num_players g)%Z ∧
     ∃ name, players g' = players g ++ [{| p_id := "B"; p_name := name; p_score := 0 |}]) ∧
    ((num_players g ≤ Z.of_nat (length (players g)))%Z →
     r = error "Game is full" ∧ s' = s).
Proof.
  intros s o r s' g.
  assert (o = Returned r s') as Ho by (vm_compute; reflexivity).
  assert ("g" ≠ "") as Hne by discriminate.
  assert (sv_games s !! "g" = Some g) as Hg by (vm_compute; reflexivity).
  split; [exact (conj Ho (conj eq_refl (conj Hne Hg)))|].
  exact (join_keeps_seats join_g "B" 1%Z s r s' "g" g Ho eq_refl Hne Hg).
Defined.


Lemma seated_players_have_stats_witness :
  let s := state_after two_seated in
  let p := new_player "B" "Player_B" in
  (reachable s ∧ sv_games s !! "g" = Some (game_g s) ∧ p ∈ players (game_g s)) ∧
  ∃ entry, sv_players s !! p_id p = Some entry ∧
    get_stats (p_id p) s =
      Returned (success "Player statistics" None None None, Some entry) s.
Proof.
  intros s p. destruct sample_two_seated as [Hr Hg].
  assert (players (game_g s) = [new_player "A" "Player_A"; p]) as Hps
    by (vm_compute; reflexivity).
  assert (p ∈ players (game_g s)) as Hp.
  { rewrite Hps. apply list_elem_of_further, list_elem_of_here. }
  split; [exact (conj Hr (conj Hg Hp))|].
  exact (seated_players_have_stats s "g" _ p Hr Hg Hp).
Defined.

Lemma move_log_appended_witness :
  let s := state_after two_seated in
  let msg := fence_at 0 0 "north" in
  let o := place_fence msg "A" 2%Z s in
  let r := response_of o in
  let s' := state_of o in
  (reachable s ∧ o = Returned r s') ∧
  ((status r = "error" ∧ sv_recordings s' = sv_recordings s) ∨
   (∃ gid x y o claimed log m,
      status r = "success" ∧ pm_game_id msg = Some gid ∧
      pm_x msg = Some x ∧ pm_y msg = Some y ∧
      parse_orientation (pm_orientation msg) = Some o ∧
      r_land_claimed r = Some claimed ∧
      sv_recordings s !! gid = Some log ∧
      mv_player_id m = "A" ∧ mv_x m = x ∧ mv_y m = y ∧ mv_orientation m = o ∧
      mv_land_claimed m = claimed ∧ mv_timestamp m = 2%Z ∧
      get_game_recording (Some gid) s' =
        (success "Game recording retrieved" None None None, Some (log ++ [m])) ∧
      ∀ k, k ≠ gid → sv_recordings s' !! k = sv_recordings s !! k)).
Proof.
  intros s msg o r s'. destruct sample_two_seated as [Hr _].
  assert (o = Returned r s') as Ho by (vm_compute; reflexivity).
  split; [exact (conj Hr Ho)|].
  exact (move_log_appended msg "A" 2%Z s r s' Hr Ho).
Defined.

Lemma finished_game_is_frozen_witness :
  let s := state_after enclosure_trace in
  let o := PlaceFence "A" (fence_at 0 0 "north") 20%Z in
  let s' := state_of (step o s) in
  let g := game_g s in
  let g' := game_g s' in
  (reachable s ∧ step o s = Returned () s' ∧ ¬ creates "g" o ∧
   sv_games s !! "g" = Some g ∧ game_over g = true ∧ sv_games s' !! "g" = Some g') ∧
  game_over g' = true ∧ grid g' = grid g ∧
  (∀ p, p ∈ players g' → p ∈ players g ∨ p_score p = 0%Z) ∧ g' = g.
Proof.
  intros s o s' g g'.
  assert (reachable s) as Hr by (exists enclosure_trace; vm_compute; reflexivity).
  assert (step o s = Returned () s') as Hstep by (vm_compute; reflexivity).
  assert (¬ creates "g" o) as Hnew by (intros []).
  assert (sv_games s !! "g" = Some g) as Hg by (vm_compute; reflexivity).
  assert (game_over g = true) as Hover by (vm_compute; reflexivity).
  assert (sv_games s' !! "g" = Some g') as Hg' by (vm_compute; reflexivity).
  split; [exact (conj Hr (conj Hstep (conj Hnew (conj Hg (conj Hover Hg')))))|].
  exact (finished_game_is_frozen o s () s' "g" g g' Hr Hstep Hnew Hg Hover Hg').
Defined.

Lemma claim_credits_land_value_witness :
  let s := state_after before_last_move in
  let msg := fence_at 1 1 "south" in
  let o := place_fence msg "B" 13%Z s in
  let r := response_of o in
  let s' := state_of o in
  let g := game_g s in
  let c := cell_g s 1 1 in
  (reachable s ∧ o = Returned r s' ∧ status r = "success" ∧
   pm_game_id msg = Some "g" ∧ pm_x msg = Some 1%Z ∧ pm_y msg = Some 1%Z ∧
   sv_games s !! "g" = Some g ∧ grid_at (grid g) 1 1 = Some c) ∧
  ∃ g' claimed,
    sv_games s' !! "g" = Some g' ∧ r_land_claimed r = Some claimed ∧
    (claimed = true →
     value c = land_value (land c) ∧ (1 ≤ value c ≤ 3)%Z ∧
     players g' = alter (add_score (value c)) (current_player_index g) (players g) ∧
     score_sum (players g') = (score_sum (players g) + value c)%Z) ∧
    (claimed = false → players g' = players g).
Proof.
  intros s msg o r s' g c.
  assert (reachable s) as Hr by (exists before_last_move; vm_compute; reflexivity).
  assert (o = Returned r s') as Ho by (vm_compute; reflexivity).
  assert (status r = "success") as Hst by (vm_compute; reflexivity).
  assert (sv_games s !! "g" = Some g) as Hg by (vm_compute; reflexivity).
  assert (grid_at (grid g) 1 1 = Some c) as Hc by (vm_compute; reflexivity).
  split.
  - exact (conj Hr (conj Ho (conj Hst (conj eq_refl (conj eq_refl (conj eq_refl
             (conj Hg Hc))))))).
  - exact (claim_credits_land_value msg "B" 13%Z s r s' "g" g 1 1 c
             Hr Ho Hst eq_refl eq_refl eq_refl Hg Hc).
Defined.

Lemma departure_not_repeated_witness :
  let s := state_after two_seated in
  let o := handle_player_disconnect "A" "g" s in
  let r := response_of o in
  let s' := state_of o in
  (reachable s ∧ o = Returned r s' ∧ status r = "success") ∧
  ∃ r2, handle_player_disconnect "A" "g" s' = Returned r2 s' ∧ status r2 = "error" ∧
        (message r2 = "Game not found" ∨ message r2 = "Player not in game").
Proof.
  intros s o r s'. destruct sample_two_seated as [Hr _].
  assert (o = Returned r s') as Ho by (vm_compute; reflexivity).
  assert (status r = "success") as Hst by (vm_compute; reflexivity).
  split; [exact (conj Hr (conj Ho Hst))|].
  exact (departure_not_repeated "A" "g" s r s' Hr Ho Hst).
Defined.

Lemma inactivity_check_idempotent_witness :
  let s := state_after two_seated in
  let s' := state_of (check_inactivity 100%Z s) in
  check_inactivity 100%Z s = Returned () s' ∧
  check_inactivity 100%Z s' = Returned () s'.
Proof.
  intros s s'.
  assert (check_inactivity 100%Z s = Returned () s') as Ho by (vm_compute; reflexivity).
  split; [exact Ho|]. exact (inactivity_check_idempotent 100%Z s () s' Ho).
Defined.

Lemma turn_after_departure_witness :
  let s := state_after two_seated in
  let o := handle_player_disconnect "A" "g" s in
  let r := response_of o in
  let s' := state_of o in
  let g := game_g s in
  (reachable s ∧ o = Returned r s' ∧ sv_games s !! "g" = Some g ∧
   2 ≤ length (players g) ∧ find_player_index "A" (players g) = Some 0 ∧
   current_player_index g ≤ 0) ∧
  ∃ g', sv_games s' !! "g" = Some g' ∧
    players g' !! current_player_index g' =
      players g !! (if decide (0 = current_player_index g)
                    then (current_player_index g + 1) `mod` length (players g)
                    else current_player_index g).
Proof.
  intros s o r s' g. destruct sample_two_seated as [Hr Hg].
  assert (o = Returned r s') as Ho by (vm_compute; reflexivity).
  assert (2 ≤ length (players g)) as Hlen by (vm_compute; lia).
  assert (find_player_index "A" (players g) = Some 0) as Hi by (vm_compute; reflexivity).
  assert (current_player_index g ≤ 0) as Hle by (vm_compute; lia).
  split; [exact (conj Hr (conj Ho (conj Hg (conj Hlen (conj Hi Hle)))))|].
  exact (turn_after_departure "A" "g" s r s' g 0 Hr Ho Hg Hlen Hi Hle).
Defined.

Lemma game_ends_when_all_owned_witness :
  let self := game_three_fences in
  let o := GameClass.place_fence self "B" 0 0 "west" 0 in
  let self' := default self (snd <$> o) in
  (o = Some (GameClass.Success true, self') ∧ game_over self = false ∧
   game_over self' = true) ∧
  ∀ x' y' c, grid_at (grid self') x' y' = Some c →
    all_fences c = true ∧ is_Some (owner c).
Proof.
  intros self o self'.
  assert (o = Some (GameClass.Success true, self')) as Ho by (vm_compute; reflexivity).
  assert (game_over self = false) as Hb by (vm_compute; reflexivity).
  assert (game_over self' = true) as Ha by (vm_compute; reflexivity).
  split; [exact (conj Ho (conj Hb Ha))|].
  exact (game_ends_when_all_owned self "B" 0 0 "west" 0 _ self' Ho Hb Ha).
Defined.

Lemma game_turn_rotation_witness :
  let self := game_seated 2 in
  let o := GameClass.place_fence self "A" 0 0 "north" 0 in
  let self' := default self (snd <$> o) in
  o = Some (GameClass.Success false, self') ∧
  ∃ c, grid_at (grid self) 0 0 = Some c ∧
    length (players self') = length (players self) ∧
    current_player_index self' =
      (current_player_index self + 1) `mod` length (players self) ∧
    players self' = players self.
Proof.
  intros self o self'.
  assert (o = Some (GameClass.Success false, self')) as Ho by (vm_compute; reflexivity).
  split; [exact Ho|].
  exact (game_turn_rotation self "A" 0 0 "north" 0 false self' Ho).
Defined.

Lemma game_unclaimed_enclosure_stays_witness :
  let self := game_enclosed_neighbour in
  let o := GameClass.place_fence self "A" 0 0 "north" 0 in
  let self' := default self (snd <$> o) in
  let c0 := default (new_cell regular) (grid_at (grid self) 1 0) in
  ((0 ≤ 1)%Z ∧ (0 ≤ 0)%Z ∧ grid_at (grid self) 1 0 = Some c0 ∧
   all_fences c0 = true ∧ owner c0 = None ∧
   o = Some (GameClass.Success false, self')) ∧
  (∃ c0', grid_at (grid self') 1 0 = Some c0' ∧
          all_fences c0' = true ∧ owner c0' = None) ∧
  game_over self' = game_over self.
Proof.
  intros self o self' c0.
  assert (0 ≤ 1)%Z as H1 by lia. assert (0 ≤ 0)%Z as H0 by lia.
  assert (grid_at (grid self) 1 0 = Some c0) as Hc by (vm_compute; reflexivity).
  assert (all_fences c0 = true) as Hall by (vm_compute; reflexivity).
  assert (owner c0 = None) as Hown by (vm_compute; reflexivity).
  assert (o = Some (GameClass.Success false, self')) as Ho by (vm_compute; reflexivity).
  split; [exact (conj H1 (conj H0 (conj Hc (conj Hall (conj Hown Ho)))))|].
  exact (game_unclaimed_enclosure_stays self "A" 0 0 "north" 0 _ self' 1 0 c0
           H1 H0 Hc Hall Hown Ho).
Defined.

Lemma game_remove_player_once_witness :
  let self := game_seated 2 in
  let self' := snd (GameClass.remove_player self "A") in
  (NoDup (p_id <$> players self) ∧
   current_player_index self < length (players self) ∧
   GameClass.remove_player self "A" = (GameClass.Removed, self')) ∧
  length (players self') = length (players self) - 1 ∧
  (∀ q, q ∈ players self' → q ∈ players self ∧ p_id q ≠ "A") ∧
  current_player_index self' < length (players self') ∧
  (∀ last, players self' = [last] →
     game_over self' = true ∧ winner self' = Some (p_id last)) ∧
  GameClass.remove_player self' "A" = (GameClass.NotSeated, self').
Proof.
  intros self self'.
  assert (p_id <$> players self = ["A"; "B"]) as Hids by (vm_compute; reflexivity).
  assert (NoDup (p_id <$> players self)) as Hnd.
  { rewrite Hids. apply NoDup_cons. split; [|apply NoDup_singleton].
    intros Hin%list_elem_of_singleton. discriminate Hin. }
  assert (current_player_index self < length (players self)) as Hidx by (vm_compute; lia).
  assert (GameClass.remove_player self "A" = (GameClass.Removed, self')) as Hrem
    by (vm_compute; reflexivity).
  split; [exact (conj Hnd (conj Hidx Hrem))|].
  exact (game_remove_player_once self "A" self' Hnd Hidx Hrem).
Defined.

Lemma game_add_player_capacity_witness :
  let self := GameClass.init "g" 2 2 0 in
  let o := GameClass.add_player self "A" "Ann" 0 in
  o = (true, snd o) ∧
  (true = true ↔
     (Z.of_nat (length (players self)) < num_players self)%Z ∧
     "A" ∉ p_id <$> players self) ∧
  (true = false → snd o = self) ∧
  (true = true →
   players (snd o) = players self ++ [{| p_id := "A"; p_name := "Ann"; p_score := 0 |}] ∧
   grid (snd o) = grid self ∧ current_player_index (snd o) = current_player_index self) ∧
  ((Z.of_nat (length (players self)) ≤ num_players self)%Z →
   (Z.of_nat (length (players (snd o))) ≤ num_players (snd o))%Z) ∧
  (NoDup (p_id <$> players self) → NoDup (p_id <$> players (snd o))).
Proof.
  intros self o.
  assert (o = (true, snd o)) as Ho by (vm_compute; reflexivity).
  split; [exact Ho|].
  exact (game_add_player_capacity self "A" "Ann" 0 true (snd o) Ho).
Defined.

(** ** A fence that is placed stays placed *)

(** [place_fence] for an identifier under which no game is stored. *)
Lemma place_fence_unknown_game msg pid now s gid :
  sv_lock s = false → pm_game_id msg = Some gid → sv_games s !! gid = None →
  place_fence msg pid now s = Returned (error "Invalid game ID") s.
Proof.
  intros Hl Hgid Hg. unfold place_fence, with_lock. rewrite Hl.
  assert (find_game (pm_game_id msg) (set_lock true s) = None) as ->.
  { unfold find_game. rewrite Hgid. destruct (String.eqb gid ""); [done|].
    change (sv_games (set_lock true s)) with (sv_games s). by rewrite Hg. }
  by rewrite (set_lock_restore s Hl).
Qed.

(** The answer to a request for a fence that is already there: the checks
    of the turn and of the end of the game come before the check of the
    fence. *)
Lemma placed_fence_answer msg pid now s gid g x y o c :
  server_ok s →
  pm_game_id msg = Some gid → gid ≠ "" → sv_games s !! gid = Some g →
  pm_x msg = Some x → pm_y msg = Some y → in_grid (grid_size g) x y →
  parse_orientation (pm_orientation msg) = Some o →
  grid_at (grid g) x y = Some c → fence o c = true →
  ∃ cur, players g !! current_player_index g = Some cur ∧
    place_fence msg pid now s =
      Returned (error (if decide (p_id cur = pid)
                       then if game_over g then "Game is over" else "Fence already exists"
                       else "Not your turn")) s.
Proof.
  intros Hok Hgid Hne Hg Hx Hy Hin Ho Hc Hf.
  pose proof (ok_lock _ Hok) as Hl.
  destruct (lookup_lt_is_Some_2 _ _ (ok_index _ (ok_games _ Hok gid g Hg))) as [cur Hcur].
  exists cur. split; [done|].
  unfold place_fence, with_lock. rewrite Hl.
  assert (find_game (pm_game_id msg) (set_lock true s) = Some (gid, g)) as ->.
  { by apply find_game_Some. }
  rewrite Hcur.
  destruct (String.eqb_spec (p_id cur) pid) as [Hid|Hid]; simpl.
  - rewrite decide_True by done. destruct (game_over g) eqn:Hgo.
    + by rewrite (set_lock_restore s Hl).
    + rewrite Hx, Hy. unfold in_grid in Hin.
      assert (((x <? 0) || (x >=? grid_size g) || (y <? 0) || (y >=? grid_size g))%Z = false)
        as -> by lia.
      by rewrite Ho, Hc, Hf, (set_lock_restore s Hl).
  - rewrite decide_False by done. by rewrite (set_lock_restore s Hl).
Qed.

(** One request later the game, if it is still stored, has the size it had
    and the fence it had. *)
Lemma step_fence_kept op s u s' gid n x y o :
  step op s = Returned u s' → ¬ creates gid op → (0 ≤ x)%Z → (0 ≤ y)%Z →
  (∀ g, sv_games s !! gid = Some g →
     grid_size g = n ∧ ∃ c, grid_at (grid g) x y = Some c ∧ fence o c = true) →
  ∀ g', sv_games s' !! gid = Some g' →
    grid_size g' = n ∧ ∃ c, grid_at (grid g') x y = Some c ∧ fence o c = true.
Proof.
  intros Hstep Hnew Hx Hy Hbefore g' Hg'.
  assert (∀ g, sv_games s !! gid = Some g → grid_size g' = grid_size g →
               grid g' = grid g →
               grid_size g' = n ∧ ∃ c, grid_at (grid g') x y = Some c ∧ fence o c = true)
    as Hsame.
  { intros g Hg -> ->. by apply Hbefore. }
  destruct op as [pid msg fresh draw now|pid msg now|pid msg now|pid msg|pid gid0|now];
    simpl in Hstep, Hnew.
  - destruct (create_game _ _ _ _ _ s) as [r s1| |] eqn:E; [|done..]. simplify_eq.
    apply create_game_returned in E as (_ & [[_ ->]|(g0 & _ & _ & _ & _ & Hgames & _)]).
    + by apply (Hsame g').
    + rewrite Hgames, lookup_insert_ne in Hg' by done. by apply (Hsame g').
  - destruct (join_game _ _ _ s) as [r s1| |] eqn:E; [|done..]. simplify_eq.
    apply join_game_returned in E as (_ & [[_ ->]|H]); [by apply (Hsame g')|].
    destruct H as (gid0 & g0 & g1 & Hfind & _ & _ & -> & _ & Hgames & _).
    apply find_game_Some in Hfind as (_ & _ & Hg0).
    rewrite Hgames, lookup_insert in Hg'. case_decide; simplify_eq.
    + by apply (Hsame g0).
    + by apply (Hsame g').
  - destruct (place_fence _ _ _ s) as [r s1| |] eqn:E; [|done..]. simplify_eq.
    apply place_fence_returned in E as (_ & [[_ ->]|H]); [by apply (Hsame g')|].
    destruct H as (gid0 & g0 & cur & x0 & y0 & o0 & c0 & g3 & claimed & gf & Hfind & _ & _
                   & _ & _ & _ & Hin & _ & Hc0 & _ & Hmv & Hend & _ & Hgames & _).
    apply find_game_Some in Hfind as (_ & _ & Hg0).
    rewrite Hgames, lookup_insert in Hg'. case_decide; simplify_eq; [|by apply (Hsame g')].
    destruct (Hbefore g0 Hg0) as (Hn & c & Hc & Hf).
    destruct (move_game_cells_kept _ _ _ _ _ _ _ _ _ Hin Hc0 Hmv x y c Hx Hy Hc)
      as (c' & Hc' & Hk & _).
    destruct (move_game_inv _ _ _ _ _ _ _ _ _ Hin Hc0 Hmv)
      as (_ & _ & _ & _ & _ & _ & _ & _ & Hsz & _).
    assert (grid g' = grid g3 ∧ grid_size g' = grid_size g3) as [Hgr Hsz'].
    { destruct (check_game_over g3).
      - apply end_game_spec in Hend as (w & -> & _). done.
      - by destruct Hend as [-> _]. }
    split; [congruence|]. exists c'. rewrite Hgr. split; [done|]. by apply Hk.
  - destruct (leave_game _ _ s) as [r s1| |] eqn:E; [|done..]. simplify_eq.
    apply leave_game_returned in E as (_ & _ & ->). by apply (Hsame g').
  - destruct (handle_player_disconnect _ _ s) as [r s1| |] eqn:E; [|done..]. simplify_eq.
    apply handle_player_disconnect_returned in E as (_ & [[_ ->]|[H|H]]).
    + by apply (Hsame g').
    + destruct H as (g0 & i & _ & _ & _ & _ & ->). simpl in Hg'.
      apply lookup_delete_Some in Hg' as [_ Hg']. by apply (Hsame g').
    + destruct H as (g0 & i & g1 & Hg0 & _ & _ & _ & Hgr & Hsz & _ & _ & _ & _ & Hgames & _).
      rewrite Hgames, lookup_insert in Hg'. case_decide; simplify_eq.
      * by apply (Hsame g0).
      * by apply (Hsame g').
  - apply check_inactivity_returned in Hstep as (_ & _ & _ & _ & _ & Hgames).
    rewrite Hgames in Hg'. destruct (sv_games s !! gid) as [g|] eqn:Hg; [|done].
    simpl in Hg'. apply timeout_game_spec in Hg' as (_ & Hgr & Hsz & _).
    by apply (Hsame g).
Qed.

(** The same after any number of requests. *)
Lemma run_fence_kept ops s s' gid n x y o :
  run ops s = Some s' → Forall (λ op, ¬ creates gid op) ops → (0 ≤ x)%Z → (0 ≤ y)%Z →
  (∀ g, sv_games s !! gid = Some g →
     grid_size g = n ∧ ∃ c, grid_at (grid g) x y = Some c ∧ fence o c = true) →
  ∀ g', sv_games s' !! gid = Some g' →
    grid_size g' = n ∧ ∃ c, grid_at (grid g') x y = Some c ∧ fence o c = true.
Proof.
  revert s. induction ops as [|op ops IH]; intros s Hrun Hnew Hx Hy Hbefore.
  - by injection Hrun as <-.
  - simpl in Hrun. destruct (step op s) as [u s1| |] eqn:Hstep; [|done..].
    apply Forall_cons in Hnew as [Hop Hnew].
    apply (IH s1); [done..|].
    by eapply step_fence_kept.
Qed.

(** C9, amended. A successful placement at an in-bounds (x, y) with a valid
    orientation turns the named flag of the target cell from false to true
    (and gives the cell its owner when the move claims it), turns the
    mirrored flag of the adjacent cell from false to true exactly when the
    code finds a neighbour on that side, and leaves every other cell as it
    was. From then on, in every state the server reaches without storing a
    new game under the same identifier, a request for the same
    (x, y, orientation) by any player changes nothing and is answered with
    the error of the first check that fails: "Invalid game ID" once the game
    has been removed, else "Not your turn" when the sender does not hold the
    turn, else "Game is over" when the game is over, else "Fence already
    exists". *)
Theorem fence_placement msg pid now s r s' gid g x y o :
  reachable s →
  place_fence msg pid now s = Returned r s' → status r = "success" →
  pm_game_id msg = Some gid → pm_x msg = Some x → pm_y msg = Some y →
  parse_orientation (pm_orientation msg) = Some o →
  sv_games s !! gid = Some g →
  ∃ g' c claimed,
    sv_games s' !! gid = Some g' ∧ r_land_claimed r = Some claimed ∧
    in_grid (grid_size g) x y ∧
    grid_at (grid g) x y = Some c ∧ fence o c = false ∧
    grid_at (grid g') x y =
      Some (if claimed then set_owner pid (set_fence o c) else set_fence o c) ∧
    (∀ ax ay ao, adjacent (grid_size g) o x y = Some (ax, ay, ao) →
       ∃ a, grid_at (grid g) ax ay = Some a ∧ fence ao a = false ∧
            grid_at (grid g') ax ay = Some (set_fence ao a)) ∧
    (∀ x' y', (0 ≤ x')%Z → (0 ≤ y')%Z → ¬ (x' = x ∧ y' = y) →
       (∀ ao, adjacent (grid_size g) o x y ≠ Some (x', y', ao)) →
       grid_at (grid g') x' y' = grid_at (grid g) x' y') ∧
    (∀ ops s2 pid2 now2,
       Forall (λ op, ¬ creates gid op) ops → run ops s' = Some s2 →
       (sv_games s2 !! gid = None ∧
        place_fence msg pid2 now2 s2 = Returned (error "Invalid game ID") s2) ∨
       (∃ g2 cur,
          sv_games s2 !! gid = Some g2 ∧
          players g2 !! current_player_index g2 = Some cur ∧
          place_fence msg pid2 now2 s2 =
            Returned (error (if decide (p_id cur = pid2)
                             then if game_over g2 then "Game is over"
                                  else "Fence already exists"
                             else "Not your turn")) s2)).
Proof.
  intros Hreach Hplace Hst Hgid Hmx Hmy Hmo Hg.
  pose proof (reachable_ok _ Hreach) as Hok.
  destruct (place_fence_ok _ _ _ _ _ _ Hok Hplace) as [Hok' _].
  apply place_fence_returned in Hplace as (Hl & [[Herr _]|H]);
    [rewrite Herr in Hst; discriminate|].
  destruct H as (gid0 & g0 & cur & x0 & y0 & o0 & c & g3 & claimed & gf & Hfind & Hcur & Hid
                 & Hgo & Hx & Hy & Hin & Ho & Hc & Hf & Hmv & Hend & -> & Hgames & Hl').
  apply find_game_Some in Hfind as (Hk & Hne & Hg0).
  assert (gid0 = gid) as -> by congruence. assert (g0 = g) as -> by congruence.
  assert (x0 = x) as -> by congruence. assert (y0 = y) as -> by congruence.
  assert (o0 = o) as -> by congruence. clear Hk Hg0 Hx Hy Ho.
  pose proof (ok_games _ Hok _ _ Hg) as Hgok.
  destruct (move_game_inv _ _ _ _ _ _ _ _ _ Hin Hc Hmv)
    as (g1 & Hp & Hcl & Hgr & Hps & Hidx & _ & _ & Hsz & _).
  assert (grid gf = grid g3 ∧ grid_size gf = grid_size g3) as (Hgr' & Hsz').
  { destruct (check_game_over g3).
    - apply end_game_spec in Hend as (w & -> & _). done.
    - by destruct Hend as [-> _]. }
  pose proof (put_fence_target _ _ _ _ _ _ _ Hin Hc Hp) as Ht.
  assert (∀ x' y', (0 ≤ x')%Z → (0 ≤ y')%Z → ¬ (x' = x ∧ y' = y) →
            grid_at (grid gf) x' y' = grid_at g1 x' y') as Hother.
  { intros x' y' Hx' Hy' Hne'. rewrite Hgr', Hgr. destruct claimed; [|done].
    unfold in_grid in Hin. rewrite grid_at_alter by lia. rewrite decide_False; [done|].
    intros [-> ->]. by apply Hne'. }
  assert (grid_at (grid gf) x y =
            Some (if claimed then set_owner (p_id cur) (set_fence o c) else set_fence o c))
    as Htarget.
  { rewrite Hgr', Hgr. destruct claimed; [|done].
    unfold in_grid in Hin. rewrite grid_at_alter by lia. rewrite decide_True by done.
    by rewrite Ht. }
  exists gf, c, claimed.
  split; [by rewrite Hgames, lookup_insert_eq|]. split; [done|]. split; [done|].
  split; [done|]. split; [done|]. split; [by rewrite <-Hid|]. split; [|split].
  - intros ax ay ao Ha.
    destruct (adjacent_spec _ _ _ _ _ _ _ Hin Ha) as [Hain Hrel].
    destruct (proj2 (ok_shape _ Hgok ax ay ltac:(unfold in_grid in Hain; lia)
                       ltac:(unfold in_grid in Hain; lia)) Hain) as [a Hacell].
    exists a. split; [done|].
    assert (¬ (ax = x ∧ ay = y)) as Hdiff by (destruct o; lia).
    pose proof Hin as Hin0. unfold in_grid in Hin, Hain. split.
    + pose proof (ok_mirrored _ Hgok) as Hm.
      destruct o; destruct Hrel as (-> & -> & ->); simpl in *.
      * destruct (Hm x (y - 1)%Z a c ltac:(lia) ltac:(lia) Hacell) as [_ Hm2].
        rewrite Hm2; [done|]. by replace (y - 1 + 1)%Z with y by lia.
      * destruct (Hm x y c a ltac:(lia) ltac:(lia) Hc) as [Hm1 _].
        rewrite <-Hm1; done.
      * destruct (Hm x y c a ltac:(lia) ltac:(lia) Hc) as [_ Hm2].
        rewrite <-Hm2; done.
      * destruct (Hm (x - 1)%Z y a c ltac:(lia) ltac:(lia) Hacell) as [Hm1 _].
        rewrite Hm1; [done|]. by replace (x - 1 + 1)%Z with x by lia.
    + rewrite Hother by lia.
      rewrite (put_fence_at _ _ _ _ _ _ ax ay Hin0 ltac:(lia) ltac:(lia) Hp).
      rewrite decide_False by (intros [-> ->]; by apply Hdiff).
      rewrite Ha, decide_True by done. by rewrite Hacell.
  - intros x' y' Hx' Hy' Hne' Hnadj. rewrite Hother by done.
    rewrite (put_fence_at _ _ _ _ _ _ x' y' Hin Hx' Hy' Hp).
    rewrite decide_False by (intros [-> ->]; by apply Hne').
    destruct (adjacent (grid_size g) o x y) as [[[ax ay] ao]|] eqn:Ha; [|done].
    rewrite decide_False; [done|]. intros [-> ->]. by apply (Hnadj ao).
  - intros ops s2 pid2 now2 Hnew Hrun.
    destruct (run_ok _ _ _ Hok' Hrun) as [Hok2 _].
    assert (fence o (if claimed then set_owner (p_id cur) (set_fence o c)
                     else set_fence o c) = true) as Hfence.
    { destruct claimed, o; reflexivity. }
    assert (∀ g2, sv_games s2 !! gid = Some g2 →
              grid_size g2 = grid_size g ∧
              ∃ c2, grid_at (grid g2) x y = Some c2 ∧ fence o c2 = true) as Hkept.
    { unfold in_grid in Hin.
      apply (run_fence_kept ops _ s2 gid (grid_size g) x y o Hrun Hnew); [lia..|].
      intros g2. rewrite Hgames, lookup_insert_eq. intros [= <-].
      split; [congruence|]. eauto. }
    destruct (sv_games s2 !! gid) as [g2|] eqn:Hg2.
    + right. destruct (Hkept g2 eq_refl) as (Hsz2 & c2 & Hc2 & Hf2).
      destruct (placed_fence_answer msg pid2 now2 s2 gid g2 x y o c2) as (cur2 & Hcur2 & Hans);
        try done.
      * by rewrite Hsz2.
      * by exists g2, cur2.
    + left. split; [done|].
      apply (place_fence_unknown_game _ _ _ _ gid); [apply (ok_lock _ Hok2)|done..].
Qed.

Lemma fence_placement_witness :
  let s := state_after two_seated in
  let msg := fence_at 0 0 "east" in
  let o := place_fence msg "A" 2%Z s in
  let g := game_g s in
  (reachable s ∧ o = Returned (response_of o) (state_of o) ∧
   status (response_of o) = "success" ∧
   pm_game_id msg = Some "g" ∧ pm_x msg = Some 0%Z ∧ pm_y msg = Some 0%Z ∧
   parse_orientation (pm_orientation msg) = Some o_east ∧
   sv_games s !! "g" = Some g) ∧
  ∃ g' c claimed,
    sv_games (state_of o) !! "g" = Some g' ∧
    r_land_claimed (response_of o) = Some claimed ∧
    in_grid (grid_size g) 0 0 ∧
    grid_at (grid g) 0 0 = Some c ∧ fence o_east c = false ∧
    grid_at (grid g') 0 0 =
      Some (if claimed then set_owner "A" (set_fence o_east c) else set_fence o_east c) ∧
    (∀ ax ay ao, adjacent (grid_size g) o_east 0 0 = Some (ax, ay, ao) →
       ∃ a, grid_at (grid g) ax ay = Some a ∧ fence ao a = false ∧
            grid_at (grid g') ax ay = Some (set_fence ao a)) ∧
    (∀ x' y', (0 ≤ x')%Z → (0 ≤ y')%Z → ¬ (x' = 0%Z ∧ y' = 0%Z) →
       (∀ ao, adjacent (grid_size g) o_east 0 0 ≠ Some (x', y', ao)) →
       grid_at (grid g') x' y' = grid_at (grid g) x' y') ∧
    (∀ ops s2 pid2 now2,
       Forall (λ op, ¬ creates "g" op) ops → run ops (state_of o) = Some s2 →
       (sv_games s2 !! "g" = None ∧
        place_fence msg pid2 now2 s2 = Returned (error "Invalid game ID") s2) ∨
       (∃ g2 cur,
          sv_games s2 !! "g" = Some g2 ∧
          players g2 !! current_player_index g2 = Some cur ∧
          place_fence msg pid2 now2 s2 =
            Returned (error (if decide (p_id cur = pid2)
                             then if game_over g2 then "Game is over"
                                  else "Fence already exists"
                             else "Not your turn")) s2)).
Proof.
  intros s msg o g.
  assert (reachable s) as Hr by (exists two_seated; vm_compute; reflexivity).
  assert (o = Returned (response_of o) (state_of o)) as Ho by (vm_compute; reflexivity).
  assert (status (response_of o) = "success") as Hst by (vm_compute; reflexivity).
  assert (sv_games s !! "g" = Some g) as Hg by (vm_compute; reflexivity).
  split.
  - exact (conj Hr (conj Ho (conj Hst (conj eq_refl (conj eq_refl
             (conj eq_refl (conj eq_refl Hg))))))).
  - exact (fence_placement msg "A" 2%Z s _ _ "g" g 0%Z 0%Z o_east
             Hr Ho Hst eq_refl eq_refl eq_refl eq_refl Hg).
Defined.
